(** * BusTub storage core: LRU-K replacer, buffer pool manager, persistent trie

    Shallow embedding of
      - src/buffer/lru_k_replacer.cpp      (module [LRUK])
      - src/buffer/buffer_pool_manager.cpp (module [BPM])
      - src/primer/trie.cpp                (modules [Trie] and [TrieHeap])
    followed by the properties proved about them:
      - [LRUKFacts]: the queue of the replacer is kept sorted by the
        comparator; what [Evict] and [RecordAccess] do;
      - [BPMFacts]: the invariant of the pool, the hit path of [FetchPage],
        [FlushPage], and where [FetchPage] and [DeletePage] go wrong;
      - [TrieFacts]: the laws of [Get], [Put] and [Remove] on trie values;
      - [TrieHeapFacts]: [Put] and [Remove] never write to an existing node;
      - [TrieRefinement]: the trie built from node objects implements the
        trie value;
      - [TrieLaws], [TrieHeapLaws]: how [Put], [Remove] and [Get] compose,
        and what [Put] and [Remove] copy and share;
      - [LRUKLaws]: the comparator as an order, the counters, what
        [SetEvictable] and [Remove] do;
      - [BPMLaws]: pins and eviction, what [NewPage], [UnpinPage],
        [DeletePage] and [FlushAllPages] do, and the way bytes travel
        between frames and disk.

    The headers that declare the classes are not part of the sources; field
    and method names are those the .cpp files use. *)

From Stdlib Require Import ZArith Ascii String Lia.
From Stdlib.Strings Require Import Byte.
From stdpp Require Import gmap strings list fin_maps sorting.

#[local] Set Warnings "-register-all,-clear-no-such-hyp".
#[local] Open Scope Z_scope.

(** ** Outcomes of C++ calls that may [throw] *)

(** Both the replacer and the pool signal caller bugs with [throw("error")].
    A call therefore either returns a value or leaves by an exception; in both
    cases the object is left in the state reached at that point. *)
Inductive outcome (A : Type) : Type :=
| Returned (a : A)
| Thrown.
Arguments Returned {A} a.
Arguments Thrown {A}.

(** [size_t] arithmetic: 64-bit unsigned, wrapping. *)
Definition size_t_wrap (z : Z) : Z := z mod 2 ^ 64.

(** * LRU-K replacer (src/buffer/lru_k_replacer.cpp) *)
Module LRUK.

(** One [LRUKNode].  [history_] holds the retained access timestamps, newest
    first ([push_front] is [cons], [back] is [last]).  [iter_] is the node's
    handle into [evict_queue_]; it is modelled by the frame id of the queue
    element the iterator designates. *)
Record LRUKNode : Type := mkNode {
  history_ : list Z;
  fid_ : Z;
  is_evictable_ : bool;
  iter_ : Z
}.

#[global] Instance LRUKNode_inhabited : Inhabited LRUKNode :=
  populate (mkNode [] 0 false 0).

Definition set_history (h : list Z) (n : LRUKNode) : LRUKNode :=
  mkNode h (fid_ n) (is_evictable_ n) (iter_ n).
Definition set_evictable_flag (b : bool) (n : LRUKNode) : LRUKNode :=
  mkNode (history_ n) (fid_ n) b (iter_ n).
Definition set_iter (it : Z) (n : LRUKNode) : LRUKNode :=
  mkNode (history_ n) (fid_ n) (is_evictable_ n) it.

(** [history_.size()] as a [size_t]. *)
Definition hsize (n : LRUKNode) : Z := Z.of_nat (length (history_ n)).
(** [history_.back()]: the oldest retained timestamp. *)
Definition hback (n : LRUKNode) : Z := List.last (history_ n) 0.

(** [LRUKReplacer::Comparator::operator()], lines 19-23. *)
Definition Comparator (k : Z) (l r : LRUKNode) : bool :=
  if (hsize l =? k) && (hsize r <? k) then false
  else if (hsize l <? k) && (hsize r =? k) then true
  else hback l <? hback r.

(** The replacer object.  [evict_queue_] is a [std::set<LRUKNode *, Comparator>]
    (its [emplace] returns a pair, [res.first]): its elements are pointers to
    nodes living in [node_store_], written here as the keys under which those
    nodes are stored, and listed in the order in which the set iterates
    ([begin()] is the head).  The counters are [size_t]. *)
Record LRUKReplacer : Type := mkReplacer {
  node_store_ : gmap Z LRUKNode;
  evict_queue_ : list Z;
  current_timestamp_ : Z;
  max_size_ : Z;
  evictable_size_ : Z;
  k_ : Z
}.

(** Dereferencing a node pointer held by the queue. *)
Definition deref (store : gmap Z LRUKNode) (p : Z) : LRUKNode := store !!! p.

(** The strict order the queue uses on node pointers. *)
Definition node_lt (k : Z) (store : gmap Z LRUKNode) (p q : Z) : bool :=
  Comparator k (deref store p) (deref store q).

(** [std::set::emplace]: the new pointer goes in front of the first element
    it is ordered before; an element equivalent to it (neither ordered before
    the other) blocks the insertion.  The result is the new sequence and the
    element designated by the returned iterator ([res.first]). *)
Fixpoint set_emplace (lt : Z → Z → bool) (x : Z) (q : list Z) : list Z * Z :=
  match q with
  | [] => ([x], x)
  | y :: q' =>
      if lt x y then (x :: y :: q', x)
      else if lt y x then
        let '(q'', it) := set_emplace lt x q' in (y :: q'', it)
      else (y :: q', y)
  end.

(** [std::set::erase(iterator)]: drops the designated element. *)
Fixpoint set_erase (it : Z) (q : list Z) : list Z :=
  match q with
  | [] => []
  | y :: q' => if decide (y = it) then q' else y :: set_erase it q'
  end.

(** [LRUKReplacer::LRUKReplacer], lines 24-25. *)
Definition create (num_frames k : Z) : LRUKReplacer :=
  mkReplacer ∅ [] 0 num_frames 0 k.

(** [LRUKReplacer::Evict], lines 27-36.  [Some f] stands for [true] with
    [*frame_id = f]; [None] for [false]. *)
Definition Evict (r : LRUKReplacer) : option Z * LRUKReplacer :=
  match evict_queue_ r with
  | [] => (None, r)
  | p :: q' =>
      let frame_id := fid_ (deref (node_store_ r) p) in
      (Some frame_id,
       mkReplacer (delete frame_id (node_store_ r)) q'
                  (current_timestamp_ r) (max_size_ r)
                  (size_t_wrap (evictable_size_ r - 1)) (k_ r))
  end.

(** [push_front(current_timestamp_)] followed by
    [if (history_.size() > k_) history_.pop_back()]. *)
Definition push_access (k ts : Z) (h : list Z) : list Z :=
  let h' := ts :: h in
  if k <? Z.of_nat (length h') then removelast h' else h'.

(** [LRUKReplacer::RecordAccess], lines 38-67. *)
Definition RecordAccess (frame_id : Z) (r : LRUKReplacer)
  : outcome unit * LRUKReplacer :=
  let ts := size_t_wrap (current_timestamp_ r + 1) in
  match node_store_ r !! frame_id with
  | Some node =>
      if is_evictable_ node then
        let q := set_erase (iter_ node) (evict_queue_ r) in
        let node1 := set_history (push_access (k_ r) ts (history_ node)) node in
        let store1 := <[frame_id := node1]> (node_store_ r) in
        let '(q', it) := set_emplace (node_lt (k_ r) store1) frame_id q in
        let store2 := <[frame_id := set_iter it node1]> store1 in
        (Returned tt,
         mkReplacer store2 q' ts (max_size_ r) (evictable_size_ r) (k_ r))
      else
        let node1 := set_history (push_access (k_ r) ts (history_ node)) node in
        (Returned tt,
         mkReplacer (<[frame_id := node1]> (node_store_ r)) (evict_queue_ r)
                    ts (max_size_ r) (evictable_size_ r) (k_ r))
  | None =>
      if Z.of_nat (size (node_store_ r)) <? max_size_ r then
        let node1 := mkNode [ts] frame_id true 0 in
        let store1 := <[frame_id := node1]> (node_store_ r) in
        let '(q', it) :=
          set_emplace (node_lt (k_ r) store1) frame_id (evict_queue_ r) in
        let store2 := <[frame_id := set_iter it node1]> store1 in
        (Returned tt,
         mkReplacer store2 q' ts (max_size_ r)
                    (size_t_wrap (evictable_size_ r + 1)) (k_ r))
      else
        (Thrown,
         mkReplacer (node_store_ r) (evict_queue_ r) ts (max_size_ r)
                    (evictable_size_ r) (k_ r))
  end.

(** [LRUKReplacer::SetEvictable], lines 69-89. *)
Definition SetEvictable (frame_id : Z) (set_evictable : bool) (r : LRUKReplacer)
  : outcome unit * LRUKReplacer :=
  match node_store_ r !! frame_id with
  | Some node =>
      if negb (Bool.eqb (is_evictable_ node) set_evictable) then
        let node1 := set_evictable_flag set_evictable node in
        let store1 := <[frame_id := node1]> (node_store_ r) in
        if set_evictable then
          let '(q', it) :=
            set_emplace (node_lt (k_ r) store1) frame_id (evict_queue_ r) in
          (Returned tt,
           mkReplacer (<[frame_id := set_iter it node1]> store1) q'
                      (current_timestamp_ r) (max_size_ r)
                      (size_t_wrap (evictable_size_ r + 1)) (k_ r))
        else
          (Returned tt,
           mkReplacer store1 (set_erase (iter_ node1) (evict_queue_ r))
                      (current_timestamp_ r) (max_size_ r)
                      (size_t_wrap (evictable_size_ r - 1)) (k_ r))
      else (Returned tt, r)
  | None => (Thrown, r)
  end.

(** [LRUKReplacer::Remove], lines 91-103. *)
Definition Remove (frame_id : Z) (r : LRUKReplacer)
  : outcome unit * LRUKReplacer :=
  match node_store_ r !! frame_id with
  | Some node =>
      if is_evictable_ node then
        (Returned tt,
         mkReplacer (delete frame_id (node_store_ r))
                    (set_erase (iter_ node) (evict_queue_ r))
                    (current_timestamp_ r) (max_size_ r)
                    (size_t_wrap (evictable_size_ r - 1)) (k_ r))
      else (Thrown, r)
  | None => (Returned tt, r)
  end.

(** [LRUKReplacer::Size], line 105. *)
Definition Size (r : LRUKReplacer) : Z := evictable_size_ r.

(** ** Representation invariant of the replacer *)

(** What every stored node satisfies: it is stored under its own frame id, it
    has between one and [k_] timestamps, newest first, none of them later
    than the clock. *)
Record node_ok (k now f : Z) (n : LRUKNode) : Prop := mkNodeOk {
  ok_fid : fid_ n = f;
  ok_nonempty : history_ n ≠ [];
  ok_size : hsize n ≤ k;
  ok_stamps : Forall (λ t, 0 < t ≤ now) (history_ n)
}.

(** The queue order as a relation. *)
Definition queue_lt (r : LRUKReplacer) (p q : Z) : Prop :=
  node_lt (k_ r) (node_store_ r) p q = true.

(** [tracked r f n]: frame [f] has node [n] in the node table. *)
Definition tracked (r : LRUKReplacer) (f : Z) (n : LRUKNode) : Prop :=
  node_store_ r !! f = Some n.

(** [evictable r f n]: [n] is the node of [f] and its flag is set. *)
Definition evictable (r : LRUKReplacer) (f : Z) (n : LRUKNode) : Prop :=
  tracked r f n ∧ is_evictable_ n = true.

Record wf (r : LRUKReplacer) : Prop := mkWf {
  wf_k : 1 ≤ k_ r;
  wf_clock : 0 ≤ current_timestamp_ r < 2 ^ 64;
  wf_nodes : ∀ f n, tracked r f n →
               node_ok (k_ r) (current_timestamp_ r) f n;
  wf_stamps_apart : ∀ f g n m t, f ≠ g → tracked r f n → tracked r g m →
               t ∈ history_ n → t ∉ history_ m;
  wf_sorted : StronglySorted (queue_lt r) (evict_queue_ r);
  wf_queue : ∀ f, f ∈ evict_queue_ r ↔ ∃ n, evictable r f n;
  wf_iter : ∀ f n, evictable r f n → iter_ n = f
}.

(** The calls a client can make, and the states they lead to.  A
    [RecordAccess] is only followed while the 64-bit clock has not run out. *)
Inductive step : LRUKReplacer → LRUKReplacer → Prop :=
| step_RecordAccess f r :
    current_timestamp_ r + 1 < 2 ^ 64 → step r (RecordAccess f r).2
| step_SetEvictable f b r : step r (SetEvictable f b r).2
| step_Evict r : step r (Evict r).2
| step_Remove f r : step r (Remove f r).2.

Definition reachable (num_frames k : Z) (r : LRUKReplacer) : Prop :=
  rtc step (create num_frames k) r.

(** ** Counting *)

(** The frames whose node has the evictable flag set. *)
Definition evictable_set (store : gmap Z LRUKNode) : gset Z :=
  dom (filter (λ kv, is_evictable_ kv.2 = true) store).

(** The counters agree with the tables: [max_size_] is a [size_t], the node
    table holds at most [max_size_] nodes, and [evictable_size_] is the
    number of evictable nodes. *)
Record sized (r : LRUKReplacer) : Prop := mkSized {
  sized_max : 0 ≤ max_size_ r < 2 ^ 64;
  sized_store : Z.of_nat (size (node_store_ r)) ≤ max_size_ r;
  sized_count : evictable_size_ r = Z.of_nat (size (evictable_set (node_store_ r)))
}.

(** ** An example state *)

(** A replacer with K = 2 that saw the accesses 1, 2, 2, 1, 3: frames 1 and
    2 have two stamps each, frame 3 has one. *)
Definition demo : LRUKReplacer :=
  (RecordAccess 3 (RecordAccess 1 (RecordAccess 2 (RecordAccess 2
     (RecordAccess 1 (create 3 2)).2).2).2).2).2.

End LRUK.

(** * Buffer pool manager (src/buffer/buffer_pool_manager.cpp) *)
Module BPM.
Import LRUK.

(** Modelled from the spec: [PAGE_SIZE] and [INVALID_PAGE_ID] are the
    compile-time constants of section 6; common/config.h, which defines them,
    is not among the sources. *)
Definition BUSTUB_PAGE_SIZE : nat := 4096.
Definition INVALID_PAGE_ID : Z := -1.

(** Modelled from the spec: a frame ([Page], declared in storage/page/page.h)
    is a buffer of [PAGE_SIZE] bytes, the id of the resident page, a pin
    count and a dirty flag.  The pin count is a mathematical integer here:
    the C++ field is a signed [int], whose overflow is undefined. *)
Record Page : Type := mkPage {
  data_ : list byte;
  page_id_ : Z;
  pin_count_ : Z;
  is_dirty_ : bool
}.

(** [Page::ResetMemory]: zero the buffer. *)
Definition zero_page : list byte := replicate BUSTUB_PAGE_SIZE x00.
Definition ResetMemory (p : Page) : Page :=
  mkPage zero_page (page_id_ p) (pin_count_ p) (is_dirty_ p).

Definition fresh_Page : Page := mkPage zero_page INVALID_PAGE_ID 0 false.
#[global] Instance Page_inhabited : Inhabited Page := populate fresh_Page.

Definition set_page_id (pid : Z) (p : Page) : Page :=
  mkPage (data_ p) pid (pin_count_ p) (is_dirty_ p).
Definition set_pin_count (c : Z) (p : Page) : Page :=
  mkPage (data_ p) (page_id_ p) c (is_dirty_ p).
Definition set_is_dirty (d : bool) (p : Page) : Page :=
  mkPage (data_ p) (page_id_ p) (pin_count_ p) d.
Definition set_data (bytes : list byte) (p : Page) : Page :=
  mkPage bytes (page_id_ p) (pin_count_ p) (is_dirty_ p).

(** Modelled from the spec: the disk scheduler of section 6.  A request
    [{is_write, data, page_id, promise}] is scheduled and its completion is
    awaited at once, so a write has stored the buffer under [page_id] and a
    read has filled the buffer with what is stored there (zeroes for a page
    never written) by the time [future.get()] returns.  [disk_log] keeps
    the requests in the order they were issued. *)
Record DiskRequest : Type := mkRequest {
  is_write_ : bool;
  req_page_id : Z
}.
Record Disk : Type := mkDisk {
  disk_pages : gmap Z (list byte);
  disk_log : list DiskRequest
}.
Definition disk_write (bytes : list byte) (pid : Z) (d : Disk) : Disk :=
  mkDisk (<[pid := bytes]> (disk_pages d)) (disk_log d ++ [mkRequest true pid]).
Definition disk_read (pid : Z) (d : Disk) : list byte * Disk :=
  (default zero_page (disk_pages d !! pid),
   mkDisk (disk_pages d) (disk_log d ++ [mkRequest false pid])).

(** The pool.  [pages_] is the frame array, indexed by frame id;
    [free_list_] is a [std::list<frame_id_t>] with its front at the head;
    [disk_] is the state behind [disk_scheduler_]. *)
Record BufferPoolManager : Type := mkPool {
  pool_size_ : Z;
  pages_ : list Page;
  replacer_ : LRUKReplacer;
  free_list_ : list Z;
  page_table_ : gmap Z Z;
  next_page_id_ : Z;
  disk_ : Disk
}.

Definition with_pages (ps : list Page) (b : BufferPoolManager) :=
  mkPool (pool_size_ b) ps (replacer_ b) (free_list_ b) (page_table_ b)
         (next_page_id_ b) (disk_ b).
Definition with_replacer (r : LRUKReplacer) (b : BufferPoolManager) :=
  mkPool (pool_size_ b) (pages_ b) r (free_list_ b) (page_table_ b)
         (next_page_id_ b) (disk_ b).
Definition with_free_list (fl : list Z) (b : BufferPoolManager) :=
  mkPool (pool_size_ b) (pages_ b) (replacer_ b) fl (page_table_ b)
         (next_page_id_ b) (disk_ b).
Definition with_page_table (pt : gmap Z Z) (b : BufferPoolManager) :=
  mkPool (pool_size_ b) (pages_ b) (replacer_ b) (free_list_ b) pt
         (next_page_id_ b) (disk_ b).
Definition with_next_page_id (n : Z) (b : BufferPoolManager) :=
  mkPool (pool_size_ b) (pages_ b) (replacer_ b) (free_list_ b) (page_table_ b)
         n (disk_ b).
Definition with_disk (d : Disk) (b : BufferPoolManager) :=
  mkPool (pool_size_ b) (pages_ b) (replacer_ b) (free_list_ b) (page_table_ b)
         (next_page_id_ b) d.

(** [pages_ + frame_id]: the frame a frame id designates.  Ids outside the
    array (undefined in C++) read a fresh page and write nothing. *)
Definition page_at (b : BufferPoolManager) (frame_id : Z) : Page :=
  if decide (0 ≤ frame_id) then pages_ b !!! Z.to_nat frame_id else fresh_Page.
Definition update_page (frame_id : Z) (g : Page → Page) (b : BufferPoolManager)
  : BufferPoolManager :=
  if decide (0 ≤ frame_id)
  then with_pages (alter g (Z.to_nat frame_id) (pages_ b)) b
  else b.

(** ** The pool's methods as state transformers that may throw *)

Definition M (A : Type) : Type :=
  BufferPoolManager → outcome A * BufferPoolManager.

Definition ret {A} (a : A) : M A := λ b, (Returned a, b).
Definition bind {A B} (m : M A) (k : A → M B) : M B :=
  λ b, match m b with
       | (Returned a, b') => k a b'
       | (Thrown, b') => (Thrown, b')
       end.

Notation "'do' x ← m ; k" := (bind m (λ x, k))
  (at level 10, x name, m at level 100, k at level 200,
   format "'[v' 'do'  x  ←  m ; '/' k ']'").
Notation "m ;; k" := (bind m (λ _, k))
  (at level 100, k at level 200, right associativity).

Definition gets {A} (f : BufferPoolManager → A) : M A := λ b, (Returned (f b), b).
Definition modify (f : BufferPoolManager → BufferPoolManager) : M unit :=
  λ b, (Returned tt, f b).

(** A call into [replacer_]; an exception thrown there passes through. *)
Definition replacer_call {A} (op : LRUKReplacer → outcome A * LRUKReplacer)
  : M A :=
  λ b, let '(o, r') := op (replacer_ b) in (o, with_replacer r' b).
Definition replacer_Evict : M (option Z) :=
  λ b, let '(o, r') := Evict (replacer_ b) in (Returned o, with_replacer r' b).

(** [std::unordered_map::emplace]: no effect when the key is present. *)
Definition map_emplace (k v : Z) (m : gmap Z Z) : gmap Z Z :=
  match m !! k with
  | Some _ => m
  | None => <[k := v]> m
  end.

(** [BufferPoolManager::BufferPoolManager], lines 25-41. *)
Definition create (pool_size : nat) (replacer_k : Z) : BufferPoolManager :=
  mkPool (Z.of_nat pool_size)
         (replicate pool_size fresh_Page)
         (LRUK.create (Z.of_nat pool_size) replacer_k)
         (Z.of_nat <$> seq 0 pool_size)
         ∅ 0 (mkDisk ∅ []).

(** [BufferPoolManager::FlushFrame], lines 44-52. *)
Definition FlushFrame (frame_id : Z) : M unit :=
  do page ← gets (λ b, page_at b frame_id);
  if is_dirty_ page then
    modify (update_page frame_id (set_is_dirty false));;
    modify (λ b, with_disk (disk_write (data_ page) (page_id_ page) (disk_ b)) b)
  else ret tt.

(** [BufferPoolManager::AllocatePage], line 179: [return next_page_id_++]. *)
Definition AllocatePage : M Z :=
  do n ← gets next_page_id_;
  modify (with_next_page_id (n + 1));;
  ret n.

(** Modelled from the spec: [DeallocatePage] is declared in the header, which
    is not among the sources; page ids are never reused, so releasing one
    changes nothing in the pool. *)
Definition DeallocatePage (page_id : Z) : M unit := ret tt.

(** [free_list_.back()] and [free_list_.pop_back()]. *)
Definition list_back (l : list Z) : Z := List.last l 0.
Definition pop_back (l : list Z) : list Z := removelast l.

(** [BufferPoolManager::NewPage], lines 53-79.  The result is [None] for
    [nullptr], and otherwise the frame of the returned [Page *] together with
    the value stored into [*page_id]. *)
Definition NewPage : M (option (Z * Z)) :=
  do fl ← gets free_list_;
  do got ←
    (if negb (bool_decide (fl = [])) then
       modify (with_free_list (pop_back fl));;
       ret (Some (list_back fl))
     else
       do ev ← replacer_Evict;
       match ev with
       | Some frame_id =>
           do page ← gets (λ b, page_at b frame_id);
           modify (λ b, with_page_table (delete (page_id_ page) (page_table_ b)) b);;
           FlushFrame frame_id;;
           ret (Some frame_id)
       | None => ret None
       end);
  match got with
  | None => ret None
  | Some frame_id =>
      do page_id ← AllocatePage;
      modify (λ b, with_page_table (map_emplace page_id frame_id (page_table_ b)) b);;
      modify (update_page frame_id (set_page_id page_id));;
      modify (update_page frame_id (set_pin_count 1));;
      modify (update_page frame_id ResetMemory);;
      replacer_call (RecordAccess frame_id);;
      replacer_call (SetEvictable frame_id false);;
      ret (Some (frame_id, page_id))
  end.

(** [BufferPoolManager::FetchPage], lines 81-117.  The result is the frame of
    the returned [Page *], or [None] for [nullptr]. *)
Definition FetchPage (page_id : Z) : M (option Z) :=
  do pt ← gets page_table_;
  match pt !! page_id with
  | Some frame_id =>
      replacer_call (RecordAccess frame_id);;
      replacer_call (SetEvictable frame_id false);;
      modify (update_page frame_id (λ p, set_pin_count (pin_count_ p + 1) p));;
      ret (Some frame_id)
  | None =>
      do fl ← gets free_list_;
      do got ←
        (if negb (bool_decide (fl = [])) then
           modify (with_free_list (pop_back fl));;
           ret (Some (list_back fl))
         else
           do ev ← replacer_Evict;
           match ev with
           | None => ret None
           | Some frame_id =>
               do page ← gets (λ b, page_at b frame_id);
               modify (λ b, with_page_table (delete (page_id_ page) (page_table_ b)) b);;
               FlushFrame frame_id;;
               ret (Some frame_id)
           end);
      match got with
      | None => ret None
      | Some frame_id =>
          modify (λ b, with_page_table (map_emplace page_id frame_id (page_table_ b)) b);;
          replacer_call (RecordAccess frame_id);;
          replacer_call (SetEvictable frame_id false);;
          modify (update_page frame_id (set_page_id page_id));;
          modify (update_page frame_id (set_pin_count 0));;
          modify (update_page frame_id ResetMemory);;
          do page ← gets (λ b, page_at b frame_id);
          do bytes ← (λ b, let '(bytes, d) := disk_read (page_id_ page) (disk_ b) in
                           (Returned bytes, with_disk d b));
          modify (update_page frame_id (set_data bytes));;
          ret (Some frame_id)
      end
  end.

(** [BufferPoolManager::UnpinPage], lines 119-135. *)
Definition UnpinPage (page_id : Z) (is_dirty : bool) : M bool :=
  do b0 ← gets id;
  match page_table_ b0 !! page_id with
  | None => ret false
  | Some frame_id =>
      if pin_count_ (page_at b0 frame_id) =? 0 then ret false
      else
        modify (update_page frame_id (λ p, set_pin_count (pin_count_ p - 1) p));;
        do page ← gets (λ b, page_at b frame_id);
        (if pin_count_ page =? 0
         then replacer_call (SetEvictable frame_id true)
         else ret tt);;
        (if is_dirty
         then modify (update_page frame_id (set_is_dirty is_dirty))
         else ret tt);;
        ret true
  end.

(** [BufferPoolManager::FlushPage], lines 137-147. *)
Definition FlushPage (page_id : Z) : M bool :=
  do pt ← gets page_table_;
  match pt !! page_id with
  | None => ret false
  | Some frame_id => FlushFrame frame_id;; ret true
  end.

(** [BufferPoolManager::FlushAllPages], lines 149-154.  The table is walked
    in the order in which [map_to_list] enumerates it. *)
Definition FlushAllPages : M unit :=
  do pt ← gets page_table_;
  foldr (λ entry rest, FlushFrame entry.2;; rest) (ret tt) (map_to_list pt).

(** [BufferPoolManager::DeletePage], lines 156-177. *)
Definition DeletePage (page_id : Z) : M bool :=
  do pt ← gets page_table_;
  match pt !! page_id with
  | None => ret true
  | Some frame_id =>
      modify (λ b, with_page_table (delete page_id (page_table_ b)) b);;
      do page ← gets (λ b, page_at b frame_id);
      if 0 <? pin_count_ page then ret false
      else
        replacer_call (Remove frame_id);;
        modify (λ b, with_free_list (frame_id :: free_list_ b) b);;
        FlushFrame frame_id;;
        modify (update_page frame_id (set_page_id INVALID_PAGE_ID));;
        modify (update_page frame_id ResetMemory);;
        DeallocatePage page_id;;
        ret true
  end.

(** The calls a client can make; [FetchPage]'s access type is ignored by the
    code and left out. *)
Inductive call : Type :=
| CallNewPage
| CallFetchPage (page_id : Z)
| CallUnpinPage (page_id : Z) (is_dirty : bool)
| CallFlushPage (page_id : Z)
| CallFlushAllPages
| CallDeletePage (page_id : Z).

Definition run (c : call) (b : BufferPoolManager) : BufferPoolManager :=
  match c with
  | CallNewPage => (NewPage b).2
  | CallFetchPage page_id => (FetchPage page_id b).2
  | CallUnpinPage page_id is_dirty => (UnpinPage page_id is_dirty b).2
  | CallFlushPage page_id => (FlushPage page_id b).2
  | CallFlushAllPages => (FlushAllPages b).2
  | CallDeletePage page_id => (DeletePage page_id b).2
  end.

(** The pool after a sequence of calls, first call first. *)
Definition run_all (cs : list call) (b : BufferPoolManager) : BufferPoolManager :=
  foldl (λ b c, run c b) b cs.

(** ** Representation invariant of the pool *)

(** The replacer is well formed and sized for the pool; the free list holds
    distinct frames of the pool; a frame the replacer tracks is a frame of
    the pool that is not free; and a page-table entry leads to a tracked
    frame that records the entry's page id. *)
Record inv (b : BufferPoolManager) : Prop := mkInv {
  inv_replacer : LRUK.wf (replacer_ b);
  inv_pages : Z.of_nat (length (pages_ b)) = pool_size_ b;
  inv_max_size : max_size_ (replacer_ b) = pool_size_ b;
  inv_free_NoDup : NoDup (free_list_ b);
  inv_free_range : ∀ f, f ∈ free_list_ b → 0 ≤ f < pool_size_ b;
  inv_tracked : ∀ f, is_Some (node_store_ (replacer_ b) !! f) →
                  0 ≤ f < pool_size_ b ∧ f ∉ free_list_ b;
  inv_resident : ∀ page_id f, page_table_ b !! page_id = Some f →
                  is_Some (node_store_ (replacer_ b) !! f) ∧
                  page_id_ (page_at b f) = page_id
}.

(** One client call, made while the replacer's 64-bit clock has not run
    out.  What a caller writes into a frame through the [Page *] it was given
    is not a call of the pool and is no step: in the states reached by steps
    every buffer holds zeroes.  Properties that speak of the bytes of a frame
    are therefore stated for every state that satisfies [inv], whatever its
    buffers hold. *)
Inductive step : BufferPoolManager → BufferPoolManager → Prop :=
| step_run c b :
    current_timestamp_ (replacer_ b) + 1 < 2 ^ 64 → step b (run c b).

Definition reachable (pool_size : nat) (replacer_k : Z) (b : BufferPoolManager)
  : Prop :=
  rtc step (create pool_size replacer_k) b.

(** ** Example pools *)

(** A pool of one frame, K = 2, right after construction. *)
Definition pool1 : BufferPoolManager := create 1 2.
(** The same pool after one [NewPage]: page 0 sits pinned in frame 0. *)
Definition pool1_new : BufferPoolManager := (NewPage pool1).2.
(** ... and after the page was unpinned with the dirty flag. *)
Definition pool1_dirty : BufferPoolManager := (UnpinPage 0 true pool1_new).2.
(** The pool after [NewPage], once the caller has filled the buffer of the
    page through the [Page *] it was given: frame 0 holds page 0, pinned,
    and its bytes are not zero. *)
Definition pool1_written : BufferPoolManager :=
  update_page 0 (set_data (replicate BUSTUB_PAGE_SIZE x2a)) pool1_new.

(** A frame id that designates a frame of the array. *)
Definition in_pool (b : BufferPoolManager) (f : Z) : Prop :=
  0 ≤ f < Z.of_nat (length (pages_ b)).

(** The state between obtaining a frame and installing a page in it: frame
    [f] is a frame of the pool that is neither free nor tracked, and no
    page-table entry leads to it. *)
Record held (b : BufferPoolManager) (f : Z) : Prop := mkHeld {
  held_replacer : LRUK.wf (replacer_ b);
  held_pages : Z.of_nat (length (pages_ b)) = pool_size_ b;
  held_max_size : max_size_ (replacer_ b) = pool_size_ b;
  held_free_NoDup : NoDup (free_list_ b);
  held_free_range : ∀ g, g ∈ free_list_ b → 0 ≤ g < pool_size_ b;
  held_tracked : ∀ g, is_Some (node_store_ (replacer_ b) !! g) →
                   0 ≤ g < pool_size_ b ∧ g ∉ free_list_ b;
  held_resident : ∀ page_id g, page_table_ b !! page_id = Some g →
                   is_Some (node_store_ (replacer_ b) !! g) ∧
                   page_id_ (page_at b g) = page_id;
  held_range : 0 ≤ f < pool_size_ b;
  held_not_free : f ∉ free_list_ b;
  held_untracked : node_store_ (replacer_ b) !! f = None
}.

(** The frame-acquisition block shared, verbatim, by [NewPage] and the miss
    path of [FetchPage]. *)
Definition acquire_frame (fl : list Z) : M (option Z) :=
  if negb (bool_decide (fl = [])) then
    modify (with_free_list (pop_back fl));;
    ret (Some (list_back fl))
  else
    do ev ← replacer_Evict;
    match ev with
    | Some frame_id =>
        do page ← gets (λ b, page_at b frame_id);
        modify (λ b, with_page_table (delete (page_id_ page) (page_table_ b)) b);;
        FlushFrame frame_id;;
        ret (Some frame_id)
    | None => ret None
    end.

(** ** Pins, eviction and the free list *)

(** No pin count is negative; a frame the replacer may evict is unpinned and
    holds the page the page table records for it; a free frame is unpinned
    and clean. *)
Record pins (b : BufferPoolManager) : Prop := mkPins {
  pins_nonneg : ∀ f, 0 ≤ pin_count_ (page_at b f);
  pins_evictable : ∀ f n,
    node_store_ (replacer_ b) !! f = Some n → is_evictable_ n = true →
    pin_count_ (page_at b f) = 0 ∧
    page_table_ b !! page_id_ (page_at b f) = Some f;
  pins_free : ∀ f, f ∈ free_list_ b →
    pin_count_ (page_at b f) = 0 ∧ is_dirty_ (page_at b f) = false
}.

End BPM.

(** * Persistent trie (src/primer/trie.cpp) *)

(** The value types the trie is instantiated with at the end of trie.cpp:
    [uint32_t], [uint64_t], [std::string], [Integer] (a
    [std::unique_ptr<uint32_t>]) and [MoveBlocked]. *)
Inductive ValueType : Type :=
| TUInt32 | TUInt64 | TString | TInteger | TMoveBlocked.

#[global] Instance ValueType_eq_dec : EqDecision ValueType.
Proof. solve_decision. Defined.

(** A stored value together with its dynamic type. *)
Inductive Value : Type :=
| VUInt32 (n : Z)
| VUInt64 (n : Z)
| VString (s : string)
| VInteger (n : Z)
| VMoveBlocked (waited : bool).

Definition type_of (v : Value) : ValueType :=
  match v with
  | VUInt32 _ => TUInt32
  | VUInt64 _ => TUInt64
  | VString _ => TString
  | VInteger _ => TInteger
  | VMoveBlocked _ => TMoveBlocked
  end.

(** [key.back() == '\0'] is stripped by [Get], [Put] and [Remove] alike. *)
Definition strip_nul (key : list ascii) : list ascii :=
  if negb (bool_decide (key = [])) && bool_decide (List.last key zero = zero)
  then removelast key
  else key.

(** A key written as a string literal. *)
Definition key_of (s : string) : list ascii := list_ascii_of_string s.

(** ** The trie as a value

    Nodes are immutable once built and only ever reached through
    [shared_ptr<const TrieNode>], so a node is described by its content: the
    children map and, for a [TrieNodeWithValue<T>], the value. *)
Module Trie.

(** Modelled from the spec: the classes [TrieNode] and [TrieNodeWithValue<T>]
    are declared in primer/trie.h, which is not among the sources.  A node
    maps one-byte edge labels to children and optionally carries a typed
    value; it is a value node iff it carries one. *)
Inductive TrieNode : Type := mkTrieNode {
  children_ : gmap ascii TrieNode;
  value_ : option Value
}.

Definition is_value_node_ (n : TrieNode) : bool :=
  match value_ n with Some _ => true | None => false end.

#[global] Instance TrieNode_inhabited : Inhabited TrieNode :=
  populate (mkTrieNode ∅ None).

(** [Clone()]: a new node with the same children and the same value. *)
Definition Clone (n : TrieNode) : TrieNode := mkTrieNode (children_ n) (value_ n).
(** [TrieNode()] and [TrieNode(children)]. *)
Definition plain_node (children : gmap ascii TrieNode) : TrieNode :=
  mkTrieNode children None.
(** [TrieNodeWithValue<T>(value)] and [TrieNodeWithValue<T>(children, value)]. *)
Definition node_with_value (children : gmap ascii TrieNode) (v : Value) : TrieNode :=
  mkTrieNode children (Some v).

(** A [Trie] is its [root_], which may be null. *)
Definition Trie : Type := option TrieNode.
Definition empty : Trie := None.

(** The walk of [FindPath] below the root. *)
Fixpoint walk (temp_node : TrieNode) (key : list ascii) : list TrieNode :=
  match key with
  | [] => []
  | c :: key' =>
      match children_ temp_node !! c with
      | Some child => child :: walk child key'
      | None => []
      end
  end.

(** [Trie::FindPath], lines 6-22. *)
Definition FindPath (root_ : Trie) (key : list ascii) : list TrieNode :=
  match root_ with
  | Some temp_node => temp_node :: walk temp_node key
  | None => []
  end.

(** [path.back()] and [path[index]]. *)
Definition back (path : list TrieNode) : TrieNode := List.last path inhabitant.
Definition at_index (path : list TrieNode) (index : nat) : TrieNode :=
  path !!! index.

(** [Trie::Get<T>], lines 23-45. *)
Definition Get (T : ValueType) (t : Trie) (key : list ascii) : option Value :=
  let key := strip_nul key in
  let path := FindPath t key in
  if negb (length path =? S (length key))%nat then None
  else
    match value_ (back path) with
    | Some v => if decide (type_of v = T) then Some v else None
    | None => None
    end.

(** One round of the linking loop:
    [new_nodes[index - 1]->children_.insert_or_assign(key[index - 1],
    new_nodes[index])]. *)
Definition link_step (key : list ascii) (new_nodes : list TrieNode) (index : nat)
  : list TrieNode :=
  match key !! (index - 1)%nat, new_nodes !! index with
  | Some c, Some child =>
      alter (λ parent, mkTrieNode (<[c := child]> (children_ parent)) (value_ parent))
            (index - 1)%nat new_nodes
  | _, _ => new_nodes
  end.

(** [for (index = last; index > 0; --index)] over {!link_step}. *)
Definition link_from (last : nat) (key : list ascii) (new_nodes : list TrieNode)
  : list TrieNode :=
  foldl (link_step key) new_nodes (rev (seq 1 last)).

(** [Trie::Put<T>], lines 47-79. *)
Definition Put (t : Trie) (key : list ascii) (value : Value) : Trie :=
  let key := strip_nul key in
  let path := FindPath t key in
  let new_nodes :=
    (λ index, if (index <? length path)%nat
              then Clone (at_index path index)
              else plain_node ∅) <$> seq 0 (length key) in
  let new_nodes :=
    new_nodes ++
    [if (length path =? S (length key))%nat
     then node_with_value (children_ (back path)) value
     else node_with_value ∅ value] in
  let new_nodes := link_from (length new_nodes - 1) key new_nodes in
  Some (at_index new_nodes 0).

(** The pruning loop of [Remove], lines 93-98: going up from [sum], skip the
    nodes that carry no value and have exactly one child. *)
Fixpoint prune (path : list TrieNode) (sum : nat) : nat :=
  match sum with
  | O => O
  | S sum' =>
      if negb (is_value_node_ (at_index path sum'))
         && (size (children_ (at_index path sum')) =? 1)%nat
      then prune path sum'
      else sum
  end.

(** [Trie::Remove], lines 81-126. *)
Definition Remove (t : Trie) (key : list ascii) : Trie :=
  let key := strip_nul key in
  let path := FindPath t key in
  if negb (length path =? S (length key))%nat || negb (is_value_node_ (back path))
  then t
  else
    let sum := length path in
    let sum :=
      if bool_decide (children_ (at_index path (sum - 1)) = ∅)
      then prune path (sum - 1)
      else sum in
    if (sum <=? 0)%nat then empty
    else
      let new_nodes :=
        (λ index, Clone (at_index path index)) <$> seq 0 (sum - 1) in
      let new_nodes :=
        new_nodes ++
        [if (sum =? S (length key))%nat
         then plain_node (children_ (at_index path (sum - 1)))
         else
           let n := Clone (at_index path (sum - 1)) in
           match key !! (sum - 1)%nat with
           | Some c => mkTrieNode (delete c (children_ n)) (value_ n)
           | None => n
           end] in
      let new_nodes := link_from (sum - 1) key new_nodes in
      Some (at_index new_nodes 0).

(** ** What the properties speak about *)

(** The node reached from the root along [key], if the whole key can be
    followed. *)
Definition node_at (t : Trie) (key : list ascii) : option TrieNode :=
  let path := FindPath t key in
  if (length path =? S (length key))%nat then Some (back path) else None.

(** No node without a value is a leaf. *)
Definition no_non_value_leaf (t : Trie) : Prop :=
  ∀ key n, node_at t key = Some n → children_ n = ∅ → is_value_node_ n = true.

(** The tries obtained from the empty trie by [Put] and [Remove]. *)
Inductive reachable : Trie → Prop :=
| reachable_empty : reachable empty
| reachable_Put t key value : reachable t → reachable (Put t key value)
| reachable_Remove t key : reachable t → reachable (Remove t key).

#[local] Open Scope nat_scope.

(** ** The loops of [Put] and [Remove] as recursions over the key *)

(** The node that takes the place of [o] when [value] is put under [key]
    below it. *)
Fixpoint put_node (o : option TrieNode) (key : list ascii) (value : Value)
  : TrieNode :=
  match key with
  | [] => node_with_value (from_option children_ ∅ o) value
  | c :: key' =>
      let base := from_option Clone (plain_node ∅) o in
      mkTrieNode
        (<[c := put_node (children_ base !! c) key' value]> (children_ base))
        (value_ base)
  end.

(** The node that takes the place of [n] when the value under [key] below it
    is removed; [None] when [n] itself is pruned. *)
Fixpoint remove_node (n : TrieNode) (key : list ascii) : option TrieNode :=
  match key with
  | [] =>
      if bool_decide (children_ n = ∅) then None
      else Some (plain_node (children_ n))
  | c :: key' =>
      match children_ n !! c with
      | Some child =>
          match remove_node child key' with
          | Some child' =>
              Some (mkTrieNode (<[c := child']> (children_ n)) (value_ n))
          | None =>
              if negb (is_value_node_ n) && (size (children_ n) =? 1)
              then None
              else Some (mkTrieNode (delete c (children_ n)) (value_ n))
          end
      | None => Some n
      end
  end.

(** The node reached along a key. *)
Fixpoint get_node (o : option TrieNode) (key : list ascii) : option TrieNode :=
  match key with
  | [] => o
  | c :: key' =>
      match o with
      | Some n => get_node (children_ n !! c) key'
      | None => None
      end
  end.

(** The vector [new_nodes] of [Put] before linking. *)
Definition put_nodes (path : list TrieNode) (key : list ascii) (value : Value)
  : list TrieNode :=
  ((λ index, if index <? length path
             then Clone (at_index path index)
             else plain_node ∅) <$> seq 0 (length key))
  ++ [if length path =? S (length key)
      then node_with_value (children_ (back path)) value
      else node_with_value ∅ value].

(** A node the pruning loop passes over. *)
Definition passed (n : TrieNode) : bool :=
  negb (is_value_node_ n) && (size (children_ n) =? 1).

(** The number of path nodes that stay (the final [sum] of [Remove]). *)
Definition kept (path : list TrieNode) : nat :=
  if bool_decide (children_ (at_index path (length path - 1)) = ∅)
  then prune path (length path - 1)
  else length path.

(** The vector [new_nodes] of [Remove] before linking. *)
Definition remove_nodes (path : list TrieNode) (key : list ascii) (sum : nat)
  : list TrieNode :=
  ((λ index, Clone (at_index path index)) <$> seq 0 (sum - 1))
  ++ [if sum =? S (length key)
      then plain_node (children_ (at_index path (sum - 1)))
      else
        let n := Clone (at_index path (sum - 1)) in
        match key !! (sum - 1) with
        | Some c => mkTrieNode (delete c (children_ n)) (value_ n)
        | None => n
        end].

Definition remove_body (path : list TrieNode) (key : list ascii) : Trie :=
  if kept path <=? 0 then empty
  else Some (at_index (link_from (kept path - 1) key
                         (remove_nodes path key (kept path))) 0).

(** {!no_non_value_leaf} for the subtree below a node. *)
Definition nnvl (o : option TrieNode) : Prop :=
  ∀ key n, get_node o key = Some n → children_ n = ∅ → is_value_node_ n = true.

(** ** Example tries *)

(** ["ab" ↦ 1]. *)
Definition trie_ab : Trie := Put empty (key_of "ab") (VUInt32 1).
(** ["a" ↦ 1], then overwritten by ["a" ↦ 2]. *)
Definition trie_a : Trie := Put empty (key_of "a") (VUInt32 1).
(** ["a" ↦ 1; "abc" ↦ 2]: below the value node "a" hangs the chain b, c. *)
Definition trie_a_abc : Trie :=
  Put (Put empty (key_of "a") (VUInt32 1)) (key_of "abc") (VUInt32 2).

End Trie.

(** ** The trie as objects in memory

    To speak about sharing and mutation, the nodes are placed in a store of
    node objects.  A [shared_ptr] to a node is the address of the object;
    every [Clone()], [make_shared] and [make_unique] allocates a new object,
    and objects are never released while a trie that reaches them is still
    held. *)
Module TrieHeap.

Abbreviation addr := nat (only parsing).

(** Modelled from the spec: [TrieNode] and [TrieNodeWithValue<T>] are declared
    in primer/trie.h, which is not among the sources.  A node object maps
    edge labels to child pointers ([children_] holds addresses) and
    optionally carries a typed value. *)
Record TrieNode : Type := mkTrieNode {
  children_ : gmap ascii addr;
  value_ : option Value
}.

Definition is_value_node_ (n : TrieNode) : bool :=
  match value_ n with Some _ => true | None => false end.

#[global] Instance TrieNode_inhabited : Inhabited TrieNode :=
  populate (mkTrieNode ∅ None).

(** The store: the objects allocated so far; an object's address is its
    position. *)
Abbreviation heap := (list TrieNode) (only parsing).

(** A [Trie] is its [root_]: the address of the root object, or null. *)
Abbreviation Trie := (option addr) (only parsing).
Definition empty : Trie := None.

(** Allocation of a new object. *)
Definition alloc (n : TrieNode) (h : heap) : addr * heap := (length h, h ++ [n]).

(** The content of a new object made by [Clone()], [TrieNode(children)] and
    [TrieNodeWithValue<T>(children, value)]. *)
Definition Clone (n : TrieNode) : TrieNode := mkTrieNode (children_ n) (value_ n).
Definition plain_node (children : gmap ascii addr) : TrieNode :=
  mkTrieNode children None.
Definition node_with_value (children : gmap ascii addr) (v : Value) : TrieNode :=
  mkTrieNode children (Some v).

(** Reading the object behind a pointer. *)
Definition deref (h : heap) (p : addr) : TrieNode := h !!! p.

(** The walk of [FindPath] below the root. *)
Fixpoint walk (h : heap) (temp_node : addr) (key : list ascii) : list addr :=
  match key with
  | [] => []
  | c :: key' =>
      match children_ (deref h temp_node) !! c with
      | Some child => child :: walk h child key'
      | None => []
      end
  end.

(** [Trie::FindPath], lines 6-22: the addresses of the nodes on the path. *)
Definition FindPath (h : heap) (root_ : Trie) (key : list ascii) : list addr :=
  match root_ with
  | Some temp_node => temp_node :: walk h temp_node key
  | None => []
  end.

Definition back (path : list addr) : addr := List.last path 0%nat.
Definition at_index (path : list addr) (index : nat) : addr := path !!! index.

(** [Trie::Get<T>], lines 23-45. *)
Definition Get (T : ValueType) (h : heap) (t : Trie) (key : list ascii)
  : option Value :=
  let key := strip_nul key in
  let path := FindPath h t key in
  if negb (length path =? S (length key))%nat then None
  else
    match value_ (deref h (back path)) with
    | Some v => if decide (type_of v = T) then Some v else None
    | None => None
    end.

(** A loop of [count] rounds, each allocating the object [make h index] and
    appending its address to [new_nodes]. *)
Definition alloc_loop (make : heap → nat → TrieNode) (count : nat) (h : heap)
  : heap * list addr :=
  foldl (λ '(h, new_nodes) index,
           let '(a, h') := alloc (make h index) h in (h', new_nodes ++ [a]))
        (h, []) (seq 0 count).

(** One round of the linking loop: the object [new_nodes[index - 1]] is
    updated in place. *)
Definition link_step (key : list ascii) (new_nodes : list addr) (h : heap)
    (index : nat) : heap :=
  match key !! (index - 1)%nat, new_nodes !! index, new_nodes !! (index - 1)%nat with
  | Some c, Some child, Some parent =>
      alter (λ n, mkTrieNode (<[c := child]> (children_ n)) (value_ n)) parent h
  | _, _, _ => h
  end.

Definition link_from (last : nat) (key : list ascii) (new_nodes : list addr)
    (h : heap) : heap :=
  foldl (link_step key new_nodes) h (rev (seq 1 last)).

(** [Trie::Put<T>], lines 47-79: the store afterwards and the new trie. *)
Definition Put (h : heap) (t : Trie) (key : list ascii) (value : Value)
  : heap * Trie :=
  let key := strip_nul key in
  let path := FindPath h t key in
  let '(h, new_nodes) :=
    alloc_loop (λ h index, if (index <? length path)%nat
                           then Clone (deref h (at_index path index))
                           else plain_node ∅)
               (length key) h in
  let '(a, h) :=
    alloc (if (length path =? S (length key))%nat
           then node_with_value (children_ (deref h (back path))) value
           else node_with_value ∅ value) h in
  let new_nodes := new_nodes ++ [a] in
  let h := link_from (length new_nodes - 1) key new_nodes h in
  (h, Some (at_index new_nodes 0)).

(** The pruning loop of [Remove], lines 93-98. *)
Fixpoint prune (h : heap) (path : list addr) (sum : nat) : nat :=
  match sum with
  | O => O
  | S sum' =>
      if negb (is_value_node_ (deref h (at_index path sum')))
         && (size (children_ (deref h (at_index path sum'))) =? 1)%nat
      then prune h path sum'
      else sum
  end.

(** [Trie::Remove], lines 81-126. *)
Definition Remove (h : heap) (t : Trie) (key : list ascii) : heap * Trie :=
  let key := strip_nul key in
  let path := FindPath h t key in
  if negb (length path =? S (length key))%nat
     || negb (is_value_node_ (deref h (back path)))
  then (h, t)
  else
    let sum := length path in
    let sum :=
      if bool_decide (children_ (deref h (at_index path (sum - 1))) = ∅)
      then prune h path (sum - 1)
      else sum in
    if (sum <=? 0)%nat then (h, empty)
    else
      let '(h, new_nodes) :=
        alloc_loop (λ h index, Clone (deref h (at_index path index)))
                   (sum - 1) h in
      let '(a, h) :=
        alloc (if (sum =? S (length key))%nat
               then plain_node (children_ (deref h (at_index path (sum - 1))))
               else
                 let n := Clone (deref h (at_index path (sum - 1))) in
                 match key !! (sum - 1)%nat with
                 | Some c => mkTrieNode (delete c (children_ n)) (value_ n)
                 | None => n
                 end) h in
      let new_nodes := new_nodes ++ [a] in
      let h := link_from (sum - 1) key new_nodes h in
      (h, Some (at_index new_nodes 0)).

(** ** Sequences of updates *)

Inductive update : Type :=
| DoPut (key : list ascii) (value : Value)
| DoRemove (key : list ascii).

Definition apply_update (u : update) (ht : heap * Trie) : heap * Trie :=
  match u with
  | DoPut key value => Put ht.1 ht.2 key value
  | DoRemove key => Remove ht.1 ht.2 key
  end.

(** Each update is applied to the trie the previous one returned. *)
Definition apply_updates (us : list update) (ht : heap * Trie) : heap * Trie :=
  foldl (λ ht u, apply_update u ht) ht us.

(** ** Well-formed stores *)

(** Every pointer stored in an object leads to an allocated object. *)
Definition closed (h : heap) : Prop :=
  ∀ a n c child, h !! a = Some n → children_ n !! c = Some child →
    (child < length h)%nat.

(** A trie whose root, if any, is allocated. *)
Definition rooted (h : heap) (t : Trie) : Prop :=
  ∀ a, t = Some a → (a < length h)%nat.

#[local] Open Scope nat_scope.

(** The nodes the loops of [Put] and [Remove] allocate point into the store
    as it is at that moment. *)
Definition makes_closed (make : heap → nat → TrieNode) : Prop :=
  ∀ h index c child, closed h →
    children_ (make h index) !! c = Some child → child < length h.

(** ** Example stores *)

(** The empty store with ["abc" ↦ 1] put into the empty trie. *)
Definition store_abc := Put [] empty (key_of "abc") (VUInt32 1).
(** ... then ["abd" ↦ 2] put into that trie. *)
Definition store_abd := Put store_abc.1 store_abc.2 (key_of "abd") (VUInt32 2).

(** ** The value a trie in memory stands for *)

(** The address reached from [o] along [key]. *)
Fixpoint addr_at (h : heap) (o : option addr) (key : list ascii) : option addr :=
  match key with
  | [] => o
  | c :: key' =>
      match o with
      | Some a => addr_at h (children_ (deref h a) !! c) key'
      | None => None
      end
  end.

(** What can be seen of a node: its value and the labels of its edges. *)
Definition view_heap (h : heap) (o : option addr) (key : list ascii)
  : option (option Value * gset ascii) :=
  (λ a, (value_ (deref h a), dom (children_ (deref h a)))) <$> addr_at h o key.

Definition view_tree (t : Trie.Trie) (key : list ascii)
  : option (option Value * gset ascii) :=
  (λ n, (Trie.value_ n, dom (Trie.children_ n))) <$> Trie.get_node t key.

(** The trie at [o] in store [h] stands for the value [t]: along every key
    both show the same nodes. *)
Definition represents (h : heap) (o : option addr) (t : Trie.Trie) : Prop :=
  ∀ key, view_heap h o key = view_tree t key.

(** The same sequence of updates applied to a trie value. *)
Definition apply_update_tree (u : update) (t : Trie.Trie) : Trie.Trie :=
  match u with
  | DoPut key value => Trie.Put t key value
  | DoRemove key => Trie.Remove t key
  end.
Definition apply_updates_tree (us : list update) (t : Trie.Trie) : Trie.Trie :=
  foldl (λ t u, apply_update_tree u t) t us.

(** The list [ext] of new objects after the first [m] rounds of linking:
    object [i] got the edge [key[i]] to the object after it. *)
Definition linked (base : nat) (key : list ascii) (m : nat) (ext : list TrieNode)
  : list TrieNode :=
  imap (λ i n,
          if i <? m then
            match key !! i with
            | Some c => mkTrieNode (<[c := base + S i]> (children_ n)) (value_ n)
            | None => n
            end
          else n) ext.

(** The objects [Put] allocates, by what the receiver has at each position
    of the key: the clone made at position [i], and the terminal. *)
Definition put_pre (h : heap) (t : Trie) (key : list ascii) (i : nat) : TrieNode :=
  match addr_at h t (take i key) with
  | Some a => Clone (deref h a)
  | None => plain_node ∅
  end.
Definition put_terminal (h : heap) (t : Trie) (key : list ascii) (value : Value)
  : TrieNode :=
  node_with_value
    (match addr_at h t key with
     | Some a => children_ (deref h a)
     | None => ∅
     end) value.

(** The objects [Remove] allocates when [sum] path nodes stay: the clones of
    the first [sum - 1] path nodes, and the last node. *)
Definition remove_pre (h : heap) (path : list addr) (i : nat) : TrieNode :=
  Clone (deref h (at_index path i)).
Definition remove_last (h : heap) (path : list addr) (key : list ascii)
    (sum : nat) : TrieNode :=
  if sum =? S (length key)
  then plain_node (children_ (deref h (at_index path (sum - 1))))
  else
    let n := Clone (deref h (at_index path (sum - 1))) in
    match key !! (sum - 1) with
    | Some c => mkTrieNode (delete c (children_ n)) (value_ n)
    | None => n
    end.

(** The final [sum] of [Remove]. *)
Definition kept (h : heap) (path : list addr) : nat :=
  if bool_decide (children_ (deref h (at_index path (length path - 1))) = ∅)
  then prune h path (length path - 1)
  else length path.

End TrieHeap.

(** * Facts about the LRU-K replacer *)
Module LRUKFacts.
Import LRUK.

(** ** The comparator is a lexicographic order *)

(** On histories of at most [k] stamps the comparator orders first by
    "fewer than [k] stamps" before "exactly [k]", then by the oldest stamp. *)
Lemma Comparator_spec k l r :
  hsize l ≤ k → hsize r ≤ k →
  Comparator k l r = true ↔
    (hsize l < k ∧ hsize r = k) ∨
    ((hsize l < k ↔ hsize r < k) ∧ hback l < hback r).
Proof.
  intros Hl Hr. unfold Comparator.
  destruct (Z.eqb_spec (hsize l) k), (Z.ltb_spec (hsize r) k),
    (Z.ltb_spec (hsize l) k), (Z.eqb_spec (hsize r) k),
    (Z.ltb_spec (hback l) (hback r)); simpl; split; intros; try done; lia.
Qed.

Lemma Comparator_irrefl k n : Comparator k n n = false.
Proof.
  unfold Comparator.
  destruct (Z.eqb_spec (hsize n) k), (Z.ltb_spec (hsize n) k); simpl;
    try lia; apply Z.ltb_irrefl.
Qed.

Lemma Comparator_trans k a b c :
  hsize a ≤ k → hsize b ≤ k → hsize c ≤ k →
  Comparator k a b = true → Comparator k b c = true → Comparator k a c = true.
Proof.
  intros Ha Hb Hc. rewrite !Comparator_spec by done. lia.
Qed.

Lemma Comparator_total k a b :
  hsize a ≤ k → hsize b ≤ k → hback a ≠ hback b →
  Comparator k a b = true ∨ Comparator k b a = true.
Proof.
  intros Ha Hb Hne. rewrite !Comparator_spec by done. lia.
Qed.

Lemma Comparator_histories k a b a' b' :
  history_ a = history_ a' → history_ b = history_ b' →
  Comparator k a b = Comparator k a' b'.
Proof.
  intros Ha Hb. unfold Comparator, hsize, hback. by rewrite Ha, Hb.
Qed.

(** ** The ordered set *)

Section ordered_set_erase.

Lemma set_erase_subseteq it q : set_erase it q ⊆ q.
Proof.
  induction q as [|y q IH]; simpl; [done|].
  case_decide; set_solver.
Qed.

Lemma elem_of_set_erase it q z :
  NoDup q → z ∈ set_erase it q ↔ z ∈ q ∧ z ≠ it.
Proof.
  induction q as [|y q IH]; simpl; intros Hnd.
  - set_solver.
  - apply NoDup_cons in Hnd as [Hy Hnd]. case_decide as Hdec.
    + subst y. set_solver.
    + rewrite !elem_of_cons, IH by done. naive_solver.
Qed.

Lemma set_erase_not_elem_of it q : it ∉ q → set_erase it q = q.
Proof.
  induction q as [|y q IH]; simpl; [done|]. intros Hn.
  apply not_elem_of_cons in Hn as [? ?]. case_decide; [congruence|].
  by rewrite IH.
Qed.

Lemma set_erase_sorted (R : Z → Z → Prop) it q :
  StronglySorted R q → StronglySorted R (set_erase it q).
Proof.
  induction q as [|y q IH]; simpl; intros Hs; [done|].
  apply StronglySorted_cons in Hs as [Hall Hs].
  case_decide; [done|]. apply StronglySorted_cons. split; [|by apply IH].
  eapply Forall_forall. intros z Hz.
  eapply Forall_forall in Hall; [done|by eapply set_erase_subseteq].
Qed.

Lemma set_erase_length it q :
  it ∈ q → S (length (set_erase it q)) = length q.
Proof.
  induction q as [|y q IH]; simpl; intros Hin; [by apply elem_of_nil in Hin|].
  case_decide; [done|]. simpl. rewrite IH; [done|set_solver].
Qed.

End ordered_set_erase.

Section ordered_set_emplace.
Variable lt : Z → Z → bool.

(** Inserting an element that is comparable with, and different from, every
    element present puts it in its place. *)
Lemma set_emplace_spec x q :
  (∀ y, y ∈ q → lt x y = true ∨ lt y x = true) →
  (∀ a b c, a ∈ x :: q → b ∈ x :: q → c ∈ x :: q →
     lt a b = true → lt b c = true → lt a c = true) →
  StronglySorted (λ a b, lt a b = true) q →
  (set_emplace lt x q).2 = x ∧
  (∀ z, z ∈ (set_emplace lt x q).1 ↔ z = x ∨ z ∈ q) ∧
  StronglySorted (λ a b, lt a b = true) (set_emplace lt x q).1 ∧
  length (set_emplace lt x q).1 = S (length q).
Proof.
  induction q as [|y q IH]; intros Htot Htr Hs; simpl.
  - split_and!; [done|set_solver|repeat constructor|done].
  - apply StronglySorted_cons in Hs as [Hall Hs].
    destruct (lt x y) eqn:Hxy; simpl.
    + split_and!; [done|set_solver| |done].
      apply StronglySorted_cons. split; [|by apply StronglySorted_cons].
      constructor; [done|]. eapply Forall_forall. intros z Hz.
      eapply Forall_forall in Hall; [|done].
      apply (Htr x y z); set_solver.
    + destruct (Htot y) as [?|Hyx]; [set_solver|congruence|].
      rewrite Hyx.
      destruct IH as (Hit & Hel & Hso & Hlen); [set_solver| |done|].
      { intros a b c Ha Hb Hc. apply Htr; set_solver. }
      destruct (set_emplace lt x q) as [q'' it]; simpl in *.
      split_and!; [done| | |by rewrite Hlen].
      * intros z. rewrite !elem_of_cons, Hel. naive_solver.
      * apply StronglySorted_cons. split; [|done].
        eapply Forall_forall. intros z Hz. apply Hel in Hz as [->|Hz]; [done|].
        by eapply Forall_forall in Hall.
Qed.
End ordered_set_emplace.

Lemma sorted_irrefl_NoDup (R : Z → Z → Prop) q :
  (∀ x, ¬ R x x) → StronglySorted R q → NoDup q.
Proof.
  intros Hirr. induction q as [|y q IH]; intros Hs; [constructor|].
  apply StronglySorted_cons in Hs as [Hall Hs].
  constructor; [|by apply IH].
  intros Hin. eapply Forall_forall in Hall; [|done]. by eapply Hirr.
Qed.

Lemma sorted_ext (R R' : Z → Z → Prop) q :
  (∀ a b, a ∈ q → b ∈ q → R a b → R' a b) →
  StronglySorted R q → StronglySorted R' q.
Proof.
  induction q as [|y q IH]; intros Himp Hs; [constructor|].
  apply StronglySorted_cons in Hs as [Hall Hs].
  apply StronglySorted_cons. split.
  - eapply Forall_forall. intros z Hz. eapply Forall_forall in Hall; [|done].
    apply Himp; set_solver.
  - apply IH; [|done]. intros a b Ha Hb. apply Himp; set_solver.
Qed.

(** ** Comparing through the node table *)

Lemma deref_lookup store p n : store !! p = Some n → deref store p = n.
Proof. intros H. unfold deref. by rewrite lookup_total_alt, H. Qed.

Lemma deref_insert_ne store f n p : p ≠ f → deref (<[f:=n]> store) p = deref store p.
Proof. intros H. unfold deref. by rewrite lookup_total_insert_ne. Qed.

Lemma deref_insert_eq store f n : deref (<[f:=n]> store) f = n.
Proof. unfold deref. by rewrite lookup_total_insert_eq. Qed.

Lemma deref_delete_ne store f p : p ≠ f → deref (delete f store) p = deref store p.
Proof. intros H. unfold deref. by rewrite lookup_total_delete_ne. Qed.

(** Storing a node with the same history under [f] does not change the order. *)
Lemma node_lt_insert_history k store f n n' a b :
  store !! f = Some n → history_ n' = history_ n →
  node_lt k (<[f:=n']> store) a b = node_lt k store a b.
Proof.
  intros Hf Hh. unfold node_lt. apply Comparator_histories.
  - destruct (decide (a = f)) as [->|?];
      [by rewrite deref_insert_eq, (deref_lookup _ _ _ Hf)
      |by rewrite deref_insert_ne].
  - destruct (decide (b = f)) as [->|?];
      [by rewrite deref_insert_eq, (deref_lookup _ _ _ Hf)
      |by rewrite deref_insert_ne].
Qed.

Lemma node_lt_insert_ne k store f n a b :
  a ≠ f → b ≠ f → node_lt k (<[f:=n]> store) a b = node_lt k store a b.
Proof. intros. unfold node_lt. by rewrite !deref_insert_ne. Qed.

Lemma node_lt_delete_ne k store f a b :
  a ≠ f → b ≠ f → node_lt k (delete f store) a b = node_lt k store a b.
Proof. intros. unfold node_lt. by rewrite !deref_delete_ne. Qed.

Lemma hback_elem_of n : history_ n ≠ [] → hback n ∈ history_ n.
Proof.
  unfold hback. intros Hne. destruct (history_ n) as [|t h]; [done|].
  clear Hne. revert t. induction h as [|u h IH]; intros t; simpl.
  - set_solver.
  - specialize (IH u). simpl in IH. set_solver.
Qed.

(** Emplacing the pointer to a stored node whose stamps are apart from those
    of the queued nodes. *)
Lemma emplace_ok k store q f :
  (∀ g n, store !! g = Some n → hsize n ≤ k ∧ history_ n ≠ []) →
  (∀ g h n m t, g ≠ h → store !! g = Some n → store !! h = Some m →
     t ∈ history_ n → t ∉ history_ m) →
  (∀ g, g ∈ q → is_Some (store !! g)) →
  is_Some (store !! f) → f ∉ q →
  StronglySorted (λ a b, node_lt k store a b = true) q →
  (set_emplace (node_lt k store) f q).2 = f ∧
  (∀ z, z ∈ (set_emplace (node_lt k store) f q).1 ↔ z = f ∨ z ∈ q) ∧
  StronglySorted (λ a b, node_lt k store a b = true)
    (set_emplace (node_lt k store) f q).1 ∧
  length (set_emplace (node_lt k store) f q).1 = S (length q).
Proof.
  intros Hok Hapart Hq [n Hn] Hfq Hs.
  assert (Hall : ∀ g, g ∈ f :: q → is_Some (store !! g)).
  { intros g [->|?]%elem_of_cons; [by eexists|by apply Hq]. }
  apply set_emplace_spec; [| |done].
  - intros y Hy. destruct (Hq y Hy) as [m Hm].
    assert (f ≠ y) by (intros ->; done).
    unfold node_lt. rewrite (deref_lookup _ _ _ Hn), (deref_lookup _ _ _ Hm).
    destruct (Hok _ _ Hn), (Hok _ _ Hm).
    apply Comparator_total; [done..|].
    intros Heq. eapply (Hapart f y n m (hback n)); [done..| |].
    + by apply hback_elem_of.
    + rewrite Heq. by apply hback_elem_of.
  - intros a b c Ha Hb Hc.
    destruct (Hall _ Ha) as [na Hna], (Hall _ Hb) as [nb Hnb],
      (Hall _ Hc) as [nc Hnc].
    unfold node_lt.
    rewrite (deref_lookup _ _ _ Hna), (deref_lookup _ _ _ Hnb),
      (deref_lookup _ _ _ Hnc).
    apply Comparator_trans; by eapply Hok.
Qed.

Lemma node_lt_irrefl k store p : node_lt k store p p = false.
Proof. apply Comparator_irrefl. Qed.

(** ** The invariant holds initially and is kept by every call *)

Lemma wf_queue_NoDup r : wf r → NoDup (evict_queue_ r).
Proof.
  intros Hwf. eapply sorted_irrefl_NoDup; [|apply Hwf].
  intros x. unfold queue_lt. by rewrite node_lt_irrefl.
Qed.

Lemma wf_create num_frames k : 1 ≤ k → wf (create num_frames k).
Proof.
  intros Hk. split; simpl; unfold evictable, tracked; simpl.
  - done.
  - lia.
  - intros f n. by rewrite lookup_empty.
  - intros f g n m t _. by rewrite lookup_empty.
  - constructor.
  - intros f. split; [by intros ?%elem_of_nil|].
    intros (n & Hn & _). by rewrite lookup_empty in Hn.
  - intros f n [Hn _]. by rewrite lookup_empty in Hn.
Qed.

Lemma wf_head_evictable r p q :
  wf r → evict_queue_ r = p :: q →
  ∃ n, evictable r p n ∧ fid_ (deref (node_store_ r) p) = p.
Proof.
  intros Hwf Hq. destruct (proj1 (wf_queue r Hwf p)) as (n & Hn & He).
  { rewrite Hq. set_solver. }
  exists n. split; [done|]. rewrite (deref_lookup _ _ _ Hn).
  by apply (wf_nodes r Hwf).
Qed.

Lemma wf_Evict r : wf r → wf (Evict r).2.
Proof.
  intros Hwf. unfold Evict. destruct (evict_queue_ r) as [|p q] eqn:Hq; [done|].
  destruct (wf_head_evictable r p q Hwf Hq) as (n & [Hn He] & ->). simpl.
  pose proof (wf_queue_NoDup r Hwf) as Hnd. rewrite Hq in Hnd.
  apply NoDup_cons in Hnd as [Hpq Hnd].
  pose proof (wf_sorted r Hwf) as Hs. rewrite Hq in Hs.
  apply StronglySorted_cons in Hs as [_ Hs].
  split; simpl; unfold evictable, tracked, queue_lt; simpl.
  - apply Hwf.
  - apply Hwf.
  - intros f m [_ Hm]%lookup_delete_Some. by apply (wf_nodes r Hwf).
  - intros f g m1 m2 t Hne [_ H1]%lookup_delete_Some [_ H2]%lookup_delete_Some.
    by apply (wf_stamps_apart r Hwf f g).
  - eapply sorted_ext; [|exact Hs]. intros a b Ha Hb. unfold queue_lt.
    rewrite node_lt_delete_ne; [done|set_solver..].
  - intros f. split.
    + intros Hf. destruct (proj1 (wf_queue r Hwf f)) as (m & Hm & Hem).
      { rewrite Hq. set_solver. }
      exists m. split; [|done]. apply lookup_delete_Some. split; [|done].
      intros ->. done.
    + intros (m & [Hne Hm]%lookup_delete_Some & Hem).
      assert (f ∈ evict_queue_ r) as Hin by (apply (wf_queue r Hwf); by exists m).
      rewrite Hq in Hin. set_solver.
  - intros f m [[_ Hm]%lookup_delete_Some Hem]. by apply (wf_iter r Hwf).
Qed.

(** Replacing the node of [f] by one whose stamps occur in no other node keeps
    the histories of different nodes apart. *)
Lemma stamps_apart_insert (store : gmap Z LRUKNode) f n' :
  (∀ f g n m t, f ≠ g → store !! f = Some n → store !! g = Some m →
     t ∈ history_ n → t ∉ history_ m) →
  (∀ t g m, t ∈ history_ n' → g ≠ f → store !! g = Some m → t ∉ history_ m) →
  ∀ a b n m t, a ≠ b → <[f:=n']> store !! a = Some n →
    <[f:=n']> store !! b = Some m → t ∈ history_ n → t ∉ history_ m.
Proof.
  intros Hap Hnew a b n m t Hab Ha Hb Ht.
  apply lookup_insert_Some in Ha as [[-> <-]|[Haf Ha]];
    apply lookup_insert_Some in Hb as [[-> <-]|[Hbf Hb]]; try done.
  - by eapply Hnew.
  - intros Hm. by eapply (Hnew t a n).
  - by eapply (Hap a b).
Qed.

(** Moving between the queue orders of two node tables that agree on the
    histories of the queued nodes. *)
Lemma sorted_transfer k store store' q :
  (∀ a, a ∈ q → history_ (deref store' a) = history_ (deref store a)) →
  StronglySorted (λ a b, node_lt k store a b = true) q →
  StronglySorted (λ a b, node_lt k store' a b = true) q.
Proof.
  intros Hh. apply sorted_ext. intros a b Ha Hb. unfold node_lt.
  by rewrite (Comparator_histories k (deref store' a) (deref store' b)
                (deref store a) (deref store b)) by by apply Hh.
Qed.

Lemma wf_not_queued r f n :
  wf r → tracked r f n → is_evictable_ n = false → f ∉ evict_queue_ r.
Proof.
  intros Hwf Hn He Hin. apply (wf_queue r Hwf) in Hin as (m & Hm & Hem).
  unfold tracked in *. congruence.
Qed.

Lemma wf_untracked_not_queued r f :
  wf r → node_store_ r !! f = None → f ∉ evict_queue_ r.
Proof.
  intros Hwf Hn Hin. apply (wf_queue r Hwf) in Hin as (m & Hm & Hem).
  unfold tracked in *. congruence.
Qed.

Lemma wf_queue_tracked r g :
  wf r → g ∈ evict_queue_ r → is_Some (node_store_ r !! g).
Proof. intros Hwf (m & Hm & _)%(wf_queue r Hwf). by exists m. Qed.

Lemma wf_node_bounds r g n :
  wf r → node_store_ r !! g = Some n → hsize n ≤ k_ r ∧ history_ n ≠ [].
Proof. intros Hwf Hn. split; by apply (wf_nodes r Hwf g). Qed.

(** The general step: the node of [f] is replaced by [n'] and its pointer is
    (re)inserted into a queue [q] that holds exactly the other evictable
    nodes.  This covers the evictable branches of [RecordAccess] and
    [SetEvictable]. *)
Lemma wf_requeue r f n' q now es :
  wf r →
  0 ≤ now < 2 ^ 64 → current_timestamp_ r ≤ now →
  node_ok (k_ r) now f n' →
  is_evictable_ n' = true →
  (∀ t g m, t ∈ history_ n' → g ≠ f → node_store_ r !! g = Some m →
     t ∉ history_ m) →
  StronglySorted (queue_lt r) q →
  (∀ z, z ∈ q ↔ z ∈ evict_queue_ r ∧ z ≠ f) →
  let store1 := <[f:=n']> (node_store_ r) in
  let res := set_emplace (node_lt (k_ r) store1) f q in
  wf (mkReplacer (<[f:=set_iter res.2 n']> store1) res.1 now (max_size_ r)
        es (k_ r)).
Proof.
  intros Hwf Hnow Hmono Hok' Hev Hfresh Hs Hq store1 res.
  assert (Hnodes1 : ∀ g n, store1 !! g = Some n → node_ok (k_ r) now g n).
  { intros g n [[<- <-]|[? Hn]]%lookup_insert_Some; [done|].
    destruct (wf_nodes r Hwf g n Hn) as [? ? ? Hst]. split; [done..|].
    eapply Forall_impl; [exact Hst|]. simpl. intros; lia. }
  assert (Hfq : f ∉ q) by (intros ?%Hq; naive_solver).
  destruct (emplace_ok (k_ r) store1 q f) as (Hit & Hel & Hso & _).
  { intros g n Hn. destruct (Hnodes1 g n Hn). done. }
  { apply stamps_apart_insert; [apply Hwf|done]. }
  { intros g [Hg Hne]%Hq. subst store1. rewrite lookup_insert_ne by done.
    by apply wf_queue_tracked. }
  { exists n'. subst store1. by rewrite lookup_insert_eq. }
  { done. }
  { eapply sorted_transfer; [|exact Hs]. intros a Ha. subst store1.
    rewrite deref_insert_ne; [done|]. intros ->. done. }
  fold res in Hit, Hel, Hso. rewrite Hit. subst store1.
  rewrite insert_insert_eq.
  split; simpl; unfold evictable, tracked, queue_lt; simpl.
  - apply Hwf.
  - done.
  - intros g n [[<- <-]|[? Hn]]%lookup_insert_Some.
    + by destruct Hok'.
    + apply Hnodes1. by rewrite lookup_insert_ne.
  - apply stamps_apart_insert; [apply Hwf|done].
  - eapply sorted_transfer; [|exact Hso]. intros a Ha.
    destruct (decide (a = f)) as [->|?];
      [by rewrite !deref_insert_eq|by rewrite !deref_insert_ne].
  - intros z. rewrite Hel. split.
    + intros [->|[Hz Hne]%Hq].
      * eexists. by rewrite lookup_insert_eq.
      * apply (wf_queue r Hwf) in Hz as (m & Hm & Hem). exists m.
        by rewrite lookup_insert_ne.
    + intros (m & [[<- <-]|[? Hm]]%lookup_insert_Some & Hem); [by left|].
      right. apply Hq. split; [|done]. apply (wf_queue r Hwf). by exists m.
  - intros g m [[[<- <-]|[? Hm]]%lookup_insert_Some Hem]; [done|].
    by apply (wf_iter r Hwf).
Qed.

(** The other general step: the node of [f] is replaced by a node that is
    not evictable (or dropped), and [f] is not queued afterwards. *)
Lemma wf_unqueue r f (o : option LRUKNode) q now es :
  wf r →
  0 ≤ now < 2 ^ 64 → current_timestamp_ r ≤ now →
  (∀ n', o = Some n' → node_ok (k_ r) now f n' ∧ is_evictable_ n' = false ∧
     ∀ t g m, t ∈ history_ n' → g ≠ f → node_store_ r !! g = Some m →
       t ∉ history_ m) →
  StronglySorted (queue_lt r) q →
  (∀ z, z ∈ q ↔ z ∈ evict_queue_ r ∧ z ≠ f) →
  wf (mkReplacer (match o with
                  | Some n' => <[f:=n']> (node_store_ r)
                  | None => delete f (node_store_ r)
                  end) q now (max_size_ r) es (k_ r)).
Proof.
  intros Hwf Hnow Hmono Ho Hs Hq.
  assert (Hold : ∀ g n, node_store_ r !! g = Some n → node_ok (k_ r) now g n).
  { intros g n Hn. destruct (wf_nodes r Hwf g n Hn) as [? ? ? Hst].
    split; [done..|]. eapply Forall_impl; [exact Hst|]. simpl. intros; lia. }
  split; simpl; unfold evictable, tracked, queue_lt; simpl.
  - apply Hwf.
  - done.
  - intros g n. destruct o as [n'|].
    + intros [[<- <-]|[? Hn]]%lookup_insert_Some; [by apply Ho|by apply Hold].
    + intros [? Hn]%lookup_delete_Some. by apply Hold.
  - destruct o as [n'|].
    + apply stamps_apart_insert; [apply Hwf|]. by apply Ho.
    + intros a b n m t Hab [? Ha]%lookup_delete_Some [? Hb]%lookup_delete_Some.
      by apply (wf_stamps_apart r Hwf a b).
  - eapply sorted_transfer; [|exact Hs]. intros a [Ha Hne]%Hq.
    destruct o; [by rewrite deref_insert_ne|by rewrite deref_delete_ne].
  - intros z. rewrite Hq. split.
    + intros [Hz Hne]. apply (wf_queue r Hwf) in Hz as (m & Hm & Hem).
      exists m. split; [|done].
      destruct o; [by rewrite lookup_insert_ne|by rewrite lookup_delete_ne].
    + intros (m & Hm & Hem). destruct o as [n'|].
      * apply lookup_insert_Some in Hm as [[<- <-]|[? Hm]].
        { destruct (Ho n' eq_refl) as (_ & Hne & _). congruence. }
        split; [|done]. apply (wf_queue r Hwf). by exists m.
      * apply lookup_delete_Some in Hm as [? Hm].
        split; [|done]. apply (wf_queue r Hwf). by exists m.
  - intros g m [Hm Hem]. destruct o as [n'|].
    + apply lookup_insert_Some in Hm as [[<- <-]|[? Hm]].
      { destruct (Ho n' eq_refl) as (_ & Hne & _). congruence. }
      by apply (wf_iter r Hwf).
    + apply lookup_delete_Some in Hm as [? Hm]. by apply (wf_iter r Hwf).
Qed.

(** ** Recording an access in a history *)

Lemma push_access_take k ts h :
  push_access k ts h =
    if k <? Z.of_nat (S (length h)) then take (length h) (ts :: h) else ts :: h.
Proof.
  unfold push_access. cbn [length]. destruct (_ <? _); [|done].
  by rewrite removelast_firstn_len.
Qed.

Lemma elem_of_push_access k ts h t :
  t ∈ push_access k ts h → t = ts ∨ t ∈ h.
Proof.
  rewrite push_access_take. destruct (_ <? _).
  - intros Ht%subseteq_take. set_solver.
  - set_solver.
Qed.

Lemma push_access_length k ts h :
  1 ≤ k → Z.of_nat (length h) ≤ k →
  1 ≤ Z.of_nat (length (push_access k ts h)) ≤ k.
Proof.
  intros Hk Hh. rewrite push_access_take.
  destruct (Z.ltb_spec k (Z.of_nat (S (length h)))).
  - rewrite length_take. cbn [length]. lia.
  - cbn [length]. lia.
Qed.

Lemma push_access_head k ts h :
  1 ≤ k → head (push_access k ts h) = Some ts.
Proof.
  intros Hk. rewrite push_access_take.
  destruct (Z.ltb_spec k (Z.of_nat (S (length h)))); [|done].
  destruct h; [simpl in *; lia|done].
Qed.

Lemma push_access_node_ok r f n ts :
  wf r → tracked r f n → ts = current_timestamp_ r + 1 →
  node_ok (k_ r) ts f (set_history (push_access (k_ r) ts (history_ n)) n).
Proof.
  intros Hwf Hn ->. destruct (wf_nodes r Hwf f n Hn) as [Hfid Hne Hsz Hst].
  pose proof (wf_k r Hwf) as Hk. pose proof (wf_clock r Hwf) as Hc.
  pose proof (push_access_length (k_ r) (current_timestamp_ r + 1) (history_ n)
                Hk Hsz) as Hlen.
  split; simpl.
  - done.
  - intros Heq. rewrite Heq in Hlen. simpl in Hlen. lia.
  - unfold hsize. simpl. lia.
  - apply Forall_forall. intros t [->|Ht]%elem_of_push_access; [lia|].
    eapply Forall_forall in Hst; [|done]. simpl in Hst. lia.
Qed.

Lemma push_access_fresh r f n ts t g m :
  wf r → tracked r f n → ts = current_timestamp_ r + 1 →
  t ∈ push_access (k_ r) ts (history_ n) → g ≠ f →
  node_store_ r !! g = Some m → t ∉ history_ m.
Proof.
  intros Hwf Hn -> [->|Ht]%elem_of_push_access Hg Hm.
  - intros Hin. destruct (wf_nodes r Hwf g m Hm) as [_ _ _ Hst].
    eapply Forall_forall in Hst; [|done]. simpl in Hst. lia.
  - by apply (wf_stamps_apart r Hwf f g n m).
Qed.

Lemma wf_queue_erase r f :
  wf r →
  StronglySorted (queue_lt r) (set_erase f (evict_queue_ r)) ∧
  ∀ z, z ∈ set_erase f (evict_queue_ r) ↔ z ∈ evict_queue_ r ∧ z ≠ f.
Proof.
  intros Hwf. split.
  - apply set_erase_sorted, Hwf.
  - intros z. apply elem_of_set_erase. by apply wf_queue_NoDup.
Qed.

Lemma wf_queue_keep r f :
  wf r → f ∉ evict_queue_ r →
  ∀ z, z ∈ evict_queue_ r ↔ z ∈ evict_queue_ r ∧ z ≠ f.
Proof. intros Hwf Hf z. split; [|naive_solver]. intros Hz. split; [done|]. by intros ->. Qed.

Lemma wf_RecordAccess f r :
  wf r → current_timestamp_ r + 1 < 2 ^ 64 → wf (RecordAccess f r).2.
Proof.
  intros Hwf Hroom. pose proof (wf_clock r Hwf) as Hc.
  assert (Hts : size_t_wrap (current_timestamp_ r + 1) = current_timestamp_ r + 1).
  { unfold size_t_wrap. apply Z.mod_small. lia. }
  unfold RecordAccess. rewrite Hts.
  destruct (node_store_ r !! f) as [node|] eqn:Hn.
  - destruct (is_evictable_ node) eqn:He.
    + rewrite (wf_iter r Hwf f node) by done.
      destruct (wf_queue_erase r f Hwf) as [Hs Hq].
      pose proof (wf_requeue r f
        (set_history (push_access (k_ r) (current_timestamp_ r + 1)
                        (history_ node)) node)
        (set_erase f (evict_queue_ r)) (current_timestamp_ r + 1)
        (evictable_size_ r) Hwf) as H.
      simpl in H. destruct (set_emplace _ _ _) as [q' it]. simpl in *.
      apply H; [lia|lia|by apply push_access_node_ok|done| |done|done].
      intros t g m. by apply push_access_fresh.
    + pose proof (wf_unqueue r f
        (Some (set_history (push_access (k_ r) (current_timestamp_ r + 1)
                        (history_ node)) node))
        (evict_queue_ r) (current_timestamp_ r + 1)
        (evictable_size_ r) Hwf) as H.
      simpl in *. apply H; [lia|lia| |apply Hwf|].
      * intros n' [= <-]. split_and!; [by apply push_access_node_ok|done|].
        intros t g m. by apply push_access_fresh.
      * apply wf_queue_keep; [done|]. by eapply wf_not_queued.
  - destruct (_ <? _).
    + pose proof (wf_requeue r f
        (mkNode [current_timestamp_ r + 1] f true 0)
        (evict_queue_ r) (current_timestamp_ r + 1)
        (size_t_wrap (evictable_size_ r + 1)) Hwf) as H.
      simpl in H. destruct (set_emplace _ _ _) as [q' it]. simpl in *.
      apply H; [lia|lia| |done| |apply Hwf|].
      * split; simpl; [done|done|unfold hsize; simpl; pose proof (wf_k r Hwf); lia|].
        repeat constructor; lia.
      * intros t g m ->%list_elem_of_singleton Hg Hm Hin.
        destruct (wf_nodes r Hwf g m Hm) as [_ _ _ Hst].
        eapply Forall_forall in Hst; [|done]. simpl in Hst. lia.
      * apply wf_queue_keep; [done|]. by apply wf_untracked_not_queued.
    + pose proof (wf_unqueue r f None (evict_queue_ r)
        (current_timestamp_ r + 1) (evictable_size_ r) Hwf) as H.
      simpl in *. rewrite delete_id in H by done.
      apply H; [lia|lia|done|apply Hwf|].
      apply wf_queue_keep; [done|]. by apply wf_untracked_not_queued.
Qed.

Lemma wf_SetEvictable f b r : wf r → wf (SetEvictable f b r).2.
Proof.
  intros Hwf. pose proof (wf_clock r Hwf) as Hc. unfold SetEvictable.
  destruct (node_store_ r !! f) as [node|] eqn:Hn; [|done].
  destruct (is_evictable_ node) eqn:He, b; simpl; try done.
  - rewrite (wf_iter r Hwf f node) by done.
    destruct (wf_queue_erase r f Hwf) as [Hs Hq].
    pose proof (wf_unqueue r f (Some (set_evictable_flag false node))
        (set_erase f (evict_queue_ r)) (current_timestamp_ r)
        (size_t_wrap (evictable_size_ r - 1)) Hwf) as H.
    simpl in *. apply H; [lia|lia| |done|done].
    intros n' [= <-]. split_and!; [|done|].
    + destruct (wf_nodes r Hwf f node Hn). by split.
    + intros t g m Ht Hg Hm. by apply (wf_stamps_apart r Hwf f g node m).
  - pose proof (wf_requeue r f (set_evictable_flag true node)
        (evict_queue_ r) (current_timestamp_ r)
        (size_t_wrap (evictable_size_ r + 1)) Hwf) as H.
    simpl in H. destruct (set_emplace _ _ _) as [q' it]. simpl in *.
    apply H; [lia|lia| |done| |apply Hwf|].
    + destruct (wf_nodes r Hwf f node Hn). by split.
    + intros t g m Ht Hg Hm. by apply (wf_stamps_apart r Hwf f g node m).
    + apply wf_queue_keep; [done|]. by eapply wf_not_queued.
Qed.

Lemma wf_Remove f r : wf r → wf (Remove f r).2.
Proof.
  intros Hwf. pose proof (wf_clock r Hwf) as Hc. unfold Remove.
  destruct (node_store_ r !! f) as [node|] eqn:Hn; [|done].
  destruct (is_evictable_ node) eqn:He; [|done].
  rewrite (wf_iter r Hwf f node) by done.
  destruct (wf_queue_erase r f Hwf) as [Hs Hq].
  pose proof (wf_unqueue r f None
      (set_erase f (evict_queue_ r)) (current_timestamp_ r)
      (size_t_wrap (evictable_size_ r - 1)) Hwf) as H.
  simpl in *. apply H; [lia|lia|done|done|done].
Qed.

Lemma wf_step r r' : wf r → step r r' → wf r'.
Proof.
  intros Hwf Hstep. destruct Hstep as [f r Hroom|f b r|r|f r].
  - by apply wf_RecordAccess.
  - by apply wf_SetEvictable.
  - by apply wf_Evict.
  - by apply wf_Remove.
Qed.

Lemma wf_reachable num_frames k r :
  1 ≤ k → reachable num_frames k r → wf r.
Proof.
  intros Hk Hr. unfold reachable in Hr.
  assert (Hinit : wf (create num_frames k)) by by apply wf_create.
  induction Hr as [|x y z Hxy Hyz IH]; [done|].
  apply IH. by eapply wf_step.
Qed.

Lemma reachable_step num_frames k r r' :
  reachable num_frames k r → step r r' → reachable num_frames k r'.
Proof. intros Hr Hs. by eapply rtc_r. Qed.

Lemma reachable_create num_frames k : reachable num_frames k (create num_frames k).
Proof. apply rtc_refl. Qed.

Lemma demo_reachable : reachable 3 2 demo.
Proof.
  unfold demo.
  repeat (eapply reachable_step;
          [|apply step_RecordAccess; vm_compute; reflexivity]).
  apply reachable_create.
Qed.

Example demo_queue : evict_queue_ demo = [3; 1; 2].
Proof. reflexivity. Qed.

Example demo_Evict : (Evict demo).1 = Some 3.
Proof. reflexivity. Qed.

Example demo_full : (RecordAccess 7 demo).1 = Thrown.
Proof. reflexivity. Qed.

(** ** Eviction *)

(** C4.  In every state the replacer can reach (K at least 1), [Evict]
    returns false exactly when no node is evictable, and returns true
    whenever one is.  The frame it returns is an evictable node of greatest
    backward K-distance: if the chosen node has K stamps then so has every
    evictable node (a node with fewer than K is taken before all nodes with
    K), and among the nodes of its own class (exactly K stamps, or fewer
    than K) it has the strictly smallest oldest retained stamp.  The chosen
    node leaves both the node table and the ordered queue, and nothing else
    does. *)
Theorem Evict_greatest_backward_k_distance num_frames k r :
  1 ≤ k → reachable num_frames k r →
  ((Evict r).1 = None ↔ ¬ ∃ f n, evictable r f n) ∧
  ((∃ f n, evictable r f n) → ∃ f, (Evict r).1 = Some f) ∧
  ∀ f, (Evict r).1 = Some f →
    ∃ n, evictable r f n ∧
      (∀ g m, evictable r g m → g ≠ f →
         (hsize n = k_ r → hsize m = k_ r) ∧
         (hsize n = k_ r → hsize m = k_ r → hback n < hback m) ∧
         (hsize n < k_ r → hsize m < k_ r → hback n < hback m)) ∧
      node_store_ (Evict r).2 = delete f (node_store_ r) ∧
      (∀ g, g ∈ evict_queue_ (Evict r).2 ↔ g ∈ evict_queue_ r ∧ g ≠ f).
Proof.
  intros Hk Hr. pose proof (wf_reachable _ _ _ Hk Hr) as Hwf.
  assert (Hnone : (Evict r).1 = None ↔ ¬ ∃ f n, evictable r f n).
  { unfold Evict. destruct (evict_queue_ r) as [|p q] eqn:Hq; simpl.
    - split; [|done]. intros _ (f & n & He).
      assert (f ∈ evict_queue_ r) as Hin by (apply (wf_queue r Hwf); by exists n).
      rewrite Hq in Hin. by apply elem_of_nil in Hin.
    - split; [done|]. intros Hno. exfalso. apply Hno.
      destruct (wf_head_evictable r p q Hwf Hq) as (n & He & _). by exists p, n. }
  split_and!; [done| |].
  - intros Hex. destruct (Evict r).1 as [f|] eqn:He; [by exists f|].
    destruct (proj1 Hnone eq_refl Hex).
  - intros f Hf. unfold Evict in *.
    destruct (evict_queue_ r) as [|p q] eqn:Hq; [done|].
    destruct (wf_head_evictable r p q Hwf Hq) as (n & [Hn He] & Hfid).
    simpl in *. rewrite Hfid in *. injection Hf as <-.
    pose proof (wf_queue_NoDup r Hwf) as Hnd. rewrite Hq in Hnd.
    apply NoDup_cons in Hnd as [Hpq Hnd].
    pose proof (wf_sorted r Hwf) as Hs. rewrite Hq in Hs.
    apply StronglySorted_cons in Hs as [Hall _].
    exists n. split_and!; [done| |done|].
    + intros g m [Hm Hem] Hne.
      assert (g ∈ q) as Hg.
      { assert (g ∈ evict_queue_ r) as Hin
          by (apply (wf_queue r Hwf); by exists m).
        rewrite Hq in Hin. set_solver. }
      eapply Forall_forall in Hall; [|done]. unfold queue_lt, node_lt in Hall.
      rewrite (deref_lookup _ _ _ Hn), (deref_lookup _ _ _ Hm) in Hall.
      destruct (wf_node_bounds r p n Hwf Hn), (wf_node_bounds r g m Hwf Hm).
      apply Comparator_spec in Hall; [|done..]. lia.
    + intros g. split; [intros Hg; split; [set_solver|by intros ->]|set_solver].
Qed.

Lemma Evict_greatest_backward_k_distance_witness :
  ((Evict demo).1 = None ↔ ¬ ∃ f n, evictable demo f n) ∧
  ((∃ f n, evictable demo f n) → ∃ f, (Evict demo).1 = Some f) ∧
  ∀ f, (Evict demo).1 = Some f →
    ∃ n, evictable demo f n ∧
      (∀ g m, evictable demo g m → g ≠ f →
         (hsize n = k_ demo → hsize m = k_ demo) ∧
         (hsize n = k_ demo → hsize m = k_ demo → hback n < hback m) ∧
         (hsize n < k_ demo → hsize m < k_ demo → hback n < hback m)) ∧
      node_store_ (Evict demo).2 = delete f (node_store_ demo) ∧
      (∀ g, g ∈ evict_queue_ (Evict demo).2 ↔ g ∈ evict_queue_ demo ∧ g ≠ f).
Proof.
  apply (Evict_greatest_backward_k_distance 3 2 demo); [lia|apply demo_reachable].
Defined.

(** ** Recording an access *)

(** C8.  In every reachable state whose 64-bit clock has not run out,
    [RecordAccess f] advances the clock by one.  If [f] has a node, the call
    returns, the new stamp becomes the front of that node's history and the
    history is cut to its first K entries; the evictable flag and all other
    nodes are untouched.  If [f] has no node and fewer than [max_size_] nodes
    are stored, the call returns and [f] gets a node that is evictable,
    queued, and whose history is the new stamp alone.  If [f] has no node and
    the table is full, the call throws and leaves node table and queue as
    they were. *)
Theorem RecordAccess_spec num_frames k f r :
  1 ≤ k → reachable num_frames k r → current_timestamp_ r + 1 < 2 ^ 64 →
  let ts := current_timestamp_ r + 1 in
  let r' := (RecordAccess f r).2 in
  current_timestamp_ r' = ts ∧
  (∀ g, g ≠ f → node_store_ r' !! g = node_store_ r !! g) ∧
  match node_store_ r !! f with
  | Some n =>
      (RecordAccess f r).1 = Returned tt ∧
      ∃ n', node_store_ r' !! f = Some n' ∧
        history_ n' = take (Z.to_nat (k_ r)) (ts :: history_ n) ∧
        head (history_ n') = Some ts ∧
        hsize n' ≤ k_ r ∧
        is_evictable_ n' = is_evictable_ n
  | None =>
      if decide (Z.of_nat (size (node_store_ r)) < max_size_ r) then
        (RecordAccess f r).1 = Returned tt ∧
        ∃ n', node_store_ r' !! f = Some n' ∧
          history_ n' = [ts] ∧ is_evictable_ n' = true ∧
          f ∈ evict_queue_ r'
      else
        (RecordAccess f r).1 = Thrown ∧
        node_store_ r' = node_store_ r ∧
        evict_queue_ r' = evict_queue_ r
  end.
Proof.
  intros Hk Hr Hroom ts r'.
  pose proof (wf_reachable _ _ _ Hk Hr) as Hwf.
  pose proof (wf_RecordAccess f r Hwf Hroom) as Hwf'. fold r' in Hwf'.
  pose proof (wf_clock r Hwf) as Hc. pose proof (wf_k r Hwf) as Hkr.
  assert (Hts : size_t_wrap (current_timestamp_ r + 1) = ts).
  { unfold size_t_wrap. apply Z.mod_small. lia. }
  assert (Hcut : ∀ n, tracked r f n →
            push_access (k_ r) ts (history_ n) =
              take (Z.to_nat (k_ r)) (ts :: history_ n)).
  { intros n Hn. destruct (wf_node_bounds r f n Hwf Hn) as [Hsz _].
    unfold hsize in Hsz. rewrite push_access_take.
    destruct (Z.ltb_spec (k_ r) (Z.of_nat (S (length (history_ n))))).
    - f_equal. lia.
    - rewrite take_ge; [done|]. cbn [length]. lia. }
  subst r'. unfold RecordAccess in *. rewrite Hts in *.
  destruct (node_store_ r !! f) as [n|] eqn:Hn.
  - destruct (is_evictable_ n) eqn:He.
    + destruct (set_emplace _ _ _) as [q' it]. simpl in *.
      split_and!; [done|by intros; rewrite !lookup_insert_ne|done|].
      eexists. rewrite lookup_insert_eq. split; [done|]. simpl.
      rewrite <- (Hcut n Hn).
      split_and!; [done|by apply push_access_head| |done].
      apply (push_access_length (k_ r) ts (history_ n)); [done|].
      by apply (wf_node_bounds r f n).
    + simpl in *.
      split_and!; [done|by intros; rewrite !lookup_insert_ne|done|].
      eexists. rewrite lookup_insert_eq. split; [done|]. simpl.
      rewrite <- (Hcut n Hn).
      split_and!; [done|by apply push_access_head| |done].
      apply (push_access_length (k_ r) ts (history_ n)); [done|].
      by apply (wf_node_bounds r f n).
  - destruct (Z.ltb_spec (Z.of_nat (size (node_store_ r))) (max_size_ r));
      case_decide; try lia.
    + destruct (set_emplace _ _ _) as [q' it] eqn:Hem. simpl in *.
      split_and!; [done|by intros; rewrite !lookup_insert_ne|done|].
      eexists. rewrite lookup_insert_eq. split_and!; [done..|].
      apply (wf_queue _ Hwf'). eexists. split; [apply lookup_insert_eq|done].
    + simpl. done.
Qed.

Lemma RecordAccess_spec_witness :
  current_timestamp_ (RecordAccess 1 demo).2 = 6 ∧
  (∀ g, g ≠ 1 → node_store_ (RecordAccess 1 demo).2 !! g = node_store_ demo !! g) ∧
  (RecordAccess 1 demo).1 = Returned tt ∧
  ∃ n', node_store_ (RecordAccess 1 demo).2 !! 1 = Some n' ∧
    history_ n' = [6; 4] ∧
    head (history_ n') = Some 6 ∧
    hsize n' ≤ 2 ∧
    is_evictable_ n' = true.
Proof.
  apply (RecordAccess_spec 3 2 1 demo);
    [lia|apply demo_reachable|vm_compute; reflexivity].
Defined.

(** ** Which frames are tracked after a call *)

Lemma RecordAccess_tracked f r :
  is_Some (node_store_ r !! f) →
  (RecordAccess f r).1 = Returned tt ∧
  ∀ g, is_Some (node_store_ (RecordAccess f r).2 !! g) ↔
       is_Some (node_store_ r !! g).
Proof.
  intros [n Hn]. unfold RecordAccess. rewrite Hn.
  destruct (is_evictable_ n).
  - destruct (set_emplace _ _ _) as [q' it]. simpl. split; [done|].
    intros g. rewrite !lookup_insert_is_Some'. naive_solver.
  - simpl. split; [done|].
    intros g. rewrite !lookup_insert_is_Some'. naive_solver.
Qed.

Lemma RecordAccess_new f r :
  node_store_ r !! f = None →
  Z.of_nat (size (node_store_ r)) < max_size_ r →
  (RecordAccess f r).1 = Returned tt ∧
  ∀ g, is_Some (node_store_ (RecordAccess f r).2 !! g) ↔
       g = f ∨ is_Some (node_store_ r !! g).
Proof.
  intros Hn Hroom. unfold RecordAccess. rewrite Hn.
  destruct (Z.ltb_spec (Z.of_nat (size (node_store_ r))) (max_size_ r)); [|lia].
  destruct (set_emplace _ _ _) as [q' it]. simpl. split; [done|].
  intros g. rewrite !lookup_insert_is_Some'. naive_solver.
Qed.

Lemma RecordAccess_max_size f r :
  max_size_ (RecordAccess f r).2 = max_size_ r.
Proof.
  unfold RecordAccess. destruct (node_store_ r !! f) as [n|].
  - destruct (is_evictable_ n); [|done]. by destruct (set_emplace _ _ _).
  - destruct (_ <? _); [|done]. by destruct (set_emplace _ _ _).
Qed.

Lemma SetEvictable_tracked f b r :
  is_Some (node_store_ r !! f) →
  (SetEvictable f b r).1 = Returned tt ∧
  (∀ g, is_Some (node_store_ (SetEvictable f b r).2 !! g) ↔
        is_Some (node_store_ r !! g)) ∧
  (is_evictable_ <$> node_store_ (SetEvictable f b r).2 !! f) = Some b.
Proof.
  intros [n Hn]. unfold SetEvictable. rewrite Hn.
  destruct (is_evictable_ n) eqn:He, b; simpl.
  - split_and!; [done..|]. by rewrite Hn; simpl; rewrite He.
  - split_and!; [done| |by rewrite lookup_insert_eq].
    intros g. rewrite !lookup_insert_is_Some'. naive_solver.
  - destruct (set_emplace _ _ _) as [q' it]. simpl.
    split_and!; [done| |by rewrite lookup_insert_eq].
    intros g. rewrite !lookup_insert_is_Some'. naive_solver.
  - split_and!; [done..|]. by rewrite Hn; simpl; rewrite He.
Qed.

Lemma SetEvictable_max_size f b r :
  max_size_ (SetEvictable f b r).2 = max_size_ r ∧
  current_timestamp_ (SetEvictable f b r).2 = current_timestamp_ r.
Proof.
  unfold SetEvictable. destruct (node_store_ r !! f) as [n|]; [|done].
  destruct (negb _); [|done]. destruct b; [|done].
  by destruct (set_emplace _ _ _).
Qed.

Lemma Remove_spec f r :
  max_size_ (Remove f r).2 = max_size_ r ∧
  match (Remove f r).1 with
  | Returned _ =>
      ∀ g, is_Some (node_store_ (Remove f r).2 !! g) ↔
           g ≠ f ∧ is_Some (node_store_ r !! g)
  | Thrown => (Remove f r).2 = r
  end.
Proof.
  unfold Remove. destruct (node_store_ r !! f) as [n|] eqn:Hn.
  - destruct (is_evictable_ n); simpl; [|done]. split; [done|].
    intros g. rewrite lookup_delete_is_Some. naive_solver.
  - simpl. split; [done|]. intros g. split; [|naive_solver].
    intros Hg. split; [|done]. intros ->. rewrite Hn in Hg. by destruct Hg.
Qed.

Lemma Evict_spec r :
  wf r →
  max_size_ (Evict r).2 = max_size_ r ∧
  current_timestamp_ (Evict r).2 = current_timestamp_ r ∧
  match (Evict r).1 with
  | Some f =>
      is_Some (node_store_ r !! f) ∧
      node_store_ (Evict r).2 = delete f (node_store_ r)
  | None => (Evict r).2 = r
  end.
Proof.
  intros Hwf. unfold Evict. destruct (evict_queue_ r) as [|p q] eqn:Hq; [done|].
  destruct (wf_head_evictable r p q Hwf Hq) as (n & [Hn He] & ->). simpl.
  split_and!; [done..|by exists n|done].
Qed.

End LRUKFacts.

(** * Facts about the buffer pool manager *)
Module BPMFacts.
Import LRUK LRUKFacts BPM.

Example pool1_new_result : (NewPage pool1).1 = Returned (Some (0, 0)).
Proof. vm_compute. reflexivity. Qed.

Example pool1_new_page :
  page_table_ pool1_new !! 0 = Some 0 ∧
  pin_count_ (page_at pool1_new 0) = 1 ∧
  is_dirty_ (page_at pool1_new 0) = false ∧
  free_list_ pool1_new = [].
Proof. vm_compute. done. Qed.

(** Scenario S2: with the only frame pinned, [NewPage] returns null. *)
Example scenario_S2 : (NewPage pool1_new).1 = Returned None.
Proof. vm_compute. reflexivity. Qed.

(** ** [FetchPage] on a miss *)

(** C1 fails on the code.  On a fresh pool of one frame, [FetchPage(0)]
    takes the miss path, obtains frame 0 from the free list and returns it,
    marked non-evictable in the replacer, but with pin count 0: line 110
    stores 0 where [NewPage] (line 74) stores 1. *)
Lemma FetchPage_miss_returns_unpinned_frame :
  page_table_ pool1 !! 0 = None ∧
  (FetchPage 0 pool1).1 = Returned (Some 0) ∧
  pin_count_ (page_at (FetchPage 0 pool1).2 0) = 0 ∧
  (is_evictable_ <$> node_store_ (replacer_ (FetchPage 0 pool1).2) !! 0)
    = Some false.
Proof. vm_compute. done. Qed.

(** ** [DeletePage] of a pinned page *)

(** C2 fails on the code.  With page 0 pinned in frame 0, [DeletePage(0)]
    returns false, but the entry of page 0 has already left the page table
    (line 165 runs before the pin test of line 169). *)
Lemma DeletePage_pinned_drops_mapping :
  page_table_ pool1_new !! 0 = Some 0 ∧
  pin_count_ (page_at pool1_new 0) = 1 ∧
  (DeletePage 0 pool1_new).1 = Returned false ∧
  page_table_ (DeletePage 0 pool1_new).2 !! 0 = None.
Proof. vm_compute. done. Qed.

(** ** Pool capacity *)

(** C3 fails on the code, by the same early erase: after [NewPage] and a
    [DeletePage] of the pinned page, frame 0 is neither in the free list nor
    in the page table. *)
Lemma capacity_broken_by_DeletePage_pinned :
  let b := run_all [CallNewPage; CallDeletePage 0] (BPM.create 1 2) in
  pool_size_ b = 1 ∧
  free_list_ b = [] ∧ page_table_ b = ∅ ∧
  Z.of_nat (length (free_list_ b)) + Z.of_nat (size (page_table_ b)) = 0.
Proof. vm_compute. done. Qed.

(** ** Reading and writing frames *)

Lemma page_at_update f g h b :
  page_at (update_page f h b) g =
    if decide (g = f ∧ in_pool b f) then h (page_at b f) else page_at b g.
Proof.
  unfold page_at, update_page, in_pool.
  destruct (decide (0 ≤ f)) as [Hf|Hf]; simpl.
  - destruct (decide (0 ≤ g)) as [Hg|Hg].
    + rewrite list_lookup_total_alter.
      repeat case_decide; try done; destruct_and?; subst; try lia; try done.
    + case_decide; [destruct_and?; lia|done].
  - destruct (decide (g = f ∧ 0 ≤ f < Z.of_nat (length (pages_ b))))
      as [[? ?]|]; [lia|done].
Qed.

Lemma page_at_update_eq f h b :
  in_pool b f → page_at (update_page f h b) f = h (page_at b f).
Proof. intros. rewrite page_at_update. by rewrite decide_True. Qed.

Lemma page_at_update_ne f g h b :
  g ≠ f → page_at (update_page f h b) g = page_at b g.
Proof. intros. rewrite page_at_update. rewrite decide_False; [done|]. naive_solver. Qed.

Lemma page_at_outside b f : ¬ in_pool b f → page_at b f = fresh_Page.
Proof.
  unfold page_at, in_pool. intros H. case_decide; [|done].
  rewrite list_lookup_total_alt, lookup_ge_None_2; [done|lia].
Qed.

Lemma update_page_outside f h b : ¬ in_pool b f → update_page f h b = b.
Proof.
  unfold update_page, in_pool. intros H. case_decide; [|done].
  destruct b as [ps pg r fl pt n d]. unfold with_pages. simpl in *. f_equal.
  apply list_eq. intros i. rewrite list_lookup_alter.
  case_decide; [|done]. subst. rewrite lookup_ge_None_2; [done|lia].
Qed.

Lemma update_page_length f h b :
  length (pages_ (update_page f h b)) = length (pages_ b).
Proof. unfold update_page. case_decide; [|done]. simpl. apply length_alter. Qed.

Lemma update_page_pool_size f h b :
  pool_size_ (update_page f h b) = pool_size_ b.
Proof. unfold update_page. by case_decide. Qed.
Lemma update_page_replacer f h b :
  replacer_ (update_page f h b) = replacer_ b.
Proof. unfold update_page. by case_decide. Qed.
Lemma update_page_free_list f h b :
  free_list_ (update_page f h b) = free_list_ b.
Proof. unfold update_page. by case_decide. Qed.
Lemma update_page_page_table f h b :
  page_table_ (update_page f h b) = page_table_ b.
Proof. unfold update_page. by case_decide. Qed.
Lemma update_page_next_page_id f h b :
  next_page_id_ (update_page f h b) = next_page_id_ b.
Proof. unfold update_page. by case_decide. Qed.
Lemma update_page_disk f h b :
  disk_ (update_page f h b) = disk_ b.
Proof. unfold update_page. by case_decide. Qed.

Lemma update_page_update_page f g h b :
  update_page f g (update_page f h b) = update_page f (g ∘ h) b.
Proof.
  unfold update_page. case_decide; [|done].
  unfold with_pages. simpl. by rewrite list_alter_alter_eq.
Qed.

Lemma update_page_ext f g h b :
  (∀ p, g p = h p) → update_page f g b = update_page f h b.
Proof.
  intros E. unfold update_page. case_decide; [|done]. unfold with_pages.
  f_equal. by apply list_alter_ext.
Qed.

(** ** [FlushPage] *)

(** A resident page that is clean: [FlushPage] returns true and schedules
    nothing; the disk holds no copy of page 0 afterwards. *)
Lemma FlushPage_clean_page_not_written :
  page_table_ pool1_new !! 0 = Some 0 ∧
  is_dirty_ (page_at pool1_new 0) = false ∧
  FlushPage 0 pool1_new = (Returned true, pool1_new) ∧
  disk_log (disk_ (FlushPage 0 pool1_new).2) = [] ∧
  disk_pages (disk_ (FlushPage 0 pool1_new).2) !! 0 = None.
Proof. split_and!; vm_compute; reflexivity. Qed.

Lemma FlushFrame_spec f b :
  (FlushFrame f b).1 = Returned tt ∧
  (FlushFrame f b).2 =
    if is_dirty_ (page_at b f)
    then with_disk (disk_write (data_ (page_at b f)) (page_id_ (page_at b f))
                      (disk_ b))
           (update_page f (set_is_dirty false) b)
    else b.
Proof.
  unfold FlushFrame, bind, gets, modify, ret. simpl.
  destruct (is_dirty_ (page_at b f)); simpl; [|done].
  split; [done|]. unfold update_page. by case_decide.
Qed.

(** C5, as the code has it.  For a resident page, [FlushPage] returns true
    and leaves the frame clean; the frame's bytes are written to disk, under
    the frame's page id, exactly when the frame was dirty, and the disk is
    not touched otherwise.  The frame keeps its bytes, page id and pin count;
    all other frames, the replacer, the free list, the page table and the id
    counter are unchanged.  The pin count plays no role: with any other pin
    count in the frame the call does the same.  For a page that is not
    resident the call returns false and changes nothing. *)
Theorem FlushPage_spec b page_id :
  (∀ f, page_table_ b !! page_id = Some f →
     let page := page_at b f in
     let b' := (FlushPage page_id b).2 in
     (FlushPage page_id b).1 = Returned true ∧
     is_dirty_ (page_at b' f) = false ∧
     (if is_dirty_ page
      then disk_ b' = disk_write (data_ page) (page_id_ page) (disk_ b) ∧
           disk_pages (disk_ b') !! page_id_ page = Some (data_ page) ∧
           disk_log (disk_ b') =
             disk_log (disk_ b) ++ [mkRequest true (page_id_ page)]
      else disk_ b' = disk_ b) ∧
     data_ (page_at b' f) = data_ page ∧
     page_id_ (page_at b' f) = page_id_ page ∧
     pin_count_ (page_at b' f) = pin_count_ page ∧
     (∀ g, g ≠ f → page_at b' g = page_at b g) ∧
     length (pages_ b') = length (pages_ b) ∧
     pool_size_ b' = pool_size_ b ∧ replacer_ b' = replacer_ b ∧
     free_list_ b' = free_list_ b ∧ page_table_ b' = page_table_ b ∧
     next_page_id_ b' = next_page_id_ b ∧
     ∀ c, FlushPage page_id (update_page f (set_pin_count c) b)
          = (Returned true, update_page f (set_pin_count c) b')) ∧
  (page_table_ b !! page_id = None →
     FlushPage page_id b = (Returned false, b)).
Proof.
  split.
  - intros f Hf page b'. subst b'.
    assert (HF : ∀ b0, page_table_ b0 !! page_id = Some f →
              FlushPage page_id b0 = (Returned true, (FlushFrame f b0).2)).
    { intros b0 H0. unfold FlushPage, bind, gets, ret. simpl. rewrite H0.
      destruct (FlushFrame_spec f b0) as [H1 _].
      destruct (FlushFrame f b0) as [o b1]. simpl in *. by subst o. }
    rewrite (HF b Hf). cbn [fst snd].
    destruct (FlushFrame_spec f b) as [_ ->]. fold page.
    split; [done|].
    assert (Hpin : ∀ c, FlushPage page_id (update_page f (set_pin_count c) b) =
              (Returned true,
               update_page f (set_pin_count c)
                 (if is_dirty_ page
                  then with_disk (disk_write (data_ page) (page_id_ page) (disk_ b))
                         (update_page f (set_is_dirty false) b)
                  else b))).
    { intros c. rewrite HF.
      2:{ unfold update_page. by case_decide. }
      destruct (FlushFrame_spec f (update_page f (set_pin_count c) b)) as [_ ->].
      f_equal. destruct (decide (in_pool b f)) as [Hin|Hout].
      - rewrite page_at_update_eq by done. fold page. simpl.
        destruct (is_dirty_ page); [|done].
        rewrite update_page_update_page.
        unfold update_page, with_disk, with_pages. case_decide; [|done].
        simpl. f_equal. by rewrite list_alter_alter_eq.
      - rewrite !update_page_outside by done.
        subst page. rewrite page_at_outside by done. simpl.
        by rewrite update_page_outside. }
    destruct (is_dirty_ page) eqn:Hd; [|by split_and!].
    assert (in_pool b f) as Hin.
    { destruct (decide (in_pool b f)) as [|Hout]; [done|].
      subst page. by rewrite page_at_outside in Hd. }
    split_and!; try done.
    + change (page_at (with_disk ?d ?b0) f) with (page_at b0 f).
      by rewrite page_at_update_eq.
    + apply lookup_insert_eq.
    + change (page_at (with_disk ?d ?b0) f) with (page_at b0 f).
      by rewrite page_at_update_eq.
    + change (page_at (with_disk ?d ?b0) f) with (page_at b0 f).
      by rewrite page_at_update_eq.
    + change (page_at (with_disk ?d ?b0) f) with (page_at b0 f).
      by rewrite page_at_update_eq.
    + intros g Hg. change (page_at (with_disk ?d ?b0) g) with (page_at b0 g).
      by rewrite page_at_update_ne.
    + apply update_page_length.
    + apply update_page_pool_size.
    + apply update_page_replacer.
    + apply update_page_free_list.
    + apply update_page_page_table.
    + apply update_page_next_page_id.
  - intros Hn. unfold FlushPage, bind, gets, ret. simpl. by rewrite Hn.
Qed.

Lemma FlushPage_spec_witness :
  (FlushPage 0 pool1_dirty).1 = Returned true ∧
  is_dirty_ (page_at (FlushPage 0 pool1_dirty).2 0) = false ∧
  disk_pages (disk_ (FlushPage 0 pool1_dirty).2) !! 0 = Some zero_page.
Proof.
  assert (page_table_ pool1_dirty !! 0 = Some 0) as H
    by (vm_compute; reflexivity).
  destruct (proj1 (FlushPage_spec pool1_dirty 0) 0 H)
    as (H1 & H2 & H3 & _).
  split_and!; [exact H1|exact H2|].
  assert (is_dirty_ (page_at pool1_dirty 0) = true) as Hd
    by (vm_compute; reflexivity).
  rewrite Hd in H3. destruct H3 as (_ & H3 & _).
  assert (page_id_ (page_at pool1_dirty 0) = 0) as Hp
    by (vm_compute; reflexivity).
  assert (data_ (page_at pool1_dirty 0) = zero_page) as Hz
    by (vm_compute; reflexivity).
  by rewrite Hp, Hz in H3.
Defined.

(** ** The invariant of the pool *)

Lemma tracked_bound (store : gmap Z LRUKNode) (fl : list Z) (n : Z) :
  0 ≤ n → NoDup fl →
  (∀ g, g ∈ fl → 0 ≤ g < n) →
  (∀ g, is_Some (store !! g) → 0 ≤ g < n ∧ g ∉ fl) →
  Z.of_nat (size store) + Z.of_nat (length fl) ≤ n.
Proof.
  intros Hn Hnd Hfl Hst.
  assert (dom store ∪ list_to_set fl ⊆@{gset Z} list_to_set (seqZ 0 n)) as Hsub.
  { intros g [Hg|Hg]%elem_of_union; apply elem_of_list_to_set, elem_of_seqZ.
    - apply elem_of_dom in Hg. destruct (Hst g Hg). lia.
    - apply elem_of_list_to_set in Hg. specialize (Hfl g Hg). lia. }
  apply subseteq_size in Hsub. rewrite size_union in Hsub.
  2:{ intros g Hg1 Hg2. apply elem_of_dom in Hg1.
      apply elem_of_list_to_set in Hg2. by destruct (Hst g Hg1). }
  rewrite size_dom, !size_list_to_set, length_seqZ in Hsub;
    [lia|apply NoDup_seqZ|done].
Qed.

Lemma inv_create pool_size replacer_k :
  1 ≤ replacer_k → inv (BPM.create pool_size replacer_k).
Proof.
  intros Hk. split; simpl.
  - by apply wf_create.
  - by rewrite length_replicate.
  - done.
  - apply NoDup_fmap_2; [apply Nat2Z.inj'|apply NoDup_seq].
  - intros f (i & -> & Hi%elem_of_seq)%list_elem_of_fmap. lia.
  - intros f [n Hn]. by rewrite lookup_empty in Hn.
  - intros pid f Hf. by rewrite lookup_empty in Hf.
Qed.

(** The invariant only looks at the replacer, the free list, the page
    table, the number of frames and the page ids stored in the frames. *)
Lemma inv_same b b' :
  inv b →
  pool_size_ b' = pool_size_ b →
  length (pages_ b') = length (pages_ b) →
  replacer_ b' = replacer_ b →
  free_list_ b' = free_list_ b →
  page_table_ b' = page_table_ b →
  (∀ g, page_id_ (page_at b' g) = page_id_ (page_at b g)) →
  inv b'.
Proof.
  intros [H1 H2 H3 H4 H5 H6 H7] Eps Epg Er Efl Ept Eid.
  split; rewrite ?Eps, ?Epg, ?Er, ?Efl, ?Ept; try done.
  intros pid f Hf. rewrite Eid. by apply H7.
Qed.

Lemma held_same b b' f :
  held b f →
  pool_size_ b' = pool_size_ b →
  length (pages_ b') = length (pages_ b) →
  replacer_ b' = replacer_ b →
  free_list_ b' = free_list_ b →
  page_table_ b' = page_table_ b →
  (∀ g, g ≠ f → page_id_ (page_at b' g) = page_id_ (page_at b g)) →
  held b' f.
Proof.
  intros [H1 H2 H3 H4 H5 H6 H7 H8 H9 H10] Eps Epg Er Efl Ept Eid.
  split; rewrite ?Eps, ?Epg, ?Er, ?Efl, ?Ept; try done.
  intros pid g Hg. destruct (H7 pid g Hg) as [Ht Hid]. split; [done|].
  rewrite Eid; [done|]. intros ->. rewrite H10 in Ht. by destruct Ht.
Qed.

Lemma NewPage_acquire :
  NewPage =
    (do fl ← gets free_list_;
     do got ← acquire_frame fl;
     match got with
     | None => ret None
     | Some frame_id =>
         do page_id ← AllocatePage;
         modify (λ b, with_page_table (map_emplace page_id frame_id (page_table_ b)) b);;
         modify (update_page frame_id (set_page_id page_id));;
         modify (update_page frame_id (set_pin_count 1));;
         modify (update_page frame_id ResetMemory);;
         replacer_call (RecordAccess frame_id);;
         replacer_call (SetEvictable frame_id false);;
         ret (Some (frame_id, page_id))
     end).
Proof. reflexivity. Qed.

Lemma FlushFrame_frame f b :
  (FlushFrame f b).1 = Returned tt ∧
  pool_size_ (FlushFrame f b).2 = pool_size_ b ∧
  length (pages_ (FlushFrame f b).2) = length (pages_ b) ∧
  replacer_ (FlushFrame f b).2 = replacer_ b ∧
  free_list_ (FlushFrame f b).2 = free_list_ b ∧
  page_table_ (FlushFrame f b).2 = page_table_ b ∧
  next_page_id_ (FlushFrame f b).2 = next_page_id_ b ∧
  (∀ g, page_id_ (page_at (FlushFrame f b).2 g) = page_id_ (page_at b g)) ∧
  (∀ g, pin_count_ (page_at (FlushFrame f b).2 g) = pin_count_ (page_at b g)) ∧
  (∀ g, data_ (page_at (FlushFrame f b).2 g) = data_ (page_at b g)).
Proof.
  destruct (FlushFrame_spec f b) as [H1 H2]. rewrite H2. split; [done|].
  destruct (is_dirty_ (page_at b f)); [|done].
  split_and!;
    [apply update_page_pool_size|apply update_page_length
    |apply update_page_replacer|apply update_page_free_list
    |apply update_page_page_table|apply update_page_next_page_id|..];
    intros g; change (page_at (with_disk ?d ?b0) g) with (page_at b0 g);
    rewrite page_at_update; by case_decide as Hd; [destruct Hd as [-> _]|].
Qed.

Lemma acquire_frame_spec b :
  inv b →
  match acquire_frame (free_list_ b) b with
  | (Returned (Some f), b') =>
      held b' f ∧
      current_timestamp_ (replacer_ b') = current_timestamp_ (replacer_ b)
  | (Returned None, b') => b' = b
  | (Thrown, _) => False
  end.
Proof.
  intros Hinv. unfold acquire_frame.
  case_bool_decide as Hfl; simpl.
  - (* the free list is empty: ask the replacer *)
    unfold bind, replacer_Evict.
    destruct (Evict_spec (replacer_ b) (inv_replacer b Hinv)) as (Hmax & Hclk & Hev).
    pose proof (wf_Evict (replacer_ b) (inv_replacer b Hinv)) as Hwf'.
    destruct (Evict (replacer_ b)) as [[f|] r'] eqn:HE; simpl in *.
    + destruct Hev as [Htr Hst].
      set (b1 := with_page_table _ (with_replacer r' b)).
      destruct (FlushFrame_frame f b1)
        as (Ho & Eps & Epg & Er & Efl & Ept & _ & Eid & _).
      destruct (FlushFrame f b1) as [o b2]. simpl in *. subst o. simpl.
      split; [|by rewrite Er].
      destruct Hinv as [H1 H2 H3 H4 H5 H6 H7].
      split; rewrite ?Eps, ?Epg, ?Er, ?Efl, ?Ept; subst b1; simpl; try done.
      * congruence.
      * intros g Hg. apply H6. rewrite Hst in Hg.
        apply lookup_delete_is_Some in Hg. tauto.
      * intros pid g [Hne Hg]%lookup_delete_Some.
        destruct (H7 pid g Hg) as [Ht Hid]. rewrite Eid, Hst.
        split; [|done]. apply lookup_delete_is_Some. split; [|done].
        intros ->. done.
      * by apply H6.
      * rewrite Hfl. by intros ?%elem_of_nil.
      * rewrite Hst. apply lookup_delete_eq.
    + destruct b. simpl in *. by subst r'.
  - (* a free frame: take the back of the list *)
    unfold bind, modify, ret. simpl.
    destruct Hinv as [H1 H2 H3 H4 H5 H6 H7].
    pose proof (app_removelast_last 0 Hfl) as Happ.
    fold (pop_back (free_list_ b)) in Happ.
    fold (list_back (free_list_ b)) in Happ.
    assert (NoDup (pop_back (free_list_ b) ++ [list_back (free_list_ b)]))
      as Hnd by by rewrite <- Happ.
    apply NoDup_app in Hnd as (Hnd1 & Hnd2 & _).
    assert (Hsub : ∀ g, g ∈ pop_back (free_list_ b) → g ∈ free_list_ b).
    { intros g Hg. rewrite Happ. set_solver. }
    assert (Hback : list_back (free_list_ b) ∈ free_list_ b).
    { rewrite Happ at 2. set_solver. }
    split; [|done]. split; simpl; try done.
    + intros g Hg. by apply H5, Hsub.
    + intros g Hg. destruct (H6 g Hg) as [? Hnf]. split; [done|].
      intros ?%Hsub. done.
    + by apply H5.
    + intros Hin. apply (Hnd2 _ Hin). set_solver.
    + destruct (node_store_ (replacer_ b) !! list_back (free_list_ b)) eqn:E;
        [|done]. destruct (H6 (list_back (free_list_ b))); [by eexists|done].
Qed.

Lemma held_room b f :
  held b f → Z.of_nat (size (node_store_ (replacer_ b))) < max_size_ (replacer_ b).
Proof.
  intros [H1 H2 H3 H4 H5 H6 H7 H8 H9 H10]. rewrite H3.
  pose proof (tracked_bound (node_store_ (replacer_ b)) (f :: free_list_ b)
                (pool_size_ b)) as Hb.
  cbn [length] in Hb. rewrite Nat2Z.inj_succ in Hb.
  enough (Z.of_nat (size (node_store_ (replacer_ b)))
          + Z.succ (Z.of_nat (length (free_list_ b))) ≤ pool_size_ b) by lia.
  apply Hb.
  - lia.
  - by constructor.
  - intros g [->|Hg]%elem_of_cons; [done|by apply H5].
  - intros g Hg. destruct (H6 g Hg) as [? ?]. split; [done|].
    intros [->|?]%elem_of_cons; [|done]. rewrite H10 in Hg. by destruct Hg.
Qed.

(** Installing a page in a held frame: the two replacer calls return, and
    any pool that carries their result, the new page-table entry and the
    new page id in frame [f] satisfies the invariant. *)
Lemma install_spec b f page_id :
  held b f → current_timestamp_ (replacer_ b) + 1 < 2 ^ 64 →
  let r1 := (RecordAccess f (replacer_ b)).2 in
  let r2 := (SetEvictable f false r1).2 in
  (RecordAccess f (replacer_ b)).1 = Returned tt ∧
  (SetEvictable f false r1).1 = Returned tt ∧
  (is_evictable_ <$> node_store_ r2 !! f) = Some false ∧
  ∀ b', pool_size_ b' = pool_size_ b →
        length (pages_ b') = length (pages_ b) →
        replacer_ b' = r2 →
        free_list_ b' = free_list_ b →
        page_table_ b' = map_emplace page_id f (page_table_ b) →
        (∀ g, g ≠ f → page_id_ (page_at b' g) = page_id_ (page_at b g)) →
        page_id_ (page_at b' f) = page_id →
        inv b'.
Proof.
  intros Hh Hclk r1 r2.
  pose proof (held_room b f Hh) as Hroom.
  destruct Hh as [H1 H2 H3 H4 H5 H6 H7 H8 H9 H10].
  destruct (RecordAccess_new f (replacer_ b) H10 Hroom) as [Ho1 Hd1].
  fold r1 in Hd1.
  assert (is_Some (node_store_ r1 !! f)) as Hf1 by (apply Hd1; by left).
  destruct (SetEvictable_tracked f false r1 Hf1) as (Ho2 & Hd2 & He2).
  fold r2 in Hd2, He2.
  split_and!; [done..|].
  intros b' Eps Epg Er Efl Ept Eid Eidf.
  assert (Hdom : ∀ g, is_Some (node_store_ r2 !! g) ↔
            g = f ∨ is_Some (node_store_ (replacer_ b) !! g)).
  { intros g. by rewrite Hd2, Hd1. }
  split; rewrite ?Eps, ?Epg, ?Er, ?Efl, ?Ept; try done.
  - subst r2 r1. by apply wf_SetEvictable, wf_RecordAccess.
  - subst r2 r1.
    destruct (SetEvictable_max_size f false (RecordAccess f (replacer_ b)).2)
      as [-> _].
    by rewrite RecordAccess_max_size.
  - intros g [->|Hg]%Hdom; [done|by apply H6].
  - intros pid g Hg. rewrite Hdom. unfold map_emplace in Hg.
    destruct (page_table_ b !! page_id) as [g0|] eqn:Hpid.
    + destruct (H7 pid g Hg) as [Ht Hid]. split; [by right|].
      rewrite Eid; [done|]. intros ->. rewrite H10 in Ht. by destruct Ht.
    + apply lookup_insert_Some in Hg as [[<- <-]|[Hne Hg]]; [by split; [left|]|].
      destruct (H7 pid g Hg) as [Ht Hid]. split; [by right|].
      rewrite Eid; [done|]. intros ->. rewrite H10 in Ht. by destruct Ht.
Qed.

Lemma page_at_with_replacer r b g : page_at (with_replacer r b) g = page_at b g.
Proof. done. Qed.
Lemma page_at_with_free_list fl b g : page_at (with_free_list fl b) g = page_at b g.
Proof. done. Qed.
Lemma page_at_with_page_table pt b g : page_at (with_page_table pt b) g = page_at b g.
Proof. done. Qed.
Lemma page_at_with_next_page_id n b g : page_at (with_next_page_id n b) g = page_at b g.
Proof. done. Qed.
Lemma page_at_with_disk d b g : page_at (with_disk d b) g = page_at b g.
Proof. done. Qed.

(** Reading a field of a pool through the updates applied to it. *)
Ltac pool_simpl :=
  repeat first
    [ rewrite update_page_pool_size | rewrite update_page_length
    | rewrite update_page_replacer | rewrite update_page_free_list
    | rewrite update_page_page_table | rewrite update_page_next_page_id
    | rewrite update_page_disk
    | rewrite page_at_with_replacer | rewrite page_at_with_free_list
    | rewrite page_at_with_page_table | rewrite page_at_with_next_page_id
    | rewrite page_at_with_disk
    | progress cbn [pool_size_ pages_ replacer_ free_list_ page_table_
                    next_page_id_ disk_ with_pages with_replacer
                    with_free_list with_page_table with_next_page_id
                    with_disk fst snd] ].

(** Reading a frame through the updates applied to the pool. *)
Ltac page_simpl :=
  repeat (pool_simpl;
          first [ rewrite page_at_update_ne by done
                | rewrite page_at_update_eq
                    by (unfold in_pool in *; pool_simpl; done) ]);
  pool_simpl.

Lemma held_in_pool b f : held b f → in_pool b f.
Proof.
  intros H. unfold in_pool. rewrite (held_pages b f H).
  exact (held_range b f H).
Qed.

Lemma inv_NewPage b :
  inv b → current_timestamp_ (replacer_ b) + 1 < 2 ^ 64 → inv (NewPage b).2.
Proof.
  intros Hinv Hclk. rewrite NewPage_acquire. unfold bind at 1 2. unfold gets at 1.
  pose proof (acquire_frame_spec b Hinv) as Hacq.
  destruct (acquire_frame (free_list_ b) b) as [[[f|]|] b0]; [|by subst|done].
  destruct Hacq as [Hh Hc0].
  unfold bind, AllocatePage, gets, modify, ret, replacer_call. simpl.
  rewrite !update_page_replacer. simpl.
  destruct (install_spec b0 f (next_page_id_ b0) Hh) as (Ho1 & Ho2 & _ & Hinst);
    [lia|].
  destruct (RecordAccess f (replacer_ b0)) as [o1 r1]; simpl in *; subst o1.
  destruct (SetEvictable f false r1) as [o2 r2]; simpl in *; subst o2. simpl.
  pose proof (held_in_pool b0 f Hh) as Hin.
  apply Hinst; pool_simpl; try done.
  - intros g Hg. by page_simpl.
  - by page_simpl.
Qed.

(** The invariant survives a change of the replacer that keeps it well
    formed, keeps its capacity and tracks the same frames. *)
Lemma inv_change b b' :
  inv b →
  LRUK.wf (replacer_ b') →
  max_size_ (replacer_ b') = max_size_ (replacer_ b) →
  (∀ g, is_Some (node_store_ (replacer_ b') !! g) ↔
        is_Some (node_store_ (replacer_ b) !! g)) →
  pool_size_ b' = pool_size_ b →
  length (pages_ b') = length (pages_ b) →
  free_list_ b' = free_list_ b →
  page_table_ b' = page_table_ b →
  (∀ g, page_id_ (page_at b' g) = page_id_ (page_at b g)) →
  inv b'.
Proof.
  intros [H1 H2 H3 H4 H5 H6 H7] Hwf Hmax Hdom Eps Epg Efl Ept Eid.
  split; rewrite ?Eps, ?Epg, ?Efl, ?Ept; try done.
  - congruence.
  - intros g Hg%Hdom. by apply H6.
  - intros pid g Hg. rewrite Hdom, Eid. by apply H7.
Qed.

Lemma FetchPage_acquire page_id :
  FetchPage page_id =
    (do pt ← gets page_table_;
     match pt !! page_id with
     | Some frame_id =>
         replacer_call (RecordAccess frame_id);;
         replacer_call (SetEvictable frame_id false);;
         modify (update_page frame_id (λ p, set_pin_count (pin_count_ p + 1) p));;
         ret (Some frame_id)
     | None =>
         do fl ← gets free_list_;
         do got ← acquire_frame fl;
         match got with
         | None => ret None
         | Some frame_id =>
             modify (λ b, with_page_table (map_emplace page_id frame_id (page_table_ b)) b);;
             replacer_call (RecordAccess frame_id);;
             replacer_call (SetEvictable frame_id false);;
             modify (update_page frame_id (set_page_id page_id));;
             modify (update_page frame_id (set_pin_count 0));;
             modify (update_page frame_id ResetMemory);;
             do page ← gets (λ b, page_at b frame_id);
             do bytes ← (λ b, let '(bytes, d) := disk_read (page_id_ page) (disk_ b) in
                              (Returned bytes, with_disk d b));
             modify (update_page frame_id (set_data bytes));;
             ret (Some frame_id)
         end
     end).
Proof. reflexivity. Qed.

(** The hit path of [FetchPage], run on a tracked frame. *)
Lemma FetchPage_hit_run b page_id f :
  page_table_ b !! page_id = Some f →
  is_Some (node_store_ (replacer_ b) !! f) →
  FetchPage page_id b =
    (Returned (Some f),
     update_page f (λ p, set_pin_count (pin_count_ p + 1) p)
       (with_replacer
          (SetEvictable f false (RecordAccess f (replacer_ b)).2).2 b)).
Proof.
  intros Hf Htr. unfold FetchPage, bind, gets, modify, ret, replacer_call.
  simpl. rewrite Hf.
  destruct (RecordAccess_tracked f (replacer_ b) Htr) as [Ho1 Hd1].
  assert (is_Some (node_store_ (RecordAccess f (replacer_ b)).2 !! f)) as Htr1
    by by apply Hd1.
  destruct (SetEvictable_tracked f false _ Htr1) as (Ho2 & _ & _).
  destruct (RecordAccess f (replacer_ b)) as [o1 r1]; simpl in *; subst o1.
  destruct (SetEvictable f false r1) as [o2 r2]; simpl in *; subst o2.
  simpl. by destruct b.
Qed.

Lemma inv_FetchPage page_id b :
  inv b → current_timestamp_ (replacer_ b) + 1 < 2 ^ 64 →
  inv (FetchPage page_id b).2.
Proof.
  intros Hinv Hclk.
  destruct (page_table_ b !! page_id) as [f|] eqn:Hf.
  - (* hit *)
    destruct (inv_resident b Hinv page_id f Hf) as [Htr _].
    rewrite (FetchPage_hit_run b page_id f Hf Htr). simpl.
    destruct (RecordAccess_tracked f (replacer_ b) Htr) as [_ Hd1].
    assert (is_Some (node_store_ (RecordAccess f (replacer_ b)).2 !! f)) as Htr1
      by by apply Hd1.
    destruct (SetEvictable_tracked f false _ Htr1) as (_ & Hd2 & _).
    apply (inv_change b); pool_simpl; try done.
    + by apply wf_SetEvictable, wf_RecordAccess, Hclk; apply Hinv.
    + destruct (SetEvictable_max_size f false (RecordAccess f (replacer_ b)).2)
        as [-> _]. apply RecordAccess_max_size.
    + intros g. by rewrite Hd2, Hd1.
    + intros g. rewrite page_at_update. by case_decide as Hd; [destruct Hd as [-> _]|].
  - (* miss *)
    rewrite FetchPage_acquire. unfold bind at 1. unfold gets at 1. rewrite Hf.
    unfold bind at 1 2. unfold gets at 1.
    pose proof (acquire_frame_spec b Hinv) as Hacq.
    destruct (acquire_frame (free_list_ b) b) as [[[f|]|] b0]; [|by subst|done].
    destruct Hacq as [Hh Hc0].
    unfold bind, gets, modify, ret, replacer_call. simpl.
    destruct (install_spec b0 f page_id Hh) as (Ho1 & Ho2 & _ & Hinst); [lia|].
    destruct (RecordAccess f (replacer_ b0)) as [o1 r1]; simpl in *; subst o1.
    destruct (SetEvictable f false r1) as [o2 r2]; simpl in *; subst o2.
    unfold disk_read. simpl.
    pose proof (held_in_pool b0 f Hh) as Hin.
    apply Hinst; pool_simpl; try done.
    + intros g Hg. by page_simpl.
    + by page_simpl.
Qed.

Lemma inv_UnpinPage page_id is_dirty b :
  inv b → inv (UnpinPage page_id is_dirty b).2.
Proof.
  intros Hinv. unfold UnpinPage, bind, gets, modify, ret, replacer_call. simpl.
  destruct (page_table_ b !! page_id) as [f|] eqn:Hf; [|done].
  destruct (inv_resident b Hinv page_id f Hf) as [Htr _].
  destruct (pin_count_ (page_at b f) =? 0); [done|]. simpl.
  set (b1 := update_page f _ b).
  assert (Hid : ∀ h, (∀ p, page_id_ (h p) = page_id_ p) →
            ∀ b0 g, page_id_ (page_at (update_page f h b0) g)
                    = page_id_ (page_at b0 g)).
  { intros h Hh b0 g. rewrite page_at_update.
    case_decide as Hd; [destruct Hd as [-> _]; apply Hh|done]. }
  assert (inv b1) as Hinv1.
  { apply (inv_same b); subst b1; pool_simpl; try done.
    intros g. by apply Hid. }
  destruct (pin_count_ (page_at b1 f) =? 0).
  - assert (is_Some (node_store_ (replacer_ b1) !! f)) as Htr1
      by (subst b1; by pool_simpl).
    destruct (SetEvictable_tracked f true _ Htr1) as (Ho & Hd & _).
    destruct (SetEvictable_max_size f true (replacer_ b1)) as [Hmax _].
    pose proof (wf_SetEvictable f true _ (inv_replacer b1 Hinv1)) as Hwf.
    destruct (SetEvictable f true (replacer_ b1)) as [o r']; simpl in *; subst o.
    simpl. destruct is_dirty; simpl.
    + apply (inv_change b1); pool_simpl; try done.
      intros g. rewrite Hid by done. by pool_simpl.
    + apply (inv_change b1); pool_simpl; try done.
  - simpl. destruct is_dirty; simpl; [|done].
    apply (inv_same b1); pool_simpl; try done. intros g. by apply Hid.
Qed.

Lemma inv_FlushFrame f b : inv b → inv (FlushFrame f b).2.
Proof.
  intros Hinv.
  destruct (FlushFrame_frame f b) as (_ & Eps & Epg & Er & Efl & Ept & _ & Eid & _).
  by apply (inv_same b).
Qed.

Lemma inv_FlushPage page_id b : inv b → inv (FlushPage page_id b).2.
Proof.
  intros Hinv. unfold FlushPage, bind, gets, ret. simpl.
  destruct (page_table_ b !! page_id) as [f|]; [|done].
  pose proof (inv_FlushFrame f b Hinv) as H.
  destruct (FlushFrame_frame f b) as (Ho & _).
  destruct (FlushFrame f b) as [o b']; simpl in *. by subst o.
Qed.

Lemma inv_FlushAllPages b : inv b → inv (FlushAllPages b).2.
Proof.
  intros Hinv. unfold FlushAllPages, bind at 1, gets. simpl.
  generalize (map_to_list (page_table_ b)). intros l.
  revert b Hinv. induction l as [|e l IH]; intros b Hinv; [done|].
  simpl. unfold bind at 1.
  pose proof (inv_FlushFrame e.2 b Hinv) as H.
  destruct (FlushFrame_frame e.2 b) as (Ho & _).
  destruct (FlushFrame e.2 b) as [o b']; simpl in *. subst o.
  by apply IH.
Qed.

Lemma inv_DeletePage page_id b : inv b → inv (DeletePage page_id b).2.
Proof.
  intros Hinv. unfold DeletePage, bind at 1, gets at 1.
  destruct (page_table_ b !! page_id) as [f|] eqn:Hf; [|done].
  destruct (inv_resident b Hinv page_id f Hf) as [Htr Hidf].
  assert (Hother : ∀ pid g, delete page_id (page_table_ b) !! pid = Some g →
            g ≠ f ∧ is_Some (node_store_ (replacer_ b) !! g) ∧
            page_id_ (page_at b g) = pid).
  { intros pid g [Hne Hg]%lookup_delete_Some.
    destruct (inv_resident b Hinv pid g Hg) as [Ht Hid].
    split; [|done]. intros ->. congruence. }
  unfold bind, gets, modify, ret, replacer_call, DeallocatePage. simpl.
  change (page_at (with_page_table ?pt b) f) with (page_at b f).
  destruct Hinv as [H1 H2 H3 H4 H5 H6 H7].
  destruct (0 <? pin_count_ (page_at b f)); simpl.
  - split; simpl; try done.
    intros pid g Hg. destruct (Hother pid g Hg) as (_ & ? & ?). done.
  - destruct (Remove_spec f (replacer_ b)) as [Hmax Hrm].
    pose proof (wf_Remove f (replacer_ b) H1) as Hwf.
    destruct (Remove f (replacer_ b)) as [[[]|] r'] eqn:HR; simpl in *.
    + set (b1 := with_free_list _ _).
      destruct (FlushFrame_frame f b1)
        as (Ho & Eps & Epg & Er & Efl & Ept & _ & Eid & _).
      destruct (FlushFrame f b1) as [o b2]; simpl in *; subst o. simpl.
      split; pool_simpl; rewrite ?Eps, ?Epg, ?Er, ?Efl, ?Ept; subst b1;
        pool_simpl; try done.
      * congruence.
      * constructor; [|done]. by apply H6.
      * intros g [->|Hg]%elem_of_cons; [by apply H6|by apply H5].
      * intros g [Hne Hg]%Hrm. destruct (H6 g Hg). split; [done|].
        intros [->|?]%elem_of_cons; done.
      * intros pid g Hg. destruct (Hother pid g Hg) as (Hne & Ht & Hid).
        split; [by apply Hrm|]. page_simpl. by rewrite Eid.
    + subst r'. split; simpl; try done.
      intros pid g Hg. destruct (Hother pid g Hg) as (_ & ? & ?). done.
Qed.

Lemma inv_run c b :
  inv b → current_timestamp_ (replacer_ b) + 1 < 2 ^ 64 → inv (run c b).
Proof.
  intros Hinv Hclk. destruct c; simpl.
  - by apply inv_NewPage.
  - by apply inv_FetchPage.
  - by apply inv_UnpinPage.
  - by apply inv_FlushPage.
  - by apply inv_FlushAllPages.
  - by apply inv_DeletePage.
Qed.

Lemma inv_reachable pool_size replacer_k b :
  1 ≤ replacer_k → BPM.reachable pool_size replacer_k b → inv b.
Proof.
  intros Hk Hr. unfold BPM.reachable in Hr.
  assert (Hinit : inv (BPM.create pool_size replacer_k)) by by apply inv_create.
  induction Hr as [|x y z Hxy Hyz IH]; [done|].
  apply IH. destruct Hxy. by apply inv_run.
Qed.

Lemma inv_in_pool b page_id f :
  inv b → page_table_ b !! page_id = Some f → in_pool b f.
Proof.
  intros Hinv Hf. destruct (inv_resident b Hinv page_id f Hf) as [Htr _].
  unfold in_pool. rewrite (inv_pages b Hinv). by apply (inv_tracked b Hinv).
Qed.

Lemma reachable_run pool_size replacer_k c b :
  BPM.reachable pool_size replacer_k b →
  current_timestamp_ (replacer_ b) + 1 < 2 ^ 64 →
  BPM.reachable pool_size replacer_k (run c b).
Proof. intros Hr Hc. eapply rtc_r; [exact Hr|by constructor]. Qed.

Lemma pool1_new_reachable : BPM.reachable 1 2 pool1_new.
Proof.
  apply (reachable_run 1 2 CallNewPage pool1); [apply rtc_refl|].
  vm_compute. reflexivity.
Qed.

(** ** [FetchPage] on a hit *)

Lemma pool1_written_inv : inv pool1_written.
Proof.
  assert (inv pool1_new) as Hinv
    by (apply (inv_reachable 1 2); [lia|apply pool1_new_reachable]).
  apply (inv_change pool1_new); unfold pool1_written; pool_simpl; try done.
  - apply Hinv.
  - intros g. rewrite page_at_update.
    by case_decide as Hd; [destruct Hd as [-> _]|].
Qed.

Example pool1_written_bytes :
  data_ (page_at pool1_written 0) = replicate BUSTUB_PAGE_SIZE x2a ∧
  data_ (page_at pool1_written 0) ≠ zero_page.
Proof. split; [reflexivity|]. vm_compute. discriminate. Qed.

(** C10.  In every pool state that satisfies the invariant [inv], whatever
    the frames and the disk hold, [FetchPage] of a resident page returns the
    page's frame with its pin count raised by exactly one; the frame keeps
    its bytes, dirty flag and page id, every other frame is untouched, the
    free list, the page table and the id counter are unchanged, and the disk
    sees no request.  ([inv] holds in every state the pool can reach:
    [inv_reachable].) *)
Theorem FetchPage_hit_frame_effect b page_id f :
  inv b →
  page_table_ b !! page_id = Some f →
  let b' := (FetchPage page_id b).2 in
  (FetchPage page_id b).1 = Returned (Some f) ∧
  pin_count_ (page_at b' f) = pin_count_ (page_at b f) + 1 ∧
  data_ (page_at b' f) = data_ (page_at b f) ∧
  is_dirty_ (page_at b' f) = is_dirty_ (page_at b f) ∧
  page_id_ (page_at b' f) = page_id ∧
  (∀ g, g ≠ f → page_at b' g = page_at b g) ∧
  length (pages_ b') = length (pages_ b) ∧
  free_list_ b' = free_list_ b ∧
  page_table_ b' = page_table_ b ∧
  next_page_id_ b' = next_page_id_ b ∧
  disk_ b' = disk_ b.
Proof.
  intros Hinv Hf b'. subst b'.
  destruct (inv_resident b Hinv page_id f Hf) as [Htr Hid].
  pose proof (inv_in_pool b page_id f Hinv Hf) as Hin.
  rewrite (FetchPage_hit_run b page_id f Hf Htr). cbn [fst snd].
  split_and!; try (by page_simpl).
  intros g Hg. by page_simpl.
Qed.

Lemma FetchPage_hit_frame_effect_witness :
  (FetchPage 0 pool1_written).1 = Returned (Some 0) ∧
  pin_count_ (page_at (FetchPage 0 pool1_written).2 0)
    = pin_count_ (page_at pool1_written 0) + 1 ∧
  data_ (page_at (FetchPage 0 pool1_written).2 0)
    = data_ (page_at pool1_written 0) ∧
  is_dirty_ (page_at (FetchPage 0 pool1_written).2 0)
    = is_dirty_ (page_at pool1_written 0) ∧
  page_id_ (page_at (FetchPage 0 pool1_written).2 0) = 0 ∧
  (∀ g, g ≠ 0 →
     page_at (FetchPage 0 pool1_written).2 g = page_at pool1_written g) ∧
  length (pages_ (FetchPage 0 pool1_written).2) = length (pages_ pool1_written) ∧
  free_list_ (FetchPage 0 pool1_written).2 = free_list_ pool1_written ∧
  page_table_ (FetchPage 0 pool1_written).2 = page_table_ pool1_written ∧
  next_page_id_ (FetchPage 0 pool1_written).2 = next_page_id_ pool1_written ∧
  disk_ (FetchPage 0 pool1_written).2 = disk_ pool1_written.
Proof.
  apply (FetchPage_hit_frame_effect pool1_written 0 0);
    [apply pool1_written_inv|vm_compute; reflexivity].
Defined.

Example pool1_fetch_hit_pin : pin_count_ (page_at (FetchPage 0 pool1_new).2 0) = 2.
Proof. vm_compute. reflexivity. Qed.

(** The miss path in general: whenever [FetchPage] of a page that is not
    resident returns a frame, that frame is non-evictable in the replacer and
    its pin count is 0. *)
Lemma FetchPage_miss_frame pool_size replacer_k b page_id f :
  1 ≤ replacer_k → BPM.reachable pool_size replacer_k b →
  current_timestamp_ (replacer_ b) + 1 < 2 ^ 64 →
  page_table_ b !! page_id = None →
  (FetchPage page_id b).1 = Returned (Some f) →
  pin_count_ (page_at (FetchPage page_id b).2 f) = 0 ∧
  (is_evictable_ <$> node_store_ (replacer_ (FetchPage page_id b).2) !! f)
    = Some false.
Proof.
  intros Hk Hr Hclk Hf.
  pose proof (inv_reachable _ _ _ Hk Hr) as Hinv.
  destruct (FetchPage page_id b) as [o b'] eqn:E. simpl. intros ->.
  rewrite FetchPage_acquire in E. unfold bind at 1 in E.
  unfold gets at 1 in E. rewrite Hf in E.
  unfold bind at 1 2 in E. unfold gets at 1 in E.
  pose proof (acquire_frame_spec b Hinv) as Hacq.
  destruct (acquire_frame (free_list_ b) b) as [[[f0|]|] b0]; [|done..].
  destruct Hacq as [Hh Hc0].
  unfold bind, gets, modify, ret, replacer_call, disk_read in E. simpl in E.
  destruct (install_spec b0 f0 page_id Hh) as (Ho1 & Ho2 & Hev & _); [lia|].
  destruct (RecordAccess f0 (replacer_ b0)) as [o1 r1]; simpl in *; subst o1.
  destruct (SetEvictable f0 false r1) as [o2 r2]; simpl in *; subst o2.
  simpl in E. injection E as <- <-.
  pose proof (held_in_pool b0 f0 Hh) as Hin.
  split; [by page_simpl|by pool_simpl].
Qed.

(** Scenario S1: three frames, K = 2.  Pages 0, 1, 2 are created and
    unpinned, pages 0 and 1 are fetched once more; the next [NewPage] reuses
    the frame of page 2, the only page with fewer than K accesses. *)
Example scenario_S1 :
  let b := run_all
    [CallNewPage; CallNewPage; CallNewPage;
     CallUnpinPage 0 false; CallUnpinPage 1 false; CallUnpinPage 2 false;
     CallFetchPage 0; CallUnpinPage 0 false;
     CallFetchPage 1; CallUnpinPage 1 false] (BPM.create 3 2) in
  page_table_ b !! 2 = Some 0 ∧
  (NewPage b).1 = Returned (Some (0, 3)) ∧
  page_table_ (NewPage b).2 !! 2 = None.
Proof. vm_compute. done. Qed.

(** A second way to lose a frame: [FetchPage] of an id that [NewPage] has not
    handed out yet makes that id resident; when [NewPage] later allocates the
    same id, [emplace] finds the key present and the new frame gets no
    entry. *)
Example capacity_broken_by_early_FetchPage :
  let b := run_all [CallFetchPage 0; CallNewPage] (BPM.create 2 2) in
  free_list_ b = [] ∧ size (page_table_ b) = 1%nat ∧ pool_size_ b = 2.
Proof. vm_compute. done. Qed.

End BPMFacts.

(** * Facts about the persistent trie *)
Module TrieFacts.
Import Trie.
#[local] Open Scope nat_scope.

Lemma Clone_id n : Clone n = n.
Proof. by destruct n. Qed.

Lemma FindPath_cons n c key :
  FindPath (Some n) (c :: key) = n :: FindPath (children_ n !! c) key.
Proof. simpl. by destruct (children_ n !! c). Qed.

Lemma FindPath_length o key : length (FindPath o key) ≤ S (length key).
Proof.
  revert o. induction key as [|c key IH]; intros [n|]; simpl; try lia.
  destruct (children_ n !! c) as [ch|]; simpl; [|lia].
  specialize (IH (Some ch)). simpl in IH. lia.
Qed.

Lemma back_cons n path : path ≠ [] → back (n :: path) = back path.
Proof. unfold back. by destruct path. Qed.

Lemma node_at_get_node t key : node_at t key = get_node t key.
Proof.
  unfold node_at. revert t. induction key as [|c key IH]; intros [n|]; try done.
  rewrite FindPath_cons. cbn [length get_node]. rewrite <- IH.
  pose proof (FindPath_length (children_ n !! c) key).
  destruct (Nat.eqb_spec (length (FindPath (children_ n !! c) key)) (S (length key)))
    as [Heq|Hne].
  - rewrite (proj2 (Nat.eqb_eq _ _)) by (simpl; lia).
    rewrite back_cons; [done|]. intros E. by rewrite E in Heq.
  - rewrite (proj2 (Nat.eqb_neq _ _)) by (simpl; lia). done.
Qed.

(** *** The linking loop *)

Lemma link_step_shift c key x nodes i :
  1 ≤ i →
  link_step (c :: key) (x :: nodes) (S i) = x :: link_step key nodes i.
Proof.
  intros Hi. unfold link_step. destruct i as [|i]; [lia|].
  replace (S (S i) - 1) with (S i) by lia.
  replace (S i - 1) with i by lia. simpl.
  by destruct (key !! i), (nodes !! S i).
Qed.

Lemma link_from_shift c key x nodes (l : list nat) :
  Forall (λ i, 1 ≤ i) l →
  foldl (link_step (c :: key)) (x :: nodes) (S <$> l)
  = x :: foldl (link_step key) nodes l.
Proof.
  intros Hl. revert nodes. induction Hl as [|i l Hi _ IH]; intros nodes; [done|].
  simpl. by rewrite link_step_shift, IH.
Qed.

Lemma link_from_cons m c key x nodes :
  nodes ≠ [] →
  link_from (S m) (c :: key) (x :: nodes) =
    mkTrieNode (<[c := at_index (link_from m key nodes) 0]> (children_ x)) (value_ x)
    :: link_from m key nodes.
Proof.
  intros Hne. unfold link_from.
  replace (seq 1 (S m)) with (1 :: (S <$> seq 1 m)) by (simpl; by rewrite fmap_S_seq).
  cbn [rev]. rewrite foldl_app. cbn [foldl].
  rewrite <- map_rev, link_from_shift.
  2:{ apply Forall_forall. intros i Hi.
      apply list_elem_of_In, in_rev, in_seq in Hi. lia. }
  assert (Hlen : ∀ l nodes0, nodes0 ≠ [] → foldl (link_step key) nodes0 l ≠ []).
  { intros l. induction l as [|i l IH]; intros nodes0 H0; [done|]. simpl.
    apply IH. unfold link_step. destruct (key !! (i - 1)), (nodes0 !! i); try done.
    intros E%(f_equal length). rewrite length_alter in E.
    by destruct nodes0. }
  specialize (Hlen (rev (seq 1 m)) nodes Hne).
  destruct (foldl (link_step key) nodes (rev (seq 1 m))) as [|y rest]; [done|].
  done.
Qed.

Lemma link_from_0 key nodes : link_from 0 key nodes = nodes.
Proof. done. Qed.

(** *** [Put] *)

Lemma put_nodes_cons n path c key value :
  put_nodes (n :: path) (c :: key) value = Clone n :: put_nodes path key value.
Proof.
  unfold put_nodes. cbn [length seq fmap list_fmap app]. f_equal.
  f_equal.
  - rewrite <- fmap_S_seq, <- list_fmap_compose. apply list_fmap_ext.
    intros i x _. simpl. done.
  - f_equal. change (S (length path) =? S (S (length key)))
      with (length path =? S (length key)).
    destruct (Nat.eqb_spec (length path) (S (length key))) as [Heq|]; [|done].
    rewrite back_cons; [done|]. intros E. by rewrite E in Heq.
Qed.

Lemma put_nodes_nil_cons c key value :
  put_nodes [] (c :: key) value = plain_node ∅ :: put_nodes [] key value.
Proof.
  unfold put_nodes. cbn [length seq fmap list_fmap app]. f_equal.
  f_equal. rewrite <- fmap_S_seq, <- list_fmap_compose. by apply list_fmap_ext.
Qed.

Lemma put_nodes_ne path key value : put_nodes path key value ≠ [].
Proof. unfold put_nodes. by destruct (_ <$> _). Qed.

Lemma put_nodes_length path key value :
  length (put_nodes path key value) = S (length key).
Proof. unfold put_nodes. rewrite length_app, length_fmap, length_seq. simpl. lia. Qed.

Lemma link_put_nodes o key value :
  at_index (link_from (length key) key (put_nodes (FindPath o key) key value)) 0
  = put_node o key value.
Proof.
  revert o. induction key as [|c key IH]; intros o.
  - destruct o as [n|]; done.
  - destruct o as [n|].
    + rewrite FindPath_cons, put_nodes_cons. cbn [length].
      rewrite link_from_cons by apply put_nodes_ne.
      unfold at_index at 1. cbn [lookup_total list_lookup_total].
      rewrite IH. done.
    + change (FindPath None (c :: key)) with (@nil TrieNode).
      rewrite put_nodes_nil_cons. cbn [length].
      rewrite link_from_cons by apply put_nodes_ne.
      unfold at_index at 1. cbn [lookup_total list_lookup_total].
      change (@nil TrieNode) with (FindPath None key). rewrite IH.
      simpl. by rewrite lookup_empty.
Qed.

(** [Put] computes {!put_node} at the root. *)
Lemma Put_unfold t key value :
  Put t key value = Some (put_node t (strip_nul key) value).
Proof.
  unfold Put. fold (put_nodes (FindPath t (strip_nul key)) (strip_nul key) value).
  rewrite put_nodes_length. replace (S (length (strip_nul key)) - 1)
    with (length (strip_nul key)) by lia.
  by rewrite link_put_nodes.
Qed.

(** *** [Remove] *)

Lemma Remove_eq t key :
  Remove t key =
    if negb (length (FindPath t (strip_nul key)) =? S (length (strip_nul key)))
       || negb (is_value_node_ (back (FindPath t (strip_nul key))))
    then t
    else remove_body (FindPath t (strip_nul key)) (strip_nul key).
Proof. done. Qed.

Lemma prune_cons n path s :
  prune (n :: path) (S s) =
    match prune path s with
    | 0 => if passed n then 0 else 1
    | S j => S (S j)
    end.
Proof.
  induction s as [|s IH].
  - done.
  - change (prune (n :: path) (S (S s))) with
      (if passed (at_index path s) then prune (n :: path) (S s) else S (S s)).
    change (prune path (S s)) with
      (if passed (at_index path s) then prune path s else S s).
    destruct (passed (at_index path s)); [apply IH|done].
Qed.

Lemma kept_cons n path :
  path ≠ [] →
  kept (n :: path) =
    match kept path with
    | 0 => if passed n then 0 else 1
    | S j => S (S j)
    end.
Proof.
  intros Hne. unfold kept. cbn [length].
  replace (S (length path) - 1) with (S (length path - 1))
    by (destruct path; [done|simpl; lia]).
  change (at_index (n :: path) (S (length path - 1)))
    with (at_index path (length path - 1)).
  case_bool_decide.
  - apply prune_cons.
  - destruct path; [done|]. done.
Qed.

Lemma remove_nodes_cons n path c key j :
  remove_nodes (n :: path) (c :: key) (S (S j))
  = Clone n :: remove_nodes path key (S j).
Proof.
  unfold remove_nodes. replace (S (S j) - 1) with (S j) by lia.
  replace (S j - 1) with j by lia.
  cbn [seq fmap list_fmap app]. f_equal. f_equal.
  rewrite <- fmap_S_seq, <- list_fmap_compose. by apply list_fmap_ext.
Qed.

Lemma remove_nodes_ne path key sum : remove_nodes path key sum ≠ [].
Proof. unfold remove_nodes. by destruct (_ <$> _). Qed.

Lemma remove_body_cons n path c key :
  path ≠ [] →
  remove_body (n :: path) (c :: key) =
    match remove_body path key with
    | Some child' => Some (mkTrieNode (<[c := child']> (children_ n)) (value_ n))
    | None =>
        if passed n then None
        else Some (mkTrieNode (delete c (children_ n)) (value_ n))
    end.
Proof.
  intros Hne. unfold remove_body. rewrite (kept_cons n path Hne).
  destruct (kept path) as [|j]; simpl.
  - destruct (passed n); [done|]. simpl. done.
  - replace (j - 0) with j by lia.
    rewrite remove_nodes_cons, link_from_cons by apply remove_nodes_ne.
    done.
Qed.

Lemma FindPath_complete_cons n c key :
  length (FindPath (Some n) (c :: key)) = S (length (c :: key)) →
  ∃ child, children_ n !! c = Some child ∧
    length (FindPath (Some child) key) = S (length key).
Proof.
  rewrite FindPath_cons. destruct (children_ n !! c) as [child|]; simpl.
  - intros [= H]. exists child. split; [done|]. by rewrite H.
  - intros [=].
Qed.

Lemma remove_body_node key n :
  length (FindPath (Some n) key) = S (length key) →
  remove_body (FindPath (Some n) key) key = remove_node n key.
Proof.
  revert n. induction key as [|c key IH]; intros n Hlen.
  - unfold remove_body, kept. simpl. change (at_index [n] 0) with n.
    case_bool_decide; done.
  - destruct (FindPath_complete_cons n c key Hlen) as (child & Hc & Hlen').
    rewrite FindPath_cons, Hc, remove_body_cons by done.
    rewrite (IH child Hlen'). simpl. rewrite Hc. done.
Qed.

(** [Remove] leaves the trie alone unless [key] leads to a value node, and
    otherwise computes {!remove_node} at the root. *)
Lemma Remove_unfold t key :
  Remove t key =
    match t, get_node t (strip_nul key) with
    | Some n, Some terminal =>
        if is_value_node_ terminal then remove_node n (strip_nul key) else t
    | _, _ => t
    end.
Proof.
  rewrite Remove_eq. destruct t as [n|]; [|done].
  rewrite <- node_at_get_node. unfold node_at.
  destruct (Nat.eqb_spec (length (FindPath (Some n) (strip_nul key)))
              (S (length (strip_nul key)))) as [Hlen|Hlen]; [|done].
  cbn [negb orb]. destruct (is_value_node_ _); [|done].
  by apply remove_body_node.
Qed.

(** *** [Get] *)

Lemma Get_unfold T t key :
  Get T t key =
    match get_node t (strip_nul key) with
    | Some n =>
        match value_ n with
        | Some v => if decide (type_of v = T) then Some v else None
        | None => None
        end
    | None => None
    end.
Proof.
  unfold Get. rewrite <- node_at_get_node. unfold node_at.
  by destruct (_ =? _).
Qed.

(** ** Walking through the results of [Put] and [Remove] *)

Lemma get_node_None key : get_node None key = None.
Proof. by destruct key. Qed.

Lemma get_node_app o key1 key2 :
  get_node o (key1 ++ key2) = get_node (get_node o key1) key2.
Proof.
  revert o. induction key1 as [|c key1 IH]; intros o; [done|].
  destruct o as [n|]; simpl; [apply IH|by rewrite get_node_None].
Qed.

Lemma get_put_node o key value :
  get_node (Some (put_node o key value)) key =
    Some (node_with_value
            (from_option children_ ∅ (get_node o key)) value).
Proof.
  revert o. induction key as [|c key IH]; intros o; [done|].
  cbn [put_node get_node children_]. rewrite lookup_insert_eq, IH.
  destruct o as [n|]; simpl; [done|].
  by rewrite lookup_empty, get_node_None.
Qed.

Lemma get_remove_node key n :
  match get_node (remove_node n key) key with
  | Some m => value_ m = None
  | None => True
  end.
Proof.
  revert n. induction key as [|c key IH]; intros n.
  - simpl. by case_bool_decide.
  - cbn [remove_node]. destruct (children_ n !! c) as [child|] eqn:Hc.
    + specialize (IH child).
      destruct (remove_node child key) as [child'|].
      * cbn [get_node children_]. by rewrite lookup_insert_eq.
      * destruct (_ && _); [done|].
        cbn [get_node children_]. by rewrite lookup_delete_eq, get_node_None.
    + cbn [get_node]. by rewrite Hc, get_node_None.
Qed.

(** ** No leaf without a value *)

Lemma no_non_value_leaf_nnvl t : no_non_value_leaf t ↔ nnvl t.
Proof.
  unfold no_non_value_leaf, nnvl.
  split; intros H key n; specialize (H key n);
    by rewrite node_at_get_node in *.
Qed.

Lemma nnvl_None : nnvl None.
Proof. intros key n. by rewrite get_node_None. Qed.

Lemma nnvl_child n c : nnvl (Some n) → nnvl (children_ n !! c).
Proof. intros H key m Hm. by apply (H (c :: key)). Qed.

Lemma nnvl_root n : nnvl (Some n) → children_ n = ∅ → is_value_node_ n = true.
Proof. intros H. by apply (H []). Qed.

Lemma nnvl_intro n :
  (children_ n = ∅ → is_value_node_ n = true) →
  (∀ c, nnvl (children_ n !! c)) →
  nnvl (Some n).
Proof.
  intros Hroot Hch [|c key] m; simpl.
  - by intros [= <-].
  - apply Hch.
Qed.

Lemma nnvl_put_node o key value :
  nnvl o → nnvl (Some (put_node o key value)).
Proof.
  revert o. induction key as [|c key IH]; intros o Ho.
  - apply nnvl_intro; [done|]. intros c. simpl.
    destruct o as [n|]; simpl; [by apply nnvl_child|].
    rewrite lookup_empty. apply nnvl_None.
  - apply nnvl_intro.
    + cbn [put_node children_]. intros E.
      by apply insert_non_empty in E.
    + intros c'. cbn [put_node children_].
      destruct (decide (c = c')) as [<-|Hne].
      * rewrite lookup_insert_eq. apply IH.
        destruct o as [n|]; simpl; [by apply nnvl_child|].
        rewrite lookup_empty. apply nnvl_None.
      * rewrite lookup_insert_ne by done.
        destruct o as [n|]; simpl; [by apply nnvl_child|].
        rewrite lookup_empty. apply nnvl_None.
Qed.

Lemma size_1_delete (m : gmap ascii TrieNode) c x :
  m !! c = Some x → delete c m = ∅ → size m = 1.
Proof.
  intros Hc He. rewrite <- (insert_delete_id m c x Hc), He.
  by rewrite insert_empty, map_size_singleton.
Qed.

Lemma nnvl_remove_node n key :
  nnvl (Some n) → nnvl (remove_node n key).
Proof.
  revert n. induction key as [|c key IH]; intros n Hn.
  - simpl. case_bool_decide as He; [apply nnvl_None|].
    apply nnvl_intro; [intros E; by destruct He|]. intros c. simpl.
    by apply nnvl_child.
  - cbn [remove_node]. destruct (children_ n !! c) as [child|] eqn:Hc; [|done].
    pose proof (IH child) as IHc. rewrite <- Hc in IHc at 1.
    specialize (IHc (nnvl_child n c Hn)).
    destruct (remove_node child key) as [child'|].
    + apply nnvl_intro.
      * cbn [children_]. intros E. by apply insert_non_empty in E.
      * intros c'. cbn [children_]. destruct (decide (c = c')) as [<-|Hne].
        -- by rewrite lookup_insert_eq.
        -- rewrite lookup_insert_ne by done. by apply nnvl_child.
    + destruct (negb (is_value_node_ n) && (size (children_ n) =? 1)) eqn:Hp;
        [apply nnvl_None|].
      apply nnvl_intro.
      * cbn [children_]. intros E.
        apply (size_1_delete _ _ _ Hc) in E. unfold is_value_node_ in *.
        cbn [value_]. rewrite E in Hp. simpl in Hp.
        by destruct (value_ n).
      * intros c'. cbn [children_]. destruct (decide (c = c')) as [<-|Hne].
        -- rewrite lookup_delete_eq. apply nnvl_None.
        -- rewrite lookup_delete_ne by done. by apply nnvl_child.
Qed.

Lemma nnvl_Put t key value : nnvl t → nnvl (Put t key value).
Proof. rewrite Put_unfold. apply nnvl_put_node. Qed.

Lemma nnvl_Remove t key : nnvl t → nnvl (Remove t key).
Proof.
  intros Ht. rewrite Remove_unfold. destruct t as [n|]; [|done].
  destruct (get_node _ _) as [terminal|]; [|done].
  destruct (is_value_node_ terminal); [|done].
  by apply nnvl_remove_node.
Qed.

Lemma nnvl_reachable t : reachable t → nnvl t.
Proof.
  induction 1 as [|t key value _ IH|t key _ IH].
  - apply nnvl_None.
  - by apply nnvl_Put.
  - by apply nnvl_Remove.
Qed.

(** ** Removing what was just put *)

Lemma remove_put_node o key value :
  nnvl o →
  (∀ m, get_node o key = Some m → value_ m = None) →
  remove_node (put_node o key value) key = o.
Proof.
  revert o. induction key as [|c key IH]; intros o Ho Hv.
  - destruct o as [n|]; simpl.
    + specialize (Hv n eq_refl). case_bool_decide as He.
      * apply (nnvl_root n Ho) in He. unfold is_value_node_ in He.
        by rewrite Hv in He.
      * destruct n as [ch val]. simpl in *. by subst val.
    + by rewrite bool_decide_eq_true_2.
  - cbn [put_node remove_node children_ value_].
    rewrite lookup_insert_eq.
    destruct o as [n|]; cbn [from_option Clone plain_node children_ value_].
    + rewrite (IH (children_ n !! c)); [|by apply nnvl_child|exact Hv].
      destruct (children_ n !! c) as [child|] eqn:Hc.
      * rewrite insert_insert_eq, insert_id by done. by destruct n.
      * rewrite map_size_insert_None by done.
        unfold is_value_node_ at 1. cbn [value_].
        destruct (negb _ && _) eqn:Hp.
        -- apply andb_prop in Hp as [Hval Hsz].
           apply Nat.eqb_eq in Hsz.
           assert (children_ n = ∅) as He by (apply map_size_empty_inv; lia).
           apply (nnvl_root n Ho) in He. unfold is_value_node_ in He.
           by destruct (value_ n).
        -- rewrite delete_insert_id by done. by destruct n.
    + rewrite (IH (∅ !! c)).
      * rewrite lookup_empty. by rewrite insert_empty, map_size_singleton.
      * rewrite lookup_empty. apply nnvl_None.
      * rewrite lookup_empty. intros m. by rewrite get_node_None.
Qed.

(** ** Pruning *)

(** When the terminal has no children and the path nodes from position [i]
    on are all passed over by the pruning loop, no node is left at position
    [i] of the path. *)
Lemma remove_node_pruned key n terminal i :
  get_node (Some n) key = Some terminal →
  children_ terminal = ∅ →
  i ≤ length key →
  (∀ j, i ≤ j < length key →
     ∃ m, get_node (Some n) (take j key) = Some m ∧ passed m = true) →
  get_node (remove_node n key) (take i key) = None.
Proof.
  revert n i. induction key as [|c key IH]; intros n i Ht He Hi Hrun.
  - simpl in *. injection Ht as ->. rewrite bool_decide_eq_true_2 by done.
    by rewrite get_node_None.
  - cbn [get_node] in Ht. cbn [remove_node].
    destruct (children_ n !! c) as [child|] eqn:Hc;
      [|by rewrite get_node_None in Ht].
    destruct i as [|i].
    + assert (remove_node child key = None) as ->.
      { specialize (IH child 0 Ht He). simpl in IH. apply IH; [lia|].
        intros j Hj. destruct (Hrun (S j)) as (m & Hm & Hp); [simpl; lia|].
        exists m. split; [|done]. simpl in Hm. by rewrite Hc in Hm. }
      destruct (Hrun 0) as (m & Hm & Hp); [simpl; lia|].
      simpl in Hm. injection Hm as <-. unfold passed in Hp. by rewrite Hp.
    + cbn [take]. specialize (IH child i Ht He).
      assert (get_node (remove_node child key) (take i key) = None) as Hgone.
      { apply IH; [simpl in Hi; lia|].
        intros j Hj. destruct (Hrun (S j)) as (m & Hm & Hp); [simpl; lia|].
        exists m. split; [|done]. simpl in Hm. by rewrite Hc in Hm. }
      destruct (remove_node child key) as [child'|].
      * cbn [get_node children_]. by rewrite lookup_insert_eq.
      * destruct (_ && _); [by rewrite get_node_None|].
        cbn [get_node children_]. by rewrite lookup_delete_eq, get_node_None.
Qed.

(** A path node the loop does not pass over stays, with its value. *)
Lemma remove_node_kept key n terminal i m :
  get_node (Some n) key = Some terminal →
  i < length key →
  get_node (Some n) (take i key) = Some m → passed m = false →
  ∃ m', get_node (remove_node n key) (take i key) = Some m' ∧
        value_ m' = value_ m.
Proof.
  revert n i. induction key as [|c key IH]; intros n i Ht Hi Hm Hp.
  - simpl in Hi. lia.
  - cbn [get_node] in Ht. cbn [remove_node].
    destruct (children_ n !! c) as [child|] eqn:Hc;
      [|by rewrite get_node_None in Ht].
    destruct i as [|i].
    + simpl in Hm. injection Hm as <-. unfold passed in Hp. rewrite Hp.
      destruct (remove_node child key); eexists; (split; [done|done]).
    + cbn [take get_node] in Hm. rewrite Hc in Hm.
      destruct (IH child i Ht) as (m' & Hm' & Hv); [simpl in Hi; lia|done..|].
      destruct (remove_node child key) as [child'|];
        [|by rewrite get_node_None in Hm'].
      exists m'. split; [|done]. cbn [take get_node children_].
      by rewrite lookup_insert_eq.
Qed.

Lemma passed_true m :
  passed m = true ↔ is_value_node_ m = false ∧ size (children_ m) = 1.
Proof.
  unfold passed. rewrite andb_true_iff, negb_true_iff, Nat.eqb_eq. done.
Qed.

Lemma passed_false m :
  passed m = false ↔ is_value_node_ m = true ∨ size (children_ m) ≠ 1.
Proof.
  unfold passed. rewrite andb_false_iff, negb_false_iff, Nat.eqb_neq. done.
Qed.

Example scenario_S4 :
  let t1 := Put empty (key_of "a") (VUInt32 1) in
  let t2 := Put t1 (key_of "ab") (VString "x") in
  Get TUInt32 t2 (key_of "a") = Some (VUInt32 1) ∧
  Get TString t2 (key_of "ab") = Some (VString "x") ∧
  Get TString t2 (key_of "a") = None ∧
  Get TString t1 (key_of "ab") = None ∧
  Get TUInt32 empty (key_of "a") = None.
Proof. vm_compute. done. Qed.

Example scenario_S6 :
  Remove (Put empty (key_of "abc") (VUInt32 1)) (key_of "abc") = empty ∧
  let t := Remove (Put (Put empty (key_of "abc") (VUInt32 1))
                     (key_of "abd") (VUInt32 2)) (key_of "abc") in
  Get TUInt32 t (key_of "abd") = Some (VUInt32 2) ∧
  node_at t (key_of "abc") = None.
Proof. vm_compute. done. Qed.

(** ** The laws of [Put], [Get] and [Remove] *)

(** C6, as the code has it.  For every trie, key and value, looking the key
    up at the value's type after [Put] yields the stored value; looking a
    key up after [Remove] of that key yields null, for every trie and type;
    and [Remove] after [Put] gives back the original trie provided that trie
    has no leaf without a value (as every trie built from the empty one has)
    and holds no value under the key. *)
Theorem Put_Get_Remove_laws :
  (∀ t key value, Get (type_of value) (Put t key value) key = Some value) ∧
  (∀ t key T, Get T (Remove t key) key = None) ∧
  (∀ t key value,
     no_non_value_leaf t → (∀ T, Get T t key = None) →
     Remove (Put t key value) key = t).
Proof.
  split_and!.
  - intros t key value. rewrite Get_unfold, Put_unfold, get_put_node. simpl.
    by rewrite decide_True.
  - intros t key T. rewrite Get_unfold, Remove_unfold.
    destruct t as [n|]; [|by rewrite get_node_None].
    destruct (get_node (Some n) (strip_nul key)) as [terminal|] eqn:Ht;
      [|by rewrite Ht].
    unfold is_value_node_.
    destruct (value_ terminal) eqn:Hv; [|by rewrite Ht, Hv].
    pose proof (get_remove_node (strip_nul key) n) as Hr.
    destruct (get_node (remove_node n (strip_nul key)) (strip_nul key));
      [by rewrite Hr|done].
  - intros t key value Hleaf Hnone.
    rewrite Remove_unfold, Put_unfold, get_put_node.
    cbn [is_value_node_ node_with_value value_].
    apply remove_put_node; [by apply no_non_value_leaf_nnvl|].
    intros m Hm. destruct (value_ m) as [v|] eqn:Hv; [|done].
    specialize (Hnone (type_of v)). rewrite Get_unfold, Hm, Hv in Hnone.
    by rewrite decide_True in Hnone.
Qed.

Lemma Put_Get_Remove_laws_witness :
  Remove (Put trie_ab (key_of "ac") (VString "x")) (key_of "ac") = trie_ab.
Proof.
  apply (proj2 (proj2 Put_Get_Remove_laws)).
  - apply no_non_value_leaf_nnvl, nnvl_reachable.
    unfold trie_ab. apply reachable_Put, reachable_empty.
  - intros T. vm_compute. reflexivity.
Defined.

(** [Put] over a key that already holds a value, then [Remove]: the old
    value is gone, so the original trie is not restored. *)
Lemma Put_Remove_overwritten :
  Remove (Put trie_a (key_of "a") (VUInt32 2)) (key_of "a") ≠ trie_a.
Proof. vm_compute. discriminate. Qed.

(** ** The leaf invariant and pruning *)

(** C7.  A trie built from the empty trie by [Put] and [Remove] has no leaf
    without a value.  Moreover, when [Remove] is given a key whose terminal
    node holds a value and has no children, then (1) the terminal, and every
    ancestor from which an unbroken run of value-less one-child nodes leads
    down to the terminal, is absent from the result; (2) an ancestor that
    holds a value or has another child is still there with its value; and
    (3) if the run reaches the root the result is the empty trie. *)
Theorem reachable_no_non_value_leaf t :
  reachable t →
  no_non_value_leaf t ∧
  ∀ key terminal,
    let k := strip_nul key in
    let on_run j :=
      ∃ m, node_at t (take j k) = Some m ∧
           is_value_node_ m = false ∧ size (children_ m) = 1 in
    node_at t k = Some terminal →
    is_value_node_ terminal = true →
    children_ terminal = ∅ →
    (∀ i, i ≤ length k → (∀ j, i ≤ j < length k → on_run j) →
       node_at (Remove t key) (take i k) = None) ∧
    (∀ i m, i < length k → node_at t (take i k) = Some m →
       is_value_node_ m = true ∨ size (children_ m) ≠ 1 →
       ∃ m', node_at (Remove t key) (take i k) = Some m' ∧
             value_ m' = value_ m) ∧
    ((∀ j, j < length k → on_run j) → Remove t key = empty).
Proof.
  intros Hr. split; [by apply no_non_value_leaf_nnvl, nnvl_reachable|].
  intros key terminal k on_run Ht Hv He.
  rewrite node_at_get_node in Ht.
  assert (∃ n, t = Some n) as [n ->].
  { destruct t as [n|]; [by exists n|by rewrite get_node_None in Ht]. }
  assert (Remove (Some n) key = remove_node n k) as HR.
  { rewrite Remove_unfold. fold k. by rewrite Ht, Hv. }
  rewrite HR.
  assert (Hrun : ∀ i, (∀ j, i ≤ j < length k → on_run j) →
            ∀ j, i ≤ j < length k →
              ∃ m, get_node (Some n) (take j k) = Some m ∧ passed m = true).
  { intros i H j Hj. destruct (H j Hj) as (m & Hm & Hp).
    exists m. rewrite <- node_at_get_node. split; [done|]. by apply passed_true. }
  split_and!.
  - intros i Hi H. rewrite node_at_get_node.
    eapply remove_node_pruned; eauto.
  - intros i m Hi Hm Hp. rewrite node_at_get_node in Hm.
    destruct (remove_node_kept k n terminal i m) as (m' & Hm' & Hv');
      [done..|by apply passed_false|].
    exists m'. by rewrite node_at_get_node.
  - intros H.
    pose proof (remove_node_pruned k n terminal 0 Ht He) as Hp.
    simpl in Hp. apply Hp; [lia|]. apply Hrun. intros j Hj. apply H. lia.
Qed.

Lemma reachable_no_non_value_leaf_witness :
  no_non_value_leaf trie_a_abc ∧
  ∀ key terminal,
    let k := strip_nul key in
    let on_run j :=
      ∃ m, node_at trie_a_abc (take j k) = Some m ∧
           is_value_node_ m = false ∧ size (children_ m) = 1 in
    node_at trie_a_abc k = Some terminal →
    is_value_node_ terminal = true →
    children_ terminal = ∅ →
    (∀ i, i ≤ length k → (∀ j, i ≤ j < length k → on_run j) →
       node_at (Remove trie_a_abc key) (take i k) = None) ∧
    (∀ i m, i < length k → node_at trie_a_abc (take i k) = Some m →
       is_value_node_ m = true ∨ size (children_ m) ≠ 1 →
       ∃ m', node_at (Remove trie_a_abc key) (take i k) = Some m' ∧
             value_ m' = value_ m) ∧
    ((∀ j, j < length k → on_run j) → Remove trie_a_abc key = empty).
Proof.
  apply (reachable_no_non_value_leaf trie_a_abc).
  unfold trie_a_abc. repeat apply reachable_Put. apply reachable_empty.
Defined.

Example prune_stops_at_value_node :
  let t := Remove trie_a_abc (key_of "abc") in
  node_at t (key_of "abc") = None ∧ node_at t (key_of "ab") = None ∧
  t = trie_a.
Proof. vm_compute. done. Qed.

(** ** Positions on the path *)

Lemma FindPath_lookup t key i :
  i ≤ length key → FindPath t key !! i = get_node t (take i key).
Proof.
  revert t i. induction key as [|c key IH]; intros t i Hi.
  - simpl in Hi. replace i with 0 by lia. by destruct t.
  - destruct t as [n|]; [|by destruct i].
    rewrite FindPath_cons. destruct i as [|i]; [done|].
    simpl. apply IH. simpl in Hi. lia.
Qed.

Lemma FindPath_drop t key i n :
  i ≤ length key → get_node t (take i key) = Some n →
  drop i (FindPath t key) = FindPath (Some n) (drop i key).
Proof.
  revert t i. induction key as [|c key IH]; intros t i Hi Hn.
  - simpl in Hi. assert (i = 0) as -> by lia. simpl in *. by subst t.
  - destruct i as [|i]; [simpl in *; by subst t|].
    destruct t as [m|]; [|by rewrite get_node_None in Hn].
    rewrite FindPath_cons. simpl. apply IH; [simpl in Hi; lia|done].
Qed.

Lemma kept_drop path i :
  i < length path → kept (drop i path) = kept path - i.
Proof.
  revert path. induction i as [|i IH]; intros path Hi.
  - rewrite drop_0. lia.
  - destruct path as [|n path]; [simpl in Hi; lia|].
    simpl in Hi. simpl drop. rewrite IH by lia.
    rewrite (kept_cons n path) by (intros ->; simpl in Hi; lia).
    destruct (kept path); [destruct (passed n)|]; lia.
Qed.

Lemma remove_body_None path key : remove_body path key = None ↔ kept path = 0.
Proof.
  unfold remove_body. destruct (Nat.leb_spec (kept path) 0); split; try done; lia.
Qed.

(** With a complete path, the node at position [i] is pruned exactly when
    the loop of [Remove] went past it. *)
Lemma remove_node_None t key i n :
  length (FindPath t key) = S (length key) →
  i ≤ length key → get_node t (take i key) = Some n →
  remove_node n (drop i key) = None ↔ kept (FindPath t key) ≤ i.
Proof.
  intros Hlen Hi Hn.
  pose proof (FindPath_drop t key i n Hi Hn) as Hd.
  rewrite <- (remove_body_node (drop i key) n).
  2:{ rewrite <- Hd, !length_drop. lia. }
  rewrite <- Hd, remove_body_None, kept_drop by lia. lia.
Qed.

End TrieFacts.

(** * Facts about the trie in memory *)
Module TrieHeapFacts.
Import TrieHeap.
#[local] Open Scope nat_scope.

(** ** Allocation only appends *)

Lemma closed_nil : closed [].
Proof. intros a n c child Ha. by destruct a. Qed.

Lemma closed_app h n :
  closed h →
  (∀ c child, children_ n !! c = Some child → child < S (length h)) →
  closed (h ++ [n]).
Proof.
  intros Hc Hn a m c child Ha Hchild. rewrite length_app. simpl.
  apply lookup_app_Some in Ha as [Ha|[Hlen Ha]].
  - specialize (Hc a m c child Ha Hchild). lia.
  - apply list_lookup_singleton_Some in Ha as [_ <-].
    specialize (Hn c child Hchild). lia.
Qed.

Lemma closed_alter h parent c child :
  closed h → child < length h →
  closed (alter (λ n, mkTrieNode (<[c := child]> (children_ n)) (value_ n))
            parent h).
Proof.
  intros Hc Hchild a m c' child' Ha Hm. rewrite length_alter.
  rewrite list_lookup_alter in Ha. case_decide as Hd.
  - subst a. destruct (h !! parent) as [n|] eqn:Hn; [|done].
    simpl in Ha. injection Ha as <-. simpl in Hm.
    apply lookup_insert_Some in Hm as [[_ <-]|[_ Hm]]; [done|].
    by apply (Hc parent n c' child').
  - by apply (Hc a m c' child').
Qed.

Lemma closed_deref h a c child :
  closed h → children_ (deref h a) !! c = Some child → child < length h.
Proof.
  intros Hc. unfold deref. rewrite list_lookup_total_alt.
  destruct (h !! a) as [n|] eqn:Hn; simpl.
  - by apply (Hc a n c child).
  - by rewrite lookup_empty.
Qed.

Lemma alloc_loop_spec make count h :
  makes_closed make → closed h →
  ∃ ext, (alloc_loop make count h).1 = h ++ ext ∧
         length ext = count ∧
         (alloc_loop make count h).2 = seq (length h) count ∧
         closed (h ++ ext).
Proof.
  intros Hmk Hc. unfold alloc_loop. induction count as [|count IH].
  - exists []. simpl. by rewrite app_nil_r.
  - rewrite seq_S, foldl_app. simpl.
    destruct IH as (ext & E1 & Elen & E2 & Hc').
    destruct (foldl _ _ _) as [h1 nodes]. simpl in *. subst h1 nodes.
    exists (ext ++ [make (h ++ ext) count]). rewrite !length_app. simpl.
    rewrite Elen. split_and!.
    + by rewrite app_assoc.
    + lia.
    + change (length h :: seq (S (length h)) count)
        with (seq (length h) (S count)). by rewrite seq_S.
    + rewrite app_assoc. apply closed_app; [done|].
      intros c child Hchild. specialize (Hmk _ _ _ _ Hc' Hchild). lia.
Qed.

(** ** Linking only touches the new objects *)

Lemma link_from_spec key new_nodes h0 ext last :
  (∀ a, a ∈ new_nodes → length h0 ≤ a < length (h0 ++ ext)) →
  closed (h0 ++ ext) →
  ∃ ext', link_from last key new_nodes (h0 ++ ext) = h0 ++ ext' ∧
          length ext' = length ext ∧ closed (h0 ++ ext').
Proof.
  intros Hnew Hc. unfold link_from. generalize (rev (seq 1 last)). intros l.
  revert ext Hnew Hc. induction l as [|index l IH]; intros ext Hnew Hc.
  - by exists ext.
  - simpl. unfold link_step at 2.
    destruct (key !! (index - 1)) as [c|]; [|by apply IH].
    destruct (new_nodes !! index) as [child|] eqn:Hchild; [|by apply IH].
    destruct (new_nodes !! (index - 1)) as [parent|] eqn:Hparent; [|by apply IH].
    apply list_elem_of_lookup_2 in Hchild, Hparent.
    apply Hnew in Hchild, Hparent.
    rewrite alter_app_r_alt by lia.
    set (ext1 := alter _ (parent - length h0) ext).
    destruct (IH ext1) as (ext' & E & Elen & Hc').
    + intros a Ha. specialize (Hnew a Ha). subst ext1.
      rewrite length_app, length_alter. rewrite length_app in Hnew. lia.
    + subst ext1. rewrite <- alter_app_r_alt by lia.
      apply closed_alter; [done|lia].
    + exists ext'. subst ext1. rewrite length_alter in Elen. done.
Qed.

(** ** [Put] and [Remove] extend the store *)

Lemma Put_extends h t key value :
  closed h → rooted h t →
  h `prefix_of` (Put h t key value).1 ∧
  closed (Put h t key value).1 ∧
  rooted (Put h t key value).1 (Put h t key value).2.
Proof.
  intros Hc Hr. unfold Put.
  set (k := strip_nul key). set (path := FindPath h t k).
  set (make := λ (h : heap) index,
         if index <? length path then Clone (deref h (at_index path index))
         else plain_node ∅).
  destruct (alloc_loop_spec make (length k) h) as (ext & E1 & Elen & E2 & Hc1);
    [|done|].
  { intros h0 index c child Hc0. unfold make.
    destruct (_ <? _); simpl; [by apply closed_deref|by rewrite lookup_empty]. }
  destruct (alloc_loop make (length k) h) as [h1 nodes]. simpl in *.
  subst h1 nodes.
  set (terminal := if length path =? S (length k) then _ else _).
  assert (closed ((h ++ ext) ++ [terminal])) as Hc2.
  { apply closed_app; [done|]. intros c child. subst terminal.
    destruct (_ =? _); simpl; [|by rewrite lookup_empty].
    intros H%closed_deref; [lia|done]. }
  rewrite <- app_assoc in Hc2.
  destruct (link_from_spec k (seq (length h) (length k) ++ [length (h ++ ext)])
              h (ext ++ [terminal])
              (length (seq (length h) (length k) ++ [length (h ++ ext)]) - 1))
    as (ext' & E3 & Elen' & Hc3); [|done|].
  { intros a. rewrite elem_of_app, elem_of_seq, list_elem_of_singleton.
    rewrite !length_app. simpl. lia. }
  rewrite <- app_assoc, E3. cbn [fst snd]. split_and!.
  - by exists ext'.
  - done.
  - intros a [= <-].
    assert (at_index (seq (length h) (length k) ++ [length (h ++ ext)]) 0
            = length h) as ->.
    { unfold at_index. rewrite length_app, Elen.
      destruct (length k); simpl; [lia|done]. }
    rewrite (length_app h ext'), Elen', (length_app ext). simpl. lia.
Qed.

Lemma Remove_extends h t key :
  closed h → rooted h t →
  h `prefix_of` (Remove h t key).1 ∧
  closed (Remove h t key).1 ∧
  rooted (Remove h t key).1 (Remove h t key).2.
Proof.
  intros Hc Hr. unfold Remove.
  set (k := strip_nul key). set (path := FindPath h t k).
  destruct (_ || _); [done|].
  set (sum := if bool_decide _ then _ else _).
  destruct (sum <=? 0) eqn:Hsum; [by split_and!|].
  apply Nat.leb_gt in Hsum.
  set (make := λ (h : heap) index, Clone (deref h (at_index path index))).
  destruct (alloc_loop_spec make (sum - 1) h) as (ext & E1 & Elen & E2 & Hc1);
    [|done|].
  { intros h0 index c child Hc0. unfold make. simpl. by apply closed_deref. }
  destruct (alloc_loop make (sum - 1) h) as [h1 nodes]. simpl in *.
  subst h1 nodes.
  set (terminal := if sum =? S (length k) then _ else _).
  assert (closed ((h ++ ext) ++ [terminal])) as Hc2.
  { apply closed_app; [done|]. intros c child. subst terminal.
    destruct (_ =? _); simpl.
    - intros H%closed_deref; [lia|done].
    - destruct (k !! (sum - 1)); simpl.
      + intros [_ H%closed_deref]%lookup_delete_Some; [lia|done].
      + intros H%closed_deref; [lia|done]. }
  rewrite <- app_assoc in Hc2.
  destruct (link_from_spec k (seq (length h) (sum - 1) ++ [length (h ++ ext)])
              h (ext ++ [terminal]) (sum - 1))
    as (ext' & E3 & Elen' & Hc3); [|done|].
  { intros a. rewrite elem_of_app, elem_of_seq, list_elem_of_singleton.
    rewrite !length_app. simpl. lia. }
  rewrite <- app_assoc, E3. cbn [fst snd]. split_and!.
  - by exists ext'.
  - done.
  - intros a [= <-].
    assert (at_index (seq (length h) (sum - 1) ++ [length (h ++ ext)]) 0
            = length h) as ->.
    { unfold at_index. rewrite length_app, Elen.
      destruct (sum - 1); simpl; [lia|done]. }
    rewrite (length_app h ext'), Elen', (length_app ext). simpl. lia.
Qed.

(** ** Reading an old trie in an extended store *)

Lemma deref_prefix (h h' : list TrieNode) a :
  h `prefix_of` h' → a < length h → deref h' a = deref h a.
Proof.
  intros [ext ->] Ha. unfold deref. by rewrite lookup_total_app_l.
Qed.

Lemma lookup_prefix (h h' : list TrieNode) a n :
  h `prefix_of` h' → h !! a = Some n → h' !! a = Some n.
Proof. intros [ext ->] Ha. by apply lookup_app_l_Some. Qed.

Lemma walk_prefix (h h' : list TrieNode) a key :
  closed h → h `prefix_of` h' → a < length h →
  walk h' a key = walk h a key ∧
  Forall (λ p, p < length h) (walk h a key).
Proof.
  intros Hc Hp. revert a. induction key as [|c key IH]; intros a Ha; [done|].
  simpl. rewrite (deref_prefix h h' a Hp Ha).
  destruct (children_ (deref h a) !! c) as [child|] eqn:Hchild; [|done].
  pose proof (closed_deref h a c child Hc Hchild) as Hlt.
  destruct (IH child Hlt) as [-> Hall]. split; [done|]. by constructor.
Qed.

Lemma FindPath_prefix (h h' : list TrieNode) t key :
  closed h → rooted h t → h `prefix_of` h' →
  FindPath h' t key = FindPath h t key ∧
  Forall (λ p, p < length h) (FindPath h t key).
Proof.
  intros Hc Hr Hp. destruct t as [a|]; simpl; [|done].
  destruct (walk_prefix h h' a key Hc Hp (Hr a eq_refl)) as [-> Hall].
  split; [done|]. constructor; [by apply Hr|done].
Qed.

Lemma back_elem_of path : path ≠ [] → back path ∈ path.
Proof.
  unfold back. intros Hne. destruct path as [|a path]; [done|]. clear Hne.
  revert a. induction path as [|b path IH]; intros a; simpl.
  - set_solver.
  - specialize (IH b). simpl in IH. set_solver.
Qed.

Lemma Get_prefix (h h' : list TrieNode) t T key :
  closed h → rooted h t → h `prefix_of` h' →
  Get T h' t key = Get T h t key.
Proof.
  intros Hc Hr Hp. unfold Get.
  destruct (FindPath_prefix h h' t (strip_nul key) Hc Hr Hp) as [-> Hall].
  destruct (Nat.eqb_spec (length (FindPath h t (strip_nul key)))
              (S (length (strip_nul key)))) as [Hlen|]; [|done].
  simpl. rewrite (deref_prefix h h'); [done..|].
  eapply Forall_forall in Hall; [exact Hall|].
  apply back_elem_of. intros E. by rewrite E in Hlen.
Qed.

(** ** Sequences of updates *)

Lemma apply_update_extends u (h : list TrieNode) t :
  closed h → rooted h t →
  h `prefix_of` (apply_update u (h, t)).1 ∧
  closed (apply_update u (h, t)).1 ∧
  rooted (apply_update u (h, t)).1 (apply_update u (h, t)).2.
Proof.
  intros Hc Hr. destruct u as [key value|key]; simpl.
  - by apply Put_extends.
  - by apply Remove_extends.
Qed.

Lemma apply_updates_extends us (h : list TrieNode) t :
  closed h → rooted h t →
  h `prefix_of` (apply_updates us (h, t)).1 ∧
  closed (apply_updates us (h, t)).1 ∧
  rooted (apply_updates us (h, t)).1 (apply_updates us (h, t)).2.
Proof.
  revert h t. induction us as [|u us IH]; intros h t Hc Hr; [done|].
  simpl. destruct (apply_update_extends u h t Hc Hr) as (Hp & Hc1 & Hr1).
  destruct (apply_update u (h, t)) as [h1 t1]. simpl in *.
  destruct (IH h1 t1 Hc1 Hr1) as (Hp' & Hc2 & Hr2).
  split_and!; [|done..]. by etrans.
Qed.

(** Scenario S5: the node holding the value 1 is one object, reached from
    both versions. *)
Example scenario_S5 :
  FindPath store_abd.1 store_abc.2 (key_of "abc") = [0; 1; 2; 3] ∧
  FindPath store_abd.1 store_abd.2 (key_of "abc") = [4; 5; 6; 3] ∧
  FindPath store_abd.1 store_abd.2 (key_of "abd") = [4; 5; 6; 7].
Proof. vm_compute. done. Qed.

Lemma store_abc_closed : closed store_abc.1 ∧ rooted store_abc.1 store_abc.2.
Proof.
  destruct (Put_extends [] empty (key_of "abc") (VUInt32 1)) as (_ & H1 & H2);
    [apply closed_nil|done|]. by split.
Qed.

(** ** Immutability *)

(** C9.  Start from a store whose pointers all lead to allocated objects and
    a trie [t] in it, and apply any sequence of [Put] and [Remove], each to
    the trie the previous one returned.  The resulting store is the old one
    followed by new objects: every object that existed before is unchanged.
    Hence [t.Get(k)] yields the same result afterwards as before, for every
    key and type, and so does every other trie of the old store. *)
Theorem updates_leave_published_tries_unchanged (h : list TrieNode) t us :
  closed h → rooted h t →
  let h' := (apply_updates us (h, t)).1 in
  h `prefix_of` h' ∧
  (∀ a n, h !! a = Some n → h' !! a = Some n) ∧
  (∀ T key, Get T h' t key = Get T h t key) ∧
  (∀ t0, rooted h t0 → ∀ T key, Get T h' t0 key = Get T h t0 key).
Proof.
  intros Hc Hr h'. subst h'.
  destruct (apply_updates_extends us h t Hc Hr) as (Hp & _ & _).
  split_and!.
  - done.
  - intros a n. by apply lookup_prefix.
  - intros T key. by apply Get_prefix.
  - intros t0 Hr0 T key. by apply Get_prefix.
Qed.

Lemma updates_leave_published_tries_unchanged_witness :
  let us := [DoPut (key_of "abd") (VUInt32 2); DoRemove (key_of "abc")] in
  let h' := (apply_updates us store_abc).1 in
  store_abc.1 `prefix_of` h' ∧
  (∀ a n, store_abc.1 !! a = Some n → h' !! a = Some n) ∧
  (∀ T key, Get T h' store_abc.2 key = Get T store_abc.1 store_abc.2 key) ∧
  (∀ t0, rooted store_abc.1 t0 →
     ∀ T key, Get T h' t0 key = Get T store_abc.1 t0 key).
Proof.
  intros us.
  apply (updates_leave_published_tries_unchanged store_abc.1 store_abc.2 us);
    apply store_abc_closed.
Defined.

Example old_version_still_reads :
  let us := [DoPut (key_of "abd") (VUInt32 2); DoRemove (key_of "abc")] in
  let after := apply_updates us store_abc in
  Get TUInt32 after.1 store_abc.2 (key_of "abc") = Some (VUInt32 1) ∧
  Get TUInt32 after.1 after.2 (key_of "abc") = None ∧
  Get TUInt32 after.1 after.2 (key_of "abd") = Some (VUInt32 2).
Proof. vm_compute. done. Qed.

End TrieHeapFacts.

(** * The trie in memory implements the trie as a value *)
Module TrieRefinement.
Import TrieHeap TrieHeapFacts.
#[local] Open Scope nat_scope.

(** ** Walking by addresses *)

Lemma addr_at_None (h : list TrieNode) key : addr_at h None key = None.
Proof. by destruct key. Qed.

Lemma addr_at_app (h : list TrieNode) o key1 key2 :
  addr_at h o (key1 ++ key2) = addr_at h (addr_at h o key1) key2.
Proof.
  revert o. induction key1 as [|c key1 IH]; intros o; [done|].
  destruct o as [a|]; simpl; [apply IH|by rewrite addr_at_None].
Qed.

Lemma FindPath_addr_cons (h : list TrieNode) a c key :
  FindPath h (Some a) (c :: key) =
    a :: FindPath h (children_ (deref h a) !! c) key.
Proof. simpl. by destruct (children_ (deref h a) !! c). Qed.

(** The path lists the addresses reached along the prefixes of the key. *)
Lemma FindPath_addr_lookup (h : list TrieNode) o key i :
  i ≤ length key → FindPath h o key !! i = addr_at h o (take i key).
Proof.
  revert o i. induction key as [|c key IH]; intros o i Hi.
  - simpl in Hi. replace i with 0 by lia. by destruct o.
  - destruct o as [a|]; [|by destruct i].
    rewrite FindPath_addr_cons. destruct i as [|i]; [done|].
    simpl. apply IH. simpl in Hi. lia.
Qed.

Lemma FindPath_length_le (h : list TrieNode) o key :
  length (FindPath h o key) ≤ S (length key).
Proof.
  revert o. induction key as [|c key IH]; intros [a|]; simpl; try lia.
  destruct (children_ (deref h a) !! c) as [ch|]; simpl; [|lia].
  specialize (IH (Some ch)). simpl in IH. lia.
Qed.

Lemma FindPath_lt (h : list TrieNode) o key i :
  i ≤ length key →
  (i <? length (FindPath h o key)) =
    bool_decide (is_Some (addr_at h o (take i key))).
Proof.
  intros Hi. rewrite <- (FindPath_addr_lookup h o key i Hi).
  destruct (Nat.ltb_spec i (length (FindPath h o key))) as [Hlt|Hge].
  - apply lookup_lt_is_Some_2 in Hlt. by rewrite bool_decide_eq_true_2.
  - apply lookup_ge_None_2 in Hge. rewrite Hge.
    rewrite bool_decide_eq_false_2; [done|]. by intros [? ?].
Qed.

Lemma FindPath_complete (h : list TrieNode) o key :
  (length (FindPath h o key) =? S (length key)) =
    bool_decide (is_Some (addr_at h o key)).
Proof.
  pose proof (FindPath_lt h o key (length key) (Nat.le_refl _)) as H.
  rewrite firstn_all in H. rewrite <- H.
  pose proof (FindPath_length_le h o key).
  destruct (Nat.eqb_spec (length (FindPath h o key)) (S (length key)));
    destruct (Nat.ltb_spec (length key) (length (FindPath h o key))); lia.
Qed.

Lemma FindPath_back (h : list TrieNode) o key a :
  addr_at h o key = Some a → back (FindPath h o key) = a.
Proof.
  intros Ha.
  pose proof (FindPath_addr_lookup h o key (length key) (Nat.le_refl _)) as H.
  rewrite firstn_all, Ha in H.
  pose proof (FindPath_length_le h o key) as Hle.
  apply lookup_lt_Some in H as Hlt.
  assert (length (FindPath h o key) = S (length key)) as Hlen by lia.
  unfold back. destruct (FindPath h o key) as [|x l] using rev_ind; [done|].
  rewrite last_last. rewrite length_app in Hlen. simpl in Hlen.
  rewrite lookup_app_r in H by lia.
  replace (length key - length l) with 0 in H by lia. by injection H.
Qed.

Lemma Get_addr_at T (h : list TrieNode) t key :
  Get T h t key =
    match addr_at h t (strip_nul key) with
    | Some a =>
        match value_ (deref h a) with
        | Some v => if decide (type_of v = T) then Some v else None
        | None => None
        end
    | None => None
    end.
Proof.
  unfold Get. rewrite FindPath_complete.
  destruct (addr_at h t (strip_nul key)) as [a|] eqn:Ha.
  - rewrite bool_decide_eq_true_2 by by eexists. simpl.
    by rewrite (FindPath_back h t _ a Ha).
  - rewrite bool_decide_eq_false_2; [done|]. by intros [? ?].
Qed.

(** ** The abstraction relation *)

Lemma represents_None (h : list TrieNode) : represents h None None.
Proof.
  intros key. unfold view_heap, view_tree.
  by rewrite addr_at_None, TrieFacts.get_node_None.
Qed.

Lemma represents_intro (h : list TrieNode) a n :
  value_ (deref h a) = Trie.value_ n →
  dom (children_ (deref h a)) = dom (Trie.children_ n) →
  (∀ c, represents h (children_ (deref h a) !! c) (Trie.children_ n !! c)) →
  represents h (Some a) (Some n).
Proof.
  intros Hv Hd Hch [|c key]; unfold view_heap, view_tree; simpl.
  - by rewrite Hv, Hd.
  - apply Hch.
Qed.

Lemma represents_child (h : list TrieNode) a n c :
  represents h (Some a) (Some n) →
  represents h (children_ (deref h a) !! c) (Trie.children_ n !! c).
Proof. intros H key. apply (H (c :: key)). Qed.

Lemma represents_root (h : list TrieNode) o t :
  represents h o t →
  match o, t with
  | Some a, Some n =>
      value_ (deref h a) = Trie.value_ n ∧
      dom (children_ (deref h a)) = dom (Trie.children_ n)
  | None, None => True
  | _, _ => False
  end.
Proof.
  intros H. specialize (H []). unfold view_heap, view_tree in H. simpl in H.
  destruct o, t; simpl in H; try done. by injection H.
Qed.

Lemma represents_at (h : list TrieNode) o t key :
  represents h o t → represents h (addr_at h o key) (Trie.get_node t key).
Proof.
  intros H key'. specialize (H (key ++ key')).
  unfold view_heap, view_tree in *.
  by rewrite addr_at_app, TrieFacts.get_node_app in H.
Qed.

Lemma addr_at_prefix (h h' : list TrieNode) o key :
  closed h → rooted h o → h `prefix_of` h' →
  addr_at h' o key = addr_at h o key ∧ rooted h (addr_at h o key).
Proof.
  intros Hc Hr Hp. revert o Hr. induction key as [|c key IH]; intros o Hr.
  - done.
  - destruct o as [a|]; simpl; [|done].
    rewrite (deref_prefix h h' a Hp (Hr a eq_refl)). apply IH.
    intros child Hchild. by apply (closed_deref h a c child).
Qed.

Lemma represents_prefix (h h' : list TrieNode) o t :
  closed h → rooted h o → h `prefix_of` h' →
  represents h o t → represents h' o t.
Proof.
  intros Hc Hr Hp H key. rewrite <- (H key). unfold view_heap.
  destruct (addr_at_prefix h h' o key Hc Hr Hp) as [-> Hra].
  destruct (addr_at h o key) as [a|]; simpl; [|done].
  by rewrite (deref_prefix h h' a Hp (Hra a eq_refl)).
Qed.

(** [Get] reads the same from a trie in memory and from the value it
    stands for. *)
Lemma Get_represents T (h : list TrieNode) o t key :
  represents h o t → Get T h o key = Trie.Get T t key.
Proof.
  intros H. rewrite Get_addr_at, TrieFacts.Get_unfold.
  specialize (H (strip_nul key)). unfold view_heap, view_tree in H.
  destruct (addr_at h o (strip_nul key)) as [a|],
    (Trie.get_node t (strip_nul key)) as [n|]; simpl in H; try done.
  injection H as Hv _. by rewrite Hv.
Qed.

(** ** What the loops leave in the store *)

(** When the allocated node does not depend on the objects allocated during
    the loop, the loop appends the nodes [make h 0], [make h 1], ... *)
Lemma alloc_loop_content make count (h : list TrieNode) :
  (∀ ext index, index < count → make (h ++ ext) index = make h index) →
  alloc_loop make count h =
    (h ++ (make h <$> seq 0 count), seq (length h) count).
Proof.
  intros Hmk. unfold alloc_loop. induction count as [|count IH].
  - simpl. by rewrite app_nil_r.
  - rewrite seq_S, foldl_app, IH by (intros; apply Hmk; lia). simpl.
    rewrite Hmk, fmap_app, app_assoc by lia. simpl.
    rewrite length_app, length_fmap, length_seq.
    change (length h :: seq (S (length h)) count)
      with (seq (length h) (S count)). by rewrite seq_S.
Qed.

Lemma link_from_S last key new_nodes (h : list TrieNode) :
  link_from (S last) key new_nodes h =
    link_from last key new_nodes (link_step key new_nodes h (S last)).
Proof.
  unfold link_from. rewrite seq_S. rewrite rev_app_distr. done.
Qed.

Lemma linked_0 base key ext : linked base key 0 ext = ext.
Proof.
  unfold linked. apply list_eq. intros i. rewrite list_lookup_imap.
  by destruct (ext !! i).
Qed.

Lemma linked_length base key m ext :
  length (linked base key m ext) = length ext.
Proof. unfold linked. apply length_imap. Qed.

Lemma link_from_content key (h ext : list TrieNode) last :
  last < length ext →
  link_from last key (seq (length h) (length ext)) (h ++ ext) =
    h ++ linked (length h) key last ext.
Proof.
  revert ext. induction last as [|last IH]; intros ext Hlast.
  - by rewrite linked_0.
  - rewrite link_from_S. unfold link_step.
    replace (S last - 1) with last by lia.
    rewrite !lookup_seq_lt by lia.
    destruct (key !! last) as [c|] eqn:Hc.
    + rewrite alter_app_r_alt by lia.
      replace (length h + last - length h) with last by lia.
      set (ext1 := alter _ last ext).
      assert (length ext1 = length ext) as Hlen1
        by (subst ext1; apply length_alter).
      rewrite <- Hlen1, IH by lia. f_equal.
      unfold linked. apply list_eq. intros i. rewrite !list_lookup_imap.
      subst ext1. rewrite list_lookup_alter.
      destruct (decide (last = i)) as [<-|Hne].
      * destruct (ext !! last) as [n|]; simpl; [|done].
        rewrite Nat.ltb_irrefl, Hc.
        by rewrite (proj2 (Nat.ltb_lt last (S last))) by lia.
      * destruct (ext !! i) as [n|]; simpl; [|done].
        destruct (Nat.ltb_spec i last), (Nat.ltb_spec i (S last)); try lia; done.
    + rewrite IH by lia. f_equal.
      unfold linked. apply list_eq. intros i. rewrite !list_lookup_imap.
      destruct (ext !! i) as [n|]; simpl; [|done].
      destruct (Nat.ltb_spec i last), (Nat.ltb_spec i (S last)); try lia; try done.
      replace i with last by lia. by rewrite Hc.
Qed.

(** ** [Put] *)

Lemma FindPath_allocated (h : list TrieNode) t key i a :
  closed h → rooted h t → FindPath h t key !! i = Some a → a < length h.
Proof.
  intros Hc Hr Hi.
  destruct (FindPath_prefix h h t key Hc Hr) as [_ Hall]; [done|].
  eapply Forall_forall in Hall; [exact Hall|]. by eapply list_elem_of_lookup_2.
Qed.

Lemma put_make_pre (h ext : list TrieNode) t key i :
  closed h → rooted h t → i ≤ length key →
  (if i <? length (FindPath h t key)
   then Clone (deref (h ++ ext) (at_index (FindPath h t key) i))
   else plain_node ∅) = put_pre h t key i.
Proof.
  intros Hc Hr Hi. unfold put_pre, at_index.
  rewrite (FindPath_lt h t key i Hi).
  pose proof (FindPath_addr_lookup h t key i Hi) as Hl.
  destruct (addr_at h t (take i key)) as [a|].
  - rewrite bool_decide_eq_true_2 by by eexists.
    rewrite (list_lookup_total_correct _ _ _ Hl).
    rewrite (deref_prefix h (h ++ ext)); [done|by eexists|].
    by eapply FindPath_allocated.
  - rewrite bool_decide_eq_false_2; [done|]. by intros [? ?].
Qed.

Lemma put_make_terminal (h ext : list TrieNode) t key value :
  closed h → rooted h t →
  (if length (FindPath h t key) =? S (length key)
   then node_with_value
          (children_ (deref (h ++ ext) (back (FindPath h t key)))) value
   else node_with_value ∅ value) = put_terminal h t key value.
Proof.
  intros Hc Hr. unfold put_terminal. rewrite FindPath_complete.
  destruct (addr_at h t key) as [a|] eqn:Ha.
  - rewrite bool_decide_eq_true_2 by by eexists.
    rewrite (FindPath_back h t key a Ha).
    rewrite (deref_prefix h (h ++ ext)); [done|by eexists|].
    destruct (addr_at_prefix h h t key Hc Hr) as [_ Hra]; [done|].
    apply Hra. done.
  - rewrite bool_decide_eq_false_2; [done|]. by intros [? ?].
Qed.

(** The store and the trie [Put] returns. *)
Lemma Put_content (h : list TrieNode) t key value :
  closed h → rooted h t →
  let k := strip_nul key in
  Put h t key value =
    (h ++ linked (length h) k (length k)
            ((put_pre h t k <$> seq 0 (length k)) ++ [put_terminal h t k value]),
     Some (length h)).
Proof.
  intros Hc Hr k. unfold Put. fold k.
  set (path := FindPath h t k).
  set (make := λ (h0 : list TrieNode) index,
         if index <? length path then Clone (deref h0 (at_index path index))
         else plain_node ∅).
  assert (Hstable : ∀ ext index, index < length k →
            make (h ++ ext) index = make h index).
  { intros ext index _. unfold make.
    destruct (Nat.ltb_spec index (length path)) as [Hlt|]; [|done].
    apply lookup_lt_is_Some_2 in Hlt as [a Ha]. unfold at_index.
    rewrite (list_lookup_total_correct _ _ _ Ha).
    rewrite (deref_prefix h (h ++ ext)); [done|by eexists|].
    by eapply FindPath_allocated. }
  rewrite (alloc_loop_content make (length k) h Hstable).
  unfold alloc. cbn [fst snd].
  assert (make h <$> seq 0 (length k) = put_pre h t k <$> seq 0 (length k)) as ->.
  { apply list_fmap_ext. intros j i Hi. apply lookup_seq in Hi as [Hi1 Hi2].
    simpl in Hi1. subst i.
    unfold make. rewrite <- (put_make_pre h [] t k j Hc Hr) by (simpl; lia).
    by rewrite app_nil_r. }
  rewrite (put_make_terminal h _ t k value Hc Hr).
  set (pre := put_pre h t k <$> seq 0 (length k)).
  assert (length pre = length k) as Hpre
    by (subst pre; by rewrite length_fmap, length_seq).
  rewrite (length_app h pre), Hpre, <- seq_S, <- app_assoc.
  rewrite length_seq. replace (S (length k) - 1) with (length k) by lia.
  replace (S (length k)) with (length (pre ++ [put_terminal h t k value]))
    by (rewrite length_app; simpl; lia).
  rewrite link_from_content by (rewrite length_app; simpl; lia).
  f_equal. rewrite length_app. simpl. unfold at_index.
  by replace (length pre + 1) with (S (length pre)) by lia.
Qed.

Lemma Put_new_object (h : list TrieNode) t k value i :
  i ≤ length k →
  deref (h ++ linked (length h) k (length k)
           ((put_pre h t k <$> seq 0 (length k)) ++ [put_terminal h t k value]))
        (length h + i) =
    match k !! i with
    | Some c =>
        mkTrieNode (<[c := length h + S i]> (children_ (put_pre h t k i)))
                   (value_ (put_pre h t k i))
    | None => put_terminal h t k value
    end.
Proof.
  intros Hi. unfold deref. rewrite list_lookup_total_alt.
  rewrite lookup_app_r by lia.
  replace (length h + i - length h) with i by lia.
  unfold linked. rewrite list_lookup_imap.
  destruct (k !! i) as [c|] eqn:Hc.
  - apply lookup_lt_Some in Hc as Hlt.
    rewrite lookup_app_l by (rewrite length_fmap, length_seq; lia).
    rewrite list_lookup_fmap, lookup_seq_lt by lia. simpl.
    by rewrite (proj2 (Nat.ltb_lt i (length k))) by lia.
  - apply lookup_ge_None_1 in Hc. assert (i = length k) as -> by lia.
    rewrite lookup_app_r by (rewrite length_fmap, length_seq; lia).
    rewrite length_fmap, length_seq, Nat.sub_diag. simpl.
    by rewrite Nat.ltb_irrefl.
Qed.

Lemma get_node_take_S t (k : list ascii) i c :
  k !! i = Some c →
  Trie.get_node t (take (S i) k) =
    match Trie.get_node t (take i k) with
    | Some n => Trie.children_ n !! c
    | None => None
    end.
Proof.
  intros Hc. rewrite (take_S_r k i c Hc), TrieFacts.get_node_app. simpl.
  by destruct (Trie.get_node t (take i k)).
Qed.

Lemma addr_at_take_S (h : list TrieNode) o (k : list ascii) i c :
  k !! i = Some c →
  addr_at h o (take (S i) k) =
    match addr_at h o (take i k) with
    | Some a => children_ (deref h a) !! c
    | None => None
    end.
Proof.
  intros Hc. rewrite (take_S_r k i c Hc), addr_at_app. simpl.
  by destruct (addr_at h o (take i k)).
Qed.

(** The objects [Put] leaves at the new addresses stand, position by
    position, for the nodes the value-level [Put] builds. *)
Lemma Put_represents_from (h : list TrieNode) t tp k value n i :
  closed h → rooted h t → represents h t tp →
  i + n = length k →
  represents
    (h ++ linked (length h) k (length k)
       ((put_pre h t k <$> seq 0 (length k)) ++ [put_terminal h t k value]))
    (Some (length h + i))
    (Some (Trie.put_node (Trie.get_node tp (take i k)) (drop i k) value)).
Proof.
  intros Hc Hr Hrep. set (h' := h ++ linked _ _ _ _).
  assert (Hp : h `prefix_of` h') by by eexists.
  assert (Hobj : ∀ j, j ≤ length k →
            deref h' (length h + j) =
              match k !! j with
              | Some c =>
                  mkTrieNode (<[c := length h + S j]> (children_ (put_pre h t k j)))
                             (value_ (put_pre h t k j))
              | None => put_terminal h t k value
              end).
  { intros j Hj. subst h'. by apply Put_new_object. }
  clearbody h'.
  assert (Hold : ∀ key c,
            represents h'
              (match addr_at h t key with
               | Some a => children_ (deref h a) !! c | None => None end)
              (match Trie.get_node tp key with
               | Some m => Trie.children_ m !! c | None => None end)).
  { intros key c. pose proof (represents_at h t tp key Hrep) as Hat.
    pose proof (represents_root _ _ _ Hat) as Hroot.
    destruct (addr_at_prefix h h t key Hc Hr) as [_ Hra]; [done|].
    destruct (addr_at h t key) as [a|], (Trie.get_node tp key) as [m|];
      try done; try apply represents_None.
    apply (represents_prefix h h'); [done| |done|by apply represents_child].
    intros child Hchild. by eapply closed_deref. }
  revert i. induction n as [|n IH]; intros i Hi.
  - (* the terminal *)
    assert (i = length k) as -> by lia.
    rewrite firstn_all, drop_all.
    pose proof (represents_root _ _ _ (represents_at h t tp k Hrep)) as Hroot.
    specialize (Hobj (length k) (Nat.le_refl _)).
    rewrite (lookup_ge_None_2 k (length k)) in Hobj by lia.
    unfold put_terminal in Hobj.
    pose proof (λ c, Hold k c) as Hold'.
    destruct (addr_at h t k) as [a|], (Trie.get_node tp k) as [m|]; try done;
      apply represents_intro; rewrite Hobj; simpl.
    + done.
    + by destruct Hroot.
    + apply Hold'.
    + done.
    + by rewrite !dom_empty_L.
    + intros c. rewrite !lookup_empty. apply represents_None.
  - (* an inner position *)
    assert (i < length k) as Hlt by lia.
    destruct (lookup_lt_is_Some_2 k i Hlt) as [c Hc'].
    rewrite (drop_S k c i Hc').
    pose proof (represents_root _ _ _ (represents_at h t tp (take i k) Hrep))
      as Hroot.
    specialize (IH (S i)). rewrite (get_node_take_S tp k i c Hc') in IH.
    specialize (Hobj i (Nat.lt_le_incl _ _ Hlt)). rewrite Hc' in Hobj.
    unfold put_pre in Hobj.
    pose proof (λ c0, Hold (take i k) c0) as Hold'.
    destruct (addr_at h t (take i k)) as [a|],
      (Trie.get_node tp (take i k)) as [m|]; try done;
      apply represents_intro; rewrite Hobj;
      cbn [Trie.put_node Trie.children_ Trie.value_ children_ value_
           from_option Trie.Clone Trie.plain_node Clone plain_node].
    + by destruct Hroot.
    + rewrite !dom_insert_L. destruct Hroot as [_ ->]. done.
    + intros c0. destruct (decide (c = c0)) as [<-|Hne].
      * rewrite !lookup_insert_eq. apply IH. lia.
      * rewrite !lookup_insert_ne by done. apply Hold'.
    + done.
    + by rewrite !dom_insert_L, !dom_empty_L.
    + intros c0. destruct (decide (c = c0)) as [<-|Hne].
      * rewrite !lookup_insert_eq. rewrite lookup_empty. apply IH. lia.
      * rewrite !lookup_insert_ne, !lookup_empty by done. apply represents_None.
Qed.

(** [Put] in memory implements [Put] on values. *)
Lemma Put_refines (h : list TrieNode) t tp key value :
  closed h → rooted h t → represents h t tp →
  represents (Put h t key value).1 (Put h t key value).2
             (Trie.Put tp key value).
Proof.
  intros Hc Hr Hrep. rewrite (Put_content h t key value Hc Hr).
  rewrite TrieFacts.Put_unfold. cbn [fst snd].
  pose proof (Put_represents_from h t tp (strip_nul key) value
                (length (strip_nul key)) 0 Hc Hr Hrep eq_refl) as H.
  by rewrite Nat.add_0_r in H.
Qed.

(** ** [Remove] *)

Lemma prune_le (h : list TrieNode) path sum : prune h path sum ≤ sum.
Proof.
  induction sum as [|sum IH]; simpl; [done|]. destruct (_ && _); lia.
Qed.

Lemma kept_bounds (h : list TrieNode) path : kept h path ≤ length path.
Proof.
  unfold kept. case_bool_decide; [|done].
  pose proof (prune_le h path (length path - 1)). lia.
Qed.

(** The store and the trie [Remove] returns. *)
Lemma Remove_content (h : list TrieNode) t key :
  closed h → rooted h t →
  let k := strip_nul key in
  let path := FindPath h t k in
  Remove h t key =
    if negb (length path =? S (length k))
       || negb (is_value_node_ (deref h (back path)))
    then (h, t)
    else if kept h path <=? 0 then (h, empty)
    else (h ++ linked (length h) k (kept h path - 1)
                 ((remove_pre h path <$> seq 0 (kept h path - 1))
                  ++ [remove_last h path k (kept h path)]),
          Some (length h)).
Proof.
  intros Hc Hr k path. unfold Remove. fold k. fold path. fold (kept h path).
  destruct (negb _ || _) eqn:Hcond; [done|].
  destruct (Nat.leb_spec (kept h path) 0) as [|Hpos]; [done|].
  pose proof (kept_bounds h path) as Hle.
  assert (Hstable : ∀ ext index, index < length path →
            deref (h ++ ext) (at_index path index)
            = deref h (at_index path index)).
  { intros ext index Hlt.
    apply lookup_lt_is_Some_2 in Hlt as [a Ha]. unfold at_index.
    rewrite (list_lookup_total_correct _ _ _ Ha).
    rewrite (deref_prefix h (h ++ ext)); [done|by eexists|].
    by eapply FindPath_allocated. }
  rewrite (alloc_loop_content
             (λ h0 index, Clone (deref h0 (at_index path index)))).
  2:{ intros ext index Hlt. simpl. rewrite Hstable; [done|lia]. }
  unfold alloc. cbn [fst snd].
  fold (remove_pre h path).
  set (pre := remove_pre h path <$> seq 0 (kept h path - 1)).
  assert (length pre = kept h path - 1) as Hpre
    by (subst pre; by rewrite length_fmap, length_seq).
  rewrite !Hstable by lia. fold (remove_last h path k (kept h path)).
  rewrite (length_app h pre), Hpre, <- seq_S, <- app_assoc.
  replace (S (kept h path - 1))
    with (length (pre ++ [remove_last h path k (kept h path)]))
    by (rewrite length_app; simpl; lia).
  rewrite link_from_content by (rewrite length_app; simpl; lia).
  f_equal. rewrite length_app. simpl. unfold at_index.
  by replace (length pre + 1) with (S (length pre)) by lia.
Qed.

Lemma Remove_new_object (h : list TrieNode) path k sum i :
  0 < sum → i ≤ sum - 1 →
  deref (h ++ linked (length h) k (sum - 1)
           ((remove_pre h path <$> seq 0 (sum - 1))
            ++ [remove_last h path k sum]))
        (length h + i) =
    if i <? sum - 1 then
      match k !! i with
      | Some c =>
          mkTrieNode (<[c := length h + S i]> (children_ (remove_pre h path i)))
                     (value_ (remove_pre h path i))
      | None => remove_pre h path i
      end
    else remove_last h path k sum.
Proof.
  intros Hpos Hi. unfold deref. rewrite list_lookup_total_alt.
  rewrite lookup_app_r by lia.
  replace (length h + i - length h) with i by lia.
  unfold linked. rewrite list_lookup_imap.
  destruct (Nat.ltb_spec i (sum - 1)) as [Hlt|Hge].
  - rewrite lookup_app_l by (rewrite length_fmap, length_seq; lia).
    rewrite list_lookup_fmap, lookup_seq_lt by lia. done.
  - assert (i = sum - 1) as -> by lia.
    rewrite lookup_app_r by (rewrite length_fmap, length_seq; lia).
    rewrite length_fmap, length_seq, Nat.sub_diag. done.
Qed.

Section remove_refines.
Variables (h : list TrieNode) (t : option nat) (tp : Trie.Trie) (k : list ascii).
Hypothesis Hc : closed h.
Hypothesis Hr : rooted h t.
Hypothesis Hrep : represents h t tp.

(** Position [i] of the two paths: the node in memory and the node of the
    value it stands for. *)
Lemma path_position i a :
  i ≤ length k → FindPath h t k !! i = Some a →
  ∃ n, Trie.FindPath tp k !! i = Some n ∧
       Trie.get_node tp (take i k) = Some n ∧
       value_ (deref h a) = Trie.value_ n ∧
       dom (children_ (deref h a)) = dom (Trie.children_ n) ∧
       (∀ c, represents h (children_ (deref h a) !! c) (Trie.children_ n !! c)).
Proof.
  intros Hi Ha. rewrite FindPath_addr_lookup in Ha by done.
  pose proof (represents_at h t tp (take i k) Hrep) as Hat.
  pose proof (represents_root _ _ _ Hat) as Hroot. rewrite Ha in Hat, Hroot.
  destruct (Trie.get_node tp (take i k)) as [n|] eqn:Hn; [|done].
  exists n. rewrite TrieFacts.FindPath_lookup by done.
  destruct Hroot as [Hv Hd]. split_and!; try done.
  intros c. by apply represents_child.
Qed.

Lemma path_complete :
  (length (FindPath h t k) =? S (length k)) =
  (length (Trie.FindPath tp k) =? S (length k)).
Proof.
  rewrite FindPath_complete.
  pose proof (represents_root _ _ _ (represents_at h t tp k Hrep)) as Hroot.
  pose proof (TrieFacts.FindPath_lookup tp k (length k) (Nat.le_refl _)) as Hl.
  rewrite firstn_all in Hl.
  pose proof (TrieFacts.FindPath_length tp k) as Hle.
  destruct (addr_at h t k) as [a|], (Trie.get_node tp k) as [n|] eqn:Hn;
    try done.
  - rewrite bool_decide_eq_true_2 by by eexists.
    apply lookup_lt_Some in Hl. symmetry. apply Nat.eqb_eq. lia.
  - rewrite bool_decide_eq_false_2 by by intros [? ?].
    apply lookup_ge_None_1 in Hl. symmetry. apply Nat.eqb_neq. lia.
Qed.

Hypothesis Hcomplete : length (FindPath h t k) = S (length k).

Lemma path_complete_tree : length (Trie.FindPath tp k) = S (length k).
Proof.
  pose proof path_complete as H. rewrite Hcomplete, Nat.eqb_refl in H.
  symmetry in H. by apply Nat.eqb_eq in H.
Qed.

Lemma path_at i :
  i ≤ length k →
  ∃ a n, FindPath h t k !! i = Some a ∧
         at_index (FindPath h t k) i = a ∧
         Trie.at_index (Trie.FindPath tp k) i = n ∧
         Trie.get_node tp (take i k) = Some n ∧
         value_ (deref h a) = Trie.value_ n ∧
         dom (children_ (deref h a)) = dom (Trie.children_ n) ∧
         (∀ c, represents h (children_ (deref h a) !! c)
                 (Trie.children_ n !! c)).
Proof.
  intros Hi.
  destruct (lookup_lt_is_Some_2 (FindPath h t k) i) as [a Ha]; [lia|].
  destruct (path_position i a Hi Ha) as (n & Hn & Hg & Hv & Hd & Hch).
  exists a, n. split_and!; try done.
  - unfold at_index. by apply list_lookup_total_correct.
  - unfold Trie.at_index. by apply list_lookup_total_correct.
Qed.

Lemma size_children a n :
  dom (children_ (deref h a)) = dom (Trie.children_ n) →
  size (children_ (deref h a)) = size (Trie.children_ n).
Proof. intros Hd. by rewrite <- !size_dom, Hd. Qed.

Lemma prune_tree sum :
  sum ≤ S (length k) →
  prune h (FindPath h t k) sum = Trie.prune (Trie.FindPath tp k) sum.
Proof.
  induction sum as [|sum IH]; intros Hs; [done|]. simpl.
  destruct (path_at sum) as (a & n & _ & -> & -> & _ & Hv & Hd & _); [lia|].
  rewrite (size_children a n Hd), IH by lia.
  unfold is_value_node_, Trie.is_value_node_. by rewrite Hv.
Qed.

Lemma kept_tree : kept h (FindPath h t k) = Trie.kept (Trie.FindPath tp k).
Proof.
  unfold kept, Trie.kept. rewrite Hcomplete, path_complete_tree.
  replace (S (length k) - 1) with (length k) by lia.
  destruct (path_at (length k)) as (a & n & _ & -> & -> & _ & _ & Hd & _);
    [lia|].
  rewrite prune_tree by lia.
  assert (children_ (deref h a) = ∅ ↔ Trie.children_ n = ∅) as Hiff.
  { rewrite <- !dom_empty_iff_L. by rewrite Hd. }
  by rewrite (bool_decide_ext _ _ Hiff).
Qed.

Lemma terminal_value :
  is_value_node_ (deref h (back (FindPath h t k))) =
  Trie.is_value_node_ (Trie.back (Trie.FindPath tp k)).
Proof.
  destruct (path_at (length k)) as (a & n & Ha & _ & _ & Hn & Hv & _); [lia|].
  rewrite FindPath_addr_lookup, firstn_all in Ha by done.
  rewrite (FindPath_back h t k a Ha).
  pose proof (TrieFacts.node_at_get_node tp k) as Hb. unfold Trie.node_at in Hb.
  rewrite path_complete_tree, Nat.eqb_refl, firstn_all in *.
  rewrite Hn in Hb. injection Hb as ->.
  unfold is_value_node_, Trie.is_value_node_. by rewrite Hv.
Qed.

Lemma old_children_represented (h' : list TrieNode) i a n c :
  h `prefix_of` h' →
  i ≤ length k → FindPath h t k !! i = Some a →
  Trie.get_node tp (take i k) = Some n →
  represents h' (children_ (deref h a) !! c) (Trie.children_ n !! c).
Proof.
  intros Hp Hi Ha Hn.
  destruct (path_position i a Hi Ha) as (n' & _ & Hn' & _ & _ & Hch).
  rewrite Hn in Hn'. injection Hn' as <-.
  apply (represents_prefix h h'); [done| |done|apply Hch].
  intros child Hchild. by eapply closed_deref.
Qed.

Lemma child_on_path i c n :
  S i ≤ length k → k !! i = Some c →
  Trie.get_node tp (take i k) = Some n →
  ∃ n', Trie.children_ n !! c = Some n' ∧
        Trie.get_node tp (take (S i) k) = Some n'.
Proof.
  intros Hi Hc' Hn.
  destruct (path_at (S i) Hi) as (_ & n' & _ & _ & _ & Hn' & _).
  exists n'. split; [|done].
  by rewrite (get_node_take_S tp k i c Hc'), Hn in Hn'.
Qed.

(** The objects [Remove] leaves at the new addresses stand, position by
    position, for what the value-level [Remove] makes of the path nodes. *)
Lemma Remove_represents_from m i n :
  let sum := kept h (FindPath h t k) in
  0 < sum → i + m = sum - 1 →
  Trie.get_node tp (take i k) = Some n →
  represents
    (h ++ linked (length h) k (sum - 1)
       ((remove_pre h (FindPath h t k) <$> seq 0 (sum - 1))
        ++ [remove_last h (FindPath h t k) k sum]))
    (Some (length h + i))
    (Trie.remove_node n (drop i k)).
Proof.
  intros sum Hpos. set (h' := h ++ linked _ _ _ _).
  assert (Hp : h `prefix_of` h') by by eexists.
  assert (Hobj : ∀ j, j ≤ sum - 1 →
            deref h' (length h + j) =
              if j <? sum - 1 then
                match k !! j with
                | Some c =>
                    mkTrieNode
                      (<[c := length h + S j]>
                         (children_ (remove_pre h (FindPath h t k) j)))
                      (value_ (remove_pre h (FindPath h t k) j))
                | None => remove_pre h (FindPath h t k) j
                end
              else remove_last h (FindPath h t k) k sum).
  { intros j Hj. subst h'. by apply Remove_new_object. }
  clearbody h'.
  pose proof (kept_bounds h (FindPath h t k)) as Hle. fold sum in Hle.
  rewrite Hcomplete in Hle.
  pose proof kept_tree as Hkept. fold sum in Hkept.
  pose proof path_complete_tree as Hlen.
  assert (Hgone : ∀ j nj, j ≤ length k →
            Trie.get_node tp (take j k) = Some nj →
            Trie.remove_node nj (drop j k) = None ↔ sum ≤ j).
  { intros j nj Hj Hnj. rewrite Hkept. by apply TrieFacts.remove_node_None. }
  revert i n. induction m as [|m IH]; intros i n Hi Hn.
  - (* the last node kept *)
    assert (i = sum - 1) as -> by lia.
    destruct (path_at (sum - 1)) as (a & n' & Ha & Hat & _ & Hn' & Hv & Hd & _);
      [lia|].
    rewrite Hn in Hn'. injection Hn' as <-.
    pose proof (λ c, old_children_represented h' (sum - 1) a n c Hp
                       ltac:(lia) Ha Hn) as Hold.
    specialize (Hobj (sum - 1) (Nat.le_refl _)).
    rewrite Nat.ltb_irrefl in Hobj. unfold remove_last in Hobj.
    rewrite Hat in Hobj.
    destruct (Nat.eqb_spec sum (S (length k))) as [Hs|Hs].
    + (* the terminal stays, without its value *)
      replace (sum - 1) with (length k) in * by lia.
      rewrite drop_all in *.
      pose proof (Hgone (length k) n (Nat.le_refl _) Hn) as Hg.
      rewrite drop_all in Hg. simpl in *.
      case_bool_decide as He;
        [destruct Hg as [Hg _]; specialize (Hg eq_refl); lia|].
      apply represents_intro; rewrite Hobj; simpl; done.
    + (* the node above the pruned run loses the edge into it *)
      assert (sum - 1 < length k) as Hlt by lia.
      destruct (lookup_lt_is_Some_2 k (sum - 1) Hlt) as [c Hc'].
      rewrite Hc' in Hobj. rewrite (drop_S k c (sum - 1) Hc').
      destruct (child_on_path (sum - 1) c n) as (n' & Hch' & Hn'); [lia|done..|].
      pose proof (Hgone (sum - 1) n ltac:(lia) Hn) as Hg.
      rewrite (drop_S k c (sum - 1) Hc') in Hg.
      pose proof (Hgone (S (sum - 1)) n' ltac:(lia) Hn') as Hg'.
      cbn [Trie.remove_node] in *. rewrite Hch' in *.
      rewrite (proj2 Hg') in * by lia.
      destruct (negb (Trie.is_value_node_ n) && _);
        [destruct Hg as [Hg _]; specialize (Hg eq_refl); lia|].
      apply represents_intro; rewrite Hobj; simpl.
      * done.
      * by rewrite !dom_delete_L, Hd.
      * intros c0. destruct (decide (c = c0)) as [<-|Hne].
        -- rewrite !lookup_delete_eq. apply represents_None.
        -- rewrite !lookup_delete_ne by done. apply Hold.
  - (* a node above it *)
    assert (i < sum - 1) as Hlt by lia.
    destruct (path_at i) as (a & n' & Ha & Hat & _ & Hn' & Hv & Hd & _); [lia|].
    rewrite Hn in Hn'. injection Hn' as <-.
    pose proof (λ c, old_children_represented h' i a n c Hp
                       ltac:(lia) Ha Hn) as Hold.
    specialize (Hobj i ltac:(lia)).
    rewrite (proj2 (Nat.ltb_lt i (sum - 1)) Hlt) in Hobj.
    destruct (lookup_lt_is_Some_2 k i ltac:(lia)) as [c Hc'].
    rewrite Hc' in Hobj. unfold remove_pre in Hobj. rewrite Hat in Hobj.
    rewrite (drop_S k c i Hc').
    destruct (child_on_path i c n) as (n' & Hch' & Hn'); [lia|done..|].
    pose proof (Hgone (S i) n' ltac:(lia) Hn') as Hg'.
    specialize (IH (S i) n' ltac:(lia) Hn').
    cbn [Trie.remove_node]. rewrite Hch'.
    destruct (Trie.remove_node n' (drop (S i) k)) as [child'|];
      [|destruct Hg' as [Hg' _]; specialize (Hg' eq_refl); lia].
    apply represents_intro; rewrite Hobj; simpl.
    + done.
    + by rewrite !dom_insert_L, Hd.
    + intros c0. destruct (decide (c = c0)) as [<-|Hne].
      * rewrite !lookup_insert_eq. apply IH.
      * rewrite !lookup_insert_ne by done. apply Hold.
Qed.

End remove_refines.

(** [Remove] in memory implements [Remove] on values. *)
Lemma Remove_refines (h : list TrieNode) t tp key :
  closed h → rooted h t → represents h t tp →
  represents (Remove h t key).1 (Remove h t key).2 (Trie.Remove tp key).
Proof.
  intros Hc Hr Hrep. rewrite (Remove_content h t key Hc Hr).
  rewrite TrieFacts.Remove_eq. set (k := strip_nul key).
  rewrite <- (path_complete h t tp k Hrep).
  destruct (Nat.eqb_spec (length (FindPath h t k)) (S (length k)))
    as [Hlen|Hlen]; [|done].
  cbn [negb orb].
  rewrite <- (terminal_value h t tp k) by done.
  destruct (is_value_node_ _); [|done]. cbn [negb].
  pose proof (kept_tree h t tp k Hrep Hlen) as Hkept.
  pose proof (path_complete_tree h t tp k Hrep Hlen) as Hlen'.
  destruct tp as [n0|]; [|done].
  rewrite (TrieFacts.remove_body_node k n0 Hlen').
  destruct (Nat.leb_spec (kept h (FindPath h t k)) 0) as [Hz|Hpos].
  - cbn [fst snd].
    assert (Trie.remove_node n0 k = None) as ->; [|apply represents_None].
    apply (TrieFacts.remove_node_None (Some n0) k 0 n0); [done|lia|done|].
    rewrite <- Hkept. lia.
  - cbn [fst snd].
    pose proof (Remove_represents_from h t (Some n0) k Hc Hrep Hlen
                  (kept h (FindPath h t k) - 1) 0 n0) as H.
    rewrite Nat.add_0_r in H. apply H; [lia|lia|done].
Qed.

(** ** Sequences of updates *)

Lemma represents_empty : represents [] empty Trie.empty.
Proof. apply represents_None. Qed.

(** Applying the same updates in memory and to the value keeps the trie in
    memory standing for the value. *)
Lemma updates_refine us (h : list TrieNode) t tp :
  closed h → rooted h t → represents h t tp →
  represents (apply_updates us (h, t)).1 (apply_updates us (h, t)).2
             (apply_updates_tree us tp).
Proof.
  revert h t tp. induction us as [|u us IH]; intros h t tp Hc Hr Hrep; [done|].
  simpl. destruct (apply_update_extends u h t Hc Hr) as (_ & Hc1 & Hr1).
  assert (represents (apply_update u (h, t)).1 (apply_update u (h, t)).2
            (apply_update_tree u tp)) as Hrep1.
  { destruct u as [key value|key]; simpl.
    - by apply Put_refines.
    - by apply Remove_refines. }
  destruct (apply_update u (h, t)) as [h1 t1]. simpl in *. by apply IH.
Qed.

(** Whatever sequence of [Put] and [Remove] builds a trie from the empty
    one, [Get] on the trie in memory returns what [Get] returns on the trie
    value built by the same sequence. *)
Lemma Get_refines us T key :
  Get T (apply_updates us ([], empty)).1 (apply_updates us ([], empty)).2 key
  = Trie.Get T (apply_updates_tree us Trie.empty) key.
Proof.
  apply Get_represents, updates_refine;
    [apply closed_nil|done|apply represents_empty].
Qed.

Lemma reachable_apply_updates_tree us t :
  Trie.reachable t → Trie.reachable (apply_updates_tree us t).
Proof.
  revert t. induction us as [|u us IH]; intros t Ht; [done|].
  simpl. apply IH. destruct u; by constructor.
Qed.

End TrieRefinement.

(** * Further laws of the persistent trie *)
Module TrieLaws.
Import Trie TrieFacts.
#[local] Open Scope nat_scope.

(** ** Reading a value *)

Lemma Get_value_at T t key :
  Get T t key =
    (get_node t (strip_nul key) ≫= value_) ≫=
      (λ v, if decide (type_of v = T) then Some v else None).
Proof.
  rewrite Get_unfold. destruct (get_node t (strip_nul key)) as [n|]; [|done].
  simpl. by destruct (value_ n).
Qed.

Lemma strip_nul_snoc key : strip_nul (key ++ [zero]) = key.
Proof.
  unfold strip_nul. rewrite last_last, removelast_last.
  rewrite (bool_decide_eq_true_2 (zero = zero)) by done.
  rewrite (bool_decide_eq_false_2 (key ++ [zero] = [])); [done|].
  by destruct key.
Qed.

Lemma strip_nul_fixed key :
  strip_nul key = key ↔ key = [] ∨ List.last key zero ≠ zero.
Proof.
  unfold strip_nul. destruct key as [|c key] using rev_ind; [naive_solver|].
  clear IHkey. rewrite last_last, removelast_last.
  rewrite (bool_decide_eq_false_2 (key ++ [c] = [])) by by destruct key.
  simpl. case_bool_decide as Hc.
  - subst c. split; [|naive_solver by (destruct key; done)].
    intros H. apply (f_equal length) in H. rewrite length_app in H.
    simpl in H. lia.
  - split; [by right|done].
Qed.

(** ** Keys other than the one written *)

Lemma value_at_put_other o key value key' :
  key ≠ key' →
  get_node (Some (put_node o key value)) key' ≫= value_
  = get_node o key' ≫= value_.
Proof.
  revert o key'. induction key as [|c key IH]; intros o key' Hne.
  - destruct key' as [|c' key']; [done|]. simpl.
    destruct o as [n|]; simpl; [done|].
    by rewrite lookup_empty, get_node_None.
  - destruct key' as [|c' key']; simpl.
    + by destruct o.
    + destruct (decide (c' = c)) as [->|Hc].
      * rewrite lookup_insert_eq, IH by congruence.
        destruct o as [n|]; simpl; [done|].
        by rewrite lookup_empty, get_node_None.
      * rewrite lookup_insert_ne by done.
        destruct o as [n|]; simpl; [done|].
        by rewrite lookup_empty, get_node_None.
Qed.

Lemma size_1_singleton (m : gmap ascii TrieNode) c x :
  size m = 1 → m !! c = Some x → m = {[c := x]}.
Proof.
  intros Hs Hc. rewrite <- (insert_delete_id m c x Hc).
  assert (delete c m = ∅) as ->; [|by rewrite insert_empty].
  apply map_size_empty_inv. by rewrite map_size_delete, Hc, Hs.
Qed.

Lemma size_1_lookup_other (m : gmap ascii TrieNode) c c' x :
  size m = 1 → m !! c = Some x → c' ≠ c → m !! c' = None.
Proof.
  intros Hs Hc Hne. rewrite (size_1_singleton m c x Hs Hc).
  by apply lookup_singleton_ne.
Qed.

Lemma value_at_remove_other n key key' :
  key ≠ key' →
  get_node (remove_node n key) key' ≫= value_
  = get_node (Some n) key' ≫= value_.
Proof.
  revert n key'. induction key as [|c key IH]; intros n key' Hne.
  - destruct key' as [|c' key']; [done|]. simpl.
    case_bool_decide as He; simpl; [|done].
    by rewrite He, lookup_empty, get_node_None.
  - simpl. destruct (children_ n !! c) as [child|] eqn:Hc; [|done].
    pose proof (IH child) as IHc.
    destruct (remove_node child key) as [child'|] eqn:Hr.
    + destruct key' as [|c' key']; [done|]. simpl.
      destruct (decide (c' = c)) as [->|Hcc].
      * rewrite lookup_insert_eq, Hc. apply IHc. congruence.
      * by rewrite lookup_insert_ne.
    + destruct (passed n) eqn:Hp; fold (passed n); rewrite Hp.
      * apply passed_true in Hp as [Hv Hs].
        destruct key' as [|c' key']; simpl.
        { unfold is_value_node_ in Hv. by destruct (value_ n). }
        destruct (decide (c' = c)) as [->|Hcc].
        -- rewrite Hc, <- IHc by congruence. by rewrite get_node_None.
        -- by rewrite (size_1_lookup_other _ c c' child), get_node_None.
      * destruct key' as [|c' key']; [done|]. simpl.
        destruct (decide (c' = c)) as [->|Hcc].
        -- rewrite lookup_delete_eq, Hc, <- IHc by congruence.
           by rewrite !get_node_None.
        -- by rewrite lookup_delete_ne.
Qed.

(** ** Writing twice *)

Lemma put_node_twice o key v1 v2 :
  put_node (Some (put_node o key v1)) key v2 = put_node o key v2.
Proof.
  revert o. induction key as [|c key IH]; intros o; [done|].
  simpl. rewrite lookup_insert_eq, IH, insert_insert_eq. done.
Qed.

Lemma put_node_commute o key1 v1 key2 v2 :
  key1 ≠ key2 →
  put_node (Some (put_node o key1 v1)) key2 v2
  = put_node (Some (put_node o key2 v2)) key1 v1.
Proof.
  revert o key2. induction key1 as [|c1 key1 IH]; intros o key2 Hne.
  - destruct key2 as [|c2 key2]; [done|]. simpl. by destruct o.
  - destruct key2 as [|c2 key2]; simpl; [by destruct o|].
    destruct (decide (c1 = c2)) as [->|Hc].
    + rewrite !lookup_insert_eq, !insert_insert_eq.
      rewrite IH by congruence. done.
    + rewrite (lookup_insert_ne _ c1 c2), (lookup_insert_ne _ c2 c1) by done.
      f_equal. by apply insert_insert_ne.
Qed.

(** ** Writing back what was removed *)

Lemma put_remove_node n key m value :
  get_node (Some n) key = Some m → value_ m = Some value →
  put_node (remove_node n key) key value = n.
Proof.
  revert n. induction key as [|c key IH]; intros n Hm Hv.
  - simpl in *. injection Hm as ->. destruct m as [ch v]. simpl in *. subst v.
    case_bool_decide as He; simpl; [by rewrite He|done].
  - simpl in *. destruct (children_ n !! c) as [child|] eqn:Hc;
      [|by rewrite get_node_None in Hm].
    specialize (IH child Hm Hv).
    destruct (remove_node child key) as [child'|] eqn:Hr; simpl.
    + rewrite lookup_insert_eq, IH, insert_insert_eq, insert_id by done.
      by destruct n.
    + destruct (passed n) eqn:Hp; fold (passed n); rewrite Hp; simpl.
      * apply passed_true in Hp as [Hval Hs].
        rewrite lookup_empty, IH.
        destruct n as [ch v]. simpl in *.
        rewrite (size_1_singleton ch c child Hs Hc).
        unfold is_value_node_ in Hval. simpl in Hval.
        destruct v; [done|]. by rewrite insert_empty.
      * rewrite lookup_delete_eq, IH, insert_delete_eq, insert_id by done.
        by destruct n.
Qed.

(** X20.  A [Put] leaves every other key as it was: under a key different
    from the one written (after the trailing NUL is dropped from both),
    [Get] returns what it returned before, for every requested type. *)
Theorem Put_keeps_other_keys t key value key' T :
  strip_nul key ≠ strip_nul key' →
  Get T (Put t key value) key' = Get T t key'.
Proof.
  intros Hne. rewrite !Get_value_at, Put_unfold.
  by rewrite value_at_put_other.
Qed.

Lemma Put_keeps_other_keys_witness :
  Get TUInt32 (Put trie_ab (key_of "ac") (VString "x")) (key_of "ab")
  = Get TUInt32 trie_ab (key_of "ab").
Proof.
  apply (Put_keeps_other_keys trie_ab (key_of "ac") (VString "x")
           (key_of "ab") TUInt32).
  vm_compute. discriminate.
Defined.

(** X21.  A [Remove] leaves every other key as it was, whatever nodes it
    prunes: under a key different from the one removed, [Get] returns what
    it returned before. *)
Theorem Remove_keeps_other_keys t key key' T :
  strip_nul key ≠ strip_nul key' →
  Get T (Remove t key) key' = Get T t key'.
Proof.
  intros Hne. rewrite !Get_value_at, Remove_unfold.
  destruct t as [n|]; [|done].
  destruct (get_node (Some n) (strip_nul key)) as [terminal|]; [|done].
  destruct (is_value_node_ terminal); [|done].
  by rewrite value_at_remove_other.
Qed.

Lemma Remove_keeps_other_keys_witness :
  Get TUInt32 (Remove trie_a_abc (key_of "abc")) (key_of "a")
  = Get TUInt32 trie_a_abc (key_of "a").
Proof.
  apply (Remove_keeps_other_keys trie_a_abc (key_of "abc") (key_of "a") TUInt32).
  vm_compute. discriminate.
Defined.

(** X22.  The last write wins: putting twice under the same key gives the
    trie that the second [Put] alone gives. *)
Theorem Put_twice_last_wins t key v1 v2 :
  Put (Put t key v1) key v2 = Put t key v2.
Proof. rewrite !Put_unfold. by rewrite put_node_twice. Qed.

(** X23.  Writes to different keys commute: the two orders build the same
    trie. *)
Theorem Put_different_keys_commute t key1 v1 key2 v2 :
  strip_nul key1 ≠ strip_nul key2 →
  Put (Put t key1 v1) key2 v2 = Put (Put t key2 v2) key1 v1.
Proof.
  intros Hne. rewrite !Put_unfold. f_equal. by apply put_node_commute.
Qed.

Lemma Put_different_keys_commute_witness :
  Put (Put empty (key_of "ab") (VUInt32 1)) (key_of "a") (VString "x")
  = Put (Put empty (key_of "a") (VString "x")) (key_of "ab") (VUInt32 1).
Proof.
  apply (Put_different_keys_commute empty (key_of "ab") (VUInt32 1)
           (key_of "a") (VString "x")).
  vm_compute. discriminate.
Defined.

(** X24.  Removing a value and putting it back gives the original trie, in
    every trie: the nodes [Remove] pruned are exactly the ones [Put]
    creates again. *)
Theorem Remove_then_Put_restores t key value :
  Get (type_of value) t key = Some value →
  Put (Remove t key) key value = t.
Proof.
  rewrite Get_unfold, Put_unfold, Remove_unfold. intros Hg.
  destruct t as [n|]; [|by rewrite get_node_None in Hg].
  destruct (get_node (Some n) (strip_nul key)) as [m|] eqn:Hm; [|done].
  destruct (value_ m) as [v|] eqn:Hv; [|done].
  case_decide; [|done]. injection Hg as ->.
  unfold is_value_node_. rewrite Hv. f_equal.
  by eapply put_remove_node.
Qed.

Lemma Remove_then_Put_restores_witness :
  Put (Remove trie_a_abc (key_of "abc")) (key_of "abc") (VUInt32 2) = trie_a_abc.
Proof.
  apply (Remove_then_Put_restores trie_a_abc (key_of "abc") (VUInt32 2)).
  vm_compute. reflexivity.
Defined.

(** X25.  [Get<T>] only ever returns a value of type [T]; after [Put(k, v)] a
    [Get] of [k] at any other type returns null, and any [Get] on the empty
    trie returns null. *)
Theorem Get_checks_the_type :
  (∀ T t key v, Get T t key = Some v → type_of v = T) ∧
  (∀ T t key value, T ≠ type_of value → Get T (Put t key value) key = None) ∧
  (∀ T key, Get T empty key = None).
Proof.
  split_and!.
  - intros T t key v. rewrite Get_unfold.
    destruct (get_node t (strip_nul key)) as [n|]; [|done].
    destruct (value_ n) as [w|]; [|done].
    case_decide; [|done]. by intros [= <-].
  - intros T t key value Hne. rewrite Get_unfold, Put_unfold, get_put_node.
    simpl. by rewrite decide_False.
  - intros T key. rewrite Get_unfold. by rewrite get_node_None.
Qed.

(** X26.  One trailing NUL byte of a key is ignored by all three operations:
    the key [k] followed by NUL is treated as [k] itself is when [k] does not
    end in NUL. *)
Theorem trailing_nul_ignored t key value T :
  key = [] ∨ List.last key zero ≠ zero →
  Get T t (key ++ [zero]) = Get T t key ∧
  Put t (key ++ [zero]) value = Put t key value ∧
  Remove t (key ++ [zero]) = Remove t key.
Proof.
  intros Hk%strip_nul_fixed.
  rewrite !Get_unfold, !Put_unfold, !Remove_unfold.
  by rewrite strip_nul_snoc, Hk.
Qed.

Lemma trailing_nul_ignored_witness :
  Get TUInt32 trie_ab (key_of "ab" ++ [zero]) = Get TUInt32 trie_ab (key_of "ab") ∧
  Put trie_ab (key_of "ab" ++ [zero]) (VUInt32 7)
    = Put trie_ab (key_of "ab") (VUInt32 7) ∧
  Remove trie_ab (key_of "ab" ++ [zero]) = Remove trie_ab (key_of "ab").
Proof.
  apply (trailing_nul_ignored trie_ab (key_of "ab") (VUInt32 7) TUInt32).
  right. vm_compute. discriminate.
Defined.

End TrieLaws.

(** * Copying and sharing in the trie in memory *)
Module TrieHeapLaws.
Import TrieHeap TrieHeapFacts TrieRefinement.
#[local] Open Scope nat_scope.

(** The new path of [Put]: position [i] of the key leads to the [i]-th new
    object. *)
Lemma Put_new_path (h : list TrieNode) t k value i :
  i ≤ length k →
  addr_at (h ++ linked (length h) k (length k)
             ((put_pre h t k <$> seq 0 (length k)) ++ [put_terminal h t k value]))
          (Some (length h)) (take i k) = Some (length h + i).
Proof.
  induction i as [|i IH]; intros Hi.
  - simpl. by rewrite Nat.add_0_r.
  - destruct (lookup_lt_is_Some_2 k i) as [c Hc]; [lia|].
    rewrite (addr_at_take_S _ _ k i c Hc), IH by lia.
    rewrite Put_new_object by lia. rewrite Hc. simpl.
    by rewrite lookup_insert_eq.
Qed.

(** X27.  [Put] copies the path and nothing else.  On a well-formed store it
    allocates exactly one object per byte of the key plus one, the new root
    being the first of them; the new objects form the path of the key; and
    each new object on the part of the path the receiver already had keeps
    the value of the node it replaces (above the terminal) and, on every
    edge except the one the key follows, the very child pointer of that
    node, so all subtrees off the path are shared with the receiver. *)
Theorem Put_copies_only_the_path (h : list TrieNode) t key value :
  closed h → rooted h t →
  let k := strip_nul key in
  let h' := (Put h t key value).1 in
  length h' = length h + S (length k) ∧
  (Put h t key value).2 = Some (length h) ∧
  ∀ i, i ≤ length k →
    addr_at h' (Some (length h)) (take i k) = Some (length h + i) ∧
    ∀ a, addr_at h t (take i k) = Some a →
      (i < length k → value_ (deref h' (length h + i)) = value_ (deref h a)) ∧
      ∀ c, k !! i ≠ Some c →
        children_ (deref h' (length h + i)) !! c = children_ (deref h a) !! c.
Proof.
  intros Hc Hr k h'. subst h'.
  pose proof (Put_content h t key value Hc Hr) as HP. cbv zeta in HP.
  fold k in HP. rewrite HP. cbn [fst snd].
  split_and!.
  - rewrite length_app, linked_length, length_app, length_fmap, length_seq.
    simpl. lia.
  - done.
  - intros i Hi. split; [by apply Put_new_path|].
    intros a Ha. rewrite Put_new_object by done.
    destruct (k !! i) as [c0|] eqn:Hki.
    + unfold put_pre. rewrite Ha. simpl. split; [done|].
      intros c Hne. rewrite lookup_insert_ne; [done|congruence].
    + apply lookup_ge_None_1 in Hki.
      split; [lia|]. intros c _.
      unfold put_terminal. rewrite firstn_all2 in Ha by lia.
      by rewrite Ha.
Qed.

Lemma Put_copies_only_the_path_witness :
  length (Put store_abc.1 store_abc.2 (key_of "abd") (VUInt32 2)).1
    = length store_abc.1 + 4 ∧
  (Put store_abc.1 store_abc.2 (key_of "abd") (VUInt32 2)).2
    = Some (length store_abc.1).
Proof.
  destruct store_abc_closed as [Hc Hr].
  destruct (Put_copies_only_the_path store_abc.1 store_abc.2 (key_of "abd")
              (VUInt32 2) Hc Hr) as (H1 & H2 & _).
  split; [exact H1|exact H2].
Defined.

(** X28.  [Remove] of a key that holds no value (the key cannot be followed,
    or its node is not a value node) allocates nothing and returns the
    receiver's own root; any other [Remove] allocates at most one object per
    node of the path. *)
Theorem Remove_allocates_at_most_the_path (h : list TrieNode) t key :
  closed h → rooted h t →
  ((∀ T, Get T h t key = None) → Remove h t key = (h, t)) ∧
  h `prefix_of` (Remove h t key).1 ∧
  length (Remove h t key).1 ≤ length h + S (length (strip_nul key)).
Proof.
  intros Hc Hr.
  pose proof (Remove_content h t key Hc Hr) as HR. cbv zeta in HR.
  set (k := strip_nul key) in *. set (path := FindPath h t k) in *.
  split_and!.
  - intros Hg. rewrite HR.
    destruct (length path =? S (length k)) eqn:Hlen; [|done].
    destruct (is_value_node_ (deref h (back path))) eqn:Hv; [|done].
    exfalso. unfold is_value_node_ in Hv.
    destruct (value_ (deref h (back path))) as [v|] eqn:Hval; [|done].
    specialize (Hg (type_of v)). unfold Get in Hg. fold k in Hg.
    fold path in Hg. rewrite Hlen, Hval in Hg. simpl in Hg.
    by rewrite decide_True in Hg.
  - by apply Remove_extends.
  - rewrite HR. destruct (negb _ || _) eqn:Hcond; [simpl; lia|].
    destruct (Nat.leb_spec (kept h path) 0) as [|Hpos]; [simpl; lia|].
    cbn [fst]. rewrite length_app, linked_length, length_app, length_fmap,
      length_seq. simpl.
    pose proof (kept_bounds h path). pose proof (FindPath_length_le h t k).
    fold path in H0. lia.
Qed.

Lemma Remove_allocates_at_most_the_path_witness :
  Remove store_abc.1 store_abc.2 (key_of "ab") = (store_abc.1, store_abc.2).
Proof.
  destruct store_abc_closed as [Hc Hr].
  destruct (Remove_allocates_at_most_the_path store_abc.1 store_abc.2
              (key_of "ab") Hc Hr) as (H1 & _).
  apply H1. intros T. vm_compute. reflexivity.
Defined.

(** X29.  The trie in memory computes the trie value: after any sequence of
    [Put] and [Remove] starting from the empty trie, [Get] on the objects in
    the store returns, for every key and type, what [Get] returns on the
    trie value built by the same sequence. *)
Theorem memory_trie_computes_the_value us T key :
  Get T (apply_updates us ([], empty)).1 (apply_updates us ([], empty)).2 key
  = Trie.Get T (apply_updates_tree us Trie.empty) key.
Proof.
  apply Get_represents, updates_refine;
    [apply closed_nil|done|apply represents_empty].
Qed.

End TrieHeapLaws.

(** * Further laws of the LRU-K replacer *)
Module LRUKLaws.
Import LRUK LRUKFacts.
#[local] Open Scope Z_scope.

(** ** The comparator *)

Lemma Comparator_asym k a b :
  hsize a ≤ k → hsize b ≤ k →
  Comparator k a b = true → Comparator k b a = false.
Proof.
  intros Ha Hb Hab. destruct (Comparator k b a) eqn:Hba; [|done].
  pose proof (Comparator_trans k a b a Ha Hb Ha Hab Hba) as H.
  by rewrite Comparator_irrefl in H.
Qed.

(** X1.  On nodes that hold at most K stamps the comparator is a strict weak
    order, as [std::set] requires: it is irreflexive, asymmetric and
    transitive, and two nodes are unordered only when they are in the same
    class (both below K stamps, or both at K) and have the same oldest
    stamp. *)
Theorem Comparator_strict_weak_order k a b c :
  hsize a ≤ k → hsize b ≤ k → hsize c ≤ k →
  Comparator k a a = false ∧
  (Comparator k a b = true → Comparator k b a = false) ∧
  (Comparator k a b = true → Comparator k b c = true →
     Comparator k a c = true) ∧
  (Comparator k a b = false → Comparator k b a = false →
     hback a = hback b ∧ (hsize a < k ↔ hsize b < k)).
Proof.
  intros Ha Hb Hc. split_and!.
  - apply Comparator_irrefl.
  - by apply Comparator_asym.
  - by apply Comparator_trans.
  - intros Hab Hba.
    assert (¬ ((hsize a < k ∧ hsize b = k) ∨
               ((hsize a < k ↔ hsize b < k) ∧ hback a < hback b))) as H1.
    { rewrite <- (Comparator_spec k a b Ha Hb). by rewrite Hab. }
    assert (¬ ((hsize b < k ∧ hsize a = k) ∨
               ((hsize b < k ↔ hsize a < k) ∧ hback b < hback a))) as H2.
    { rewrite <- (Comparator_spec k b a Hb Ha). by rewrite Hba. }
    lia.
Qed.

Lemma Comparator_strict_weak_order_witness :
  hsize (mkNode [4; 1] 1 true 1) ≤ 2 ∧ hsize (mkNode [5] 3 true 3) ≤ 2 ∧
  Comparator 2 (mkNode [5] 3 true 3) (mkNode [4; 1] 1 true 1) = true ∧
  Comparator 2 (mkNode [4; 1] 1 true 1) (mkNode [5] 3 true 3) = false.
Proof.
  assert (hsize (mkNode [4; 1] 1 true 1) ≤ 2) as Ha by (vm_compute; discriminate).
  assert (hsize (mkNode [5] 3 true 3) ≤ 2) as Hb by (vm_compute; discriminate).
  assert (Comparator 2 (mkNode [5] 3 true 3) (mkNode [4; 1] 1 true 1) = true)
    as Hlt by reflexivity.
  split_and!; [exact Ha|exact Hb|exact Hlt|].
  exact (proj1 (proj2 (Comparator_strict_weak_order 2 (mkNode [5] 3 true 3)
                         (mkNode [4; 1] 1 true 1) (mkNode [5] 3 true 3)
                         Hb Ha Hb)) Hlt).
Defined.

(** ** Counting the evictable frames *)

Lemma elem_of_evictable_set store g :
  g ∈ evictable_set store ↔ ∃ n, store !! g = Some n ∧ is_evictable_ n = true.
Proof.
  unfold evictable_set. rewrite elem_of_dom. unfold is_Some.
  split; intros [n Hn]; exists n.
  - by apply map_lookup_filter_Some in Hn.
  - by apply map_lookup_filter_Some.
Qed.

Lemma evictable_set_insert store f n :
  evictable_set (<[f:=n]> store) =
    if is_evictable_ n then {[f]} ∪ evictable_set store
    else evictable_set store ∖ {[f]}.
Proof.
  apply set_eq. intros g. destruct (is_evictable_ n) eqn:He;
    rewrite ?elem_of_union, ?elem_of_difference, !elem_of_evictable_set,
      elem_of_singleton.
  - split.
    + intros (m & Hm & Hem). destruct (decide (g = f)) as [->|Hne]; [by left|].
      right. rewrite lookup_insert_ne in Hm by done. eauto.
    + intros [->|(m & Hm & Hem)].
      * exists n. by rewrite lookup_insert_eq.
      * destruct (decide (g = f)) as [->|Hne].
        -- exists n. by rewrite lookup_insert_eq.
        -- exists m. by rewrite lookup_insert_ne.
  - split.
    + intros (m & Hm & Hem). destruct (decide (g = f)) as [->|Hne].
      * rewrite lookup_insert_eq in Hm. injection Hm as <-. congruence.
      * rewrite lookup_insert_ne in Hm by done. eauto.
    + intros [(m & Hm & Hem) Hne]. exists m. by rewrite lookup_insert_ne.
Qed.

Lemma evictable_set_delete store f :
  evictable_set (delete f store) = evictable_set store ∖ {[f]}.
Proof. unfold evictable_set. by rewrite map_filter_delete, dom_delete_L. Qed.

Lemma evictable_set_dom store : evictable_set store ⊆ dom store.
Proof. apply dom_filter_subseteq. Qed.

Lemma evictable_set_size store :
  (size (evictable_set store) ≤ size store)%nat.
Proof.
  rewrite <- (size_dom store). apply subseteq_size, evictable_set_dom.
Qed.

Lemma size_add (X : gset Z) f : f ∉ X → size ({[f]} ∪ X) = S (size X).
Proof. intros. rewrite size_union by set_solver. by rewrite size_singleton. Qed.

Lemma size_remove (X : gset Z) f : f ∈ X → S (size (X ∖ {[f]})) = size X.
Proof.
  intros. rewrite size_difference by set_solver. rewrite size_singleton.
  assert (size X ≠ 0%nat); [|lia]. intros ?%size_empty_inv. set_solver.
Qed.

Lemma wf_queue_set r :
  wf r → list_to_set (evict_queue_ r) = evictable_set (node_store_ r).
Proof.
  intros Hwf. apply set_eq. intros g.
  rewrite elem_of_list_to_set, elem_of_evictable_set. apply (wf_queue r Hwf).
Qed.

Lemma wf_queue_length r :
  wf r → length (evict_queue_ r) = size (evictable_set (node_store_ r)).
Proof.
  intros Hwf. rewrite <- (wf_queue_set r Hwf).
  symmetry. apply size_list_to_set. by apply wf_queue_NoDup.
Qed.

Lemma sized_create num_frames k :
  0 ≤ num_frames < 2 ^ 64 → sized (create num_frames k).
Proof.
  intros H. split; simpl; [done|by rewrite map_size_empty; lia|].
  unfold evictable_set. by rewrite map_filter_empty, dom_empty_L, size_empty.
Qed.

Lemma sized_Evict r : wf r → sized r → sized (Evict r).2.
Proof.
  intros Hwf [H1 H2 H3]. unfold Evict.
  destruct (evict_queue_ r) as [|p q] eqn:Hq; [done|].
  destruct (wf_head_evictable r p q Hwf Hq) as (n & [Hn He] & Hfid).
  rewrite Hfid. unfold tracked in Hn.
  assert (p ∈ evictable_set (node_store_ r)) as Hin
    by (apply elem_of_evictable_set; eauto).
  pose proof (size_remove _ p Hin) as Hrm.
  pose proof (evictable_set_size (node_store_ r)) as Hle.
  split; simpl.
  - done.
  - rewrite map_size_delete, Hn. lia.
  - rewrite evictable_set_delete. unfold size_t_wrap.
    rewrite Z.mod_small; lia.
Qed.

Lemma sized_RecordAccess f r : sized r → sized (RecordAccess f r).2.
Proof.
  intros [H1 H2 H3]. unfold RecordAccess.
  pose proof (evictable_set_size (node_store_ r)) as Hle.
  destruct (node_store_ r !! f) as [node|] eqn:Hn.
  - destruct (is_evictable_ node) eqn:He.
    + destruct (set_emplace _ _ _) as [q' it]. split; simpl; [done|..].
      * by rewrite insert_insert_eq, map_size_insert, Hn.
      * rewrite insert_insert_eq, evictable_set_insert. simpl. rewrite He.
        rewrite H3. do 2 f_equal.
        assert (f ∈ evictable_set (node_store_ r))
          by (apply elem_of_evictable_set; eauto).
        set_solver.
    + split; simpl; [done|..].
      * by rewrite map_size_insert, Hn.
      * rewrite evictable_set_insert. simpl. rewrite He.
        rewrite H3. do 2 f_equal.
        assert (f ∉ evictable_set (node_store_ r)).
        { intros (m & Hm & Hem)%elem_of_evictable_set. congruence. }
        set_solver.
  - assert (f ∉ evictable_set (node_store_ r)) as Hout.
    { intros (m & Hm & Hem)%elem_of_evictable_set. congruence. }
    destruct (Z.ltb_spec (Z.of_nat (size (node_store_ r))) (max_size_ r))
      as [Hlt|Hge].
    + destruct (set_emplace _ _ _) as [q' it]. split; simpl; [done|..].
      * rewrite insert_insert_eq, map_size_insert, Hn. lia.
      * rewrite insert_insert_eq, evictable_set_insert. simpl.
        rewrite size_add by done. unfold size_t_wrap.
        rewrite Z.mod_small; lia.
    + by split.
Qed.

Lemma sized_SetEvictable f b r : sized r → sized (SetEvictable f b r).2.
Proof.
  intros [H1 H2 H3]. unfold SetEvictable.
  pose proof (evictable_set_size (node_store_ r)) as Hle.
  destruct (node_store_ r !! f) as [node|] eqn:Hn; [|done].
  destruct (is_evictable_ node) eqn:He, b; simpl; try done.
  - assert (f ∈ evictable_set (node_store_ r)) as Hin
      by (apply elem_of_evictable_set; eauto).
    pose proof (size_remove _ f Hin) as Hrm.
    split; simpl; [done|..].
    + by rewrite map_size_insert, Hn.
    + rewrite evictable_set_insert. simpl. unfold size_t_wrap.
      rewrite Z.mod_small; lia.
  - assert (f ∉ evictable_set (node_store_ r)) as Hout.
    { intros (m & Hm & Hem)%elem_of_evictable_set. congruence. }
    assert ({[f]} ∪ evictable_set (node_store_ r) ⊆ dom (node_store_ r)) as Hsub.
    { pose proof (evictable_set_dom (node_store_ r)).
      assert (f ∈ dom (node_store_ r)) by (apply elem_of_dom; eauto).
      set_solver. }
    apply subseteq_size in Hsub. rewrite size_add, size_dom in Hsub by done.
    destruct (set_emplace _ _ _) as [q' it]. split; simpl; [done|..].
    + by rewrite insert_insert_eq, map_size_insert, Hn.
    + rewrite insert_insert_eq, evictable_set_insert. simpl.
      rewrite size_add by done. unfold size_t_wrap.
      rewrite Z.mod_small; lia.
Qed.

Lemma sized_Remove f r : sized r → sized (Remove f r).2.
Proof.
  intros [H1 H2 H3]. unfold Remove.
  pose proof (evictable_set_size (node_store_ r)) as Hle.
  destruct (node_store_ r !! f) as [node|] eqn:Hn; [|done].
  destruct (is_evictable_ node) eqn:He; [|done].
  assert (f ∈ evictable_set (node_store_ r)) as Hin
    by (apply elem_of_evictable_set; eauto).
  pose proof (size_remove _ f Hin) as Hrm.
  split; simpl; [done|..].
  - rewrite map_size_delete, Hn. lia.
  - rewrite evictable_set_delete. unfold size_t_wrap.
    rewrite Z.mod_small; lia.
Qed.

Lemma sized_step r r' : wf r → sized r → step r r' → sized r'.
Proof.
  intros Hwf Hs Hstep. destruct Hstep.
  - by apply sized_RecordAccess.
  - by apply sized_SetEvictable.
  - by apply sized_Evict.
  - by apply sized_Remove.
Qed.

Lemma sized_reachable num_frames k r :
  1 ≤ k → 0 ≤ num_frames < 2 ^ 64 → reachable num_frames k r → sized r.
Proof.
  intros Hk Hn Hr. unfold reachable in Hr.
  assert (Hinit : wf (create num_frames k) ∧ sized (create num_frames k))
    by (split; [by apply wf_create|by apply sized_create]).
  induction Hr as [|x y z Hxy Hyz IH]; [apply Hinit|].
  destruct Hinit as [Hwf Hs]. apply IH.
  split; [by eapply wf_step|by eapply sized_step].
Qed.

Lemma step_fixed r r' :
  wf r → step r r' → max_size_ r' = max_size_ r ∧ k_ r' = k_ r.
Proof.
  intros Hwf Hstep. destruct Hstep as [f r _|f b r|r|f r].
  - unfold RecordAccess. destruct (node_store_ r !! f) as [n|].
    + destruct (is_evictable_ n); [|done]. by destruct (set_emplace _ _ _).
    + destruct (_ <? _); [|done]. by destruct (set_emplace _ _ _).
  - unfold SetEvictable. destruct (node_store_ r !! f) as [n|]; [|done].
    destruct (negb _); [|done]. destruct b; [|done].
    by destruct (set_emplace _ _ _).
  - unfold Evict. by destruct (evict_queue_ r).
  - unfold Remove. destruct (node_store_ r !! f) as [n|]; [|done].
    by destruct (is_evictable_ n).
Qed.

Lemma reachable_fixed num_frames k r :
  1 ≤ k → reachable num_frames k r → max_size_ r = num_frames ∧ k_ r = k.
Proof.
  intros Hk Hr. unfold reachable in Hr.
  assert (Hinit : wf (create num_frames k) ∧
            max_size_ (create num_frames k) = num_frames ∧
            k_ (create num_frames k) = k)
    by (split; [by apply wf_create|done]).
  induction Hr as [|x y z Hxy Hyz IH]; [apply Hinit|].
  destruct Hinit as (Hwf & Hm & Hkk). apply IH.
  destruct (step_fixed x y Hwf Hxy) as [-> ->].
  split; [by eapply wf_step|done].
Qed.

(** X2.  [Size()] is exact: in every state the replacer can reach,
    [evictable_size_] is the number of frames whose node is evictable, which
    is also the number of entries of the eviction queue, and it never
    exceeds the number of tracked frames. *)
Theorem Size_counts_evictable_frames num_frames k r :
  1 ≤ k → 0 ≤ num_frames < 2 ^ 64 → reachable num_frames k r →
  Size r = Z.of_nat (size (evictable_set (node_store_ r))) ∧
  Size r = Z.of_nat (length (evict_queue_ r)) ∧
  0 ≤ Size r ≤ Z.of_nat (size (node_store_ r)).
Proof.
  intros Hk Hn Hr.
  pose proof (wf_reachable _ _ _ Hk Hr) as Hwf.
  destruct (sized_reachable _ _ _ Hk Hn Hr) as [H1 H2 H3].
  pose proof (evictable_set_size (node_store_ r)).
  unfold Size. rewrite (wf_queue_length r Hwf). split_and!; [done|done|lia..].
Qed.

Lemma Size_counts_evictable_frames_witness :
  Size demo = Z.of_nat (size (evictable_set (node_store_ demo))) ∧
  Size demo = Z.of_nat (length (evict_queue_ demo)) ∧
  0 ≤ Size demo ≤ Z.of_nat (size (node_store_ demo)).
Proof.
  apply (Size_counts_evictable_frames 3 2 demo);
    [lia|lia|apply demo_reachable].
Defined.

(** X3.  The replacer never tracks more frames than it was built for: in
    every reachable state the node table holds at most [num_frames] nodes,
    and [max_size_] and [k_] are still the constructor's arguments. *)
Theorem replacer_capacity_respected num_frames k r :
  1 ≤ k → 0 ≤ num_frames < 2 ^ 64 → reachable num_frames k r →
  Z.of_nat (size (node_store_ r)) ≤ num_frames ∧
  max_size_ r = num_frames ∧ k_ r = k.
Proof.
  intros Hk Hn Hr.
  destruct (sized_reachable _ _ _ Hk Hn Hr) as [H1 H2 H3].
  destruct (reachable_fixed _ _ _ Hk Hr) as [Hm Hkk].
  split_and!; [lia|done|done].
Qed.

Lemma replacer_capacity_respected_witness :
  Z.of_nat (size (node_store_ demo)) ≤ 3 ∧ max_size_ demo = 3 ∧ k_ demo = 2.
Proof.
  apply (replacer_capacity_respected 3 2 demo);
    [lia|lia|apply demo_reachable].
Defined.

(** X4.  The eviction queue is kept as the code intends: in every reachable
    state it lists exactly the frames whose node is evictable, each once, in
    strictly ascending comparator order; every node is stored under its own
    frame id and holds between one and K stamps; and no stamp occurs in the
    histories of two frames. *)
Theorem queue_lists_evictable_frames_in_order num_frames k r :
  1 ≤ k → reachable num_frames k r →
  NoDup (evict_queue_ r) ∧
  (∀ f, f ∈ evict_queue_ r ↔ f ∈ evictable_set (node_store_ r)) ∧
  StronglySorted (λ f g, Comparator (k_ r) (deref (node_store_ r) f)
                           (deref (node_store_ r) g) = true)
    (evict_queue_ r) ∧
  (∀ f n, node_store_ r !! f = Some n →
     fid_ n = f ∧ 1 ≤ hsize n ≤ k_ r) ∧
  (∀ f g n m t, f ≠ g → node_store_ r !! f = Some n →
     node_store_ r !! g = Some m → t ∈ history_ n → t ∉ history_ m).
Proof.
  intros Hk Hr. pose proof (wf_reachable _ _ _ Hk Hr) as Hwf.
  split_and!.
  - by apply wf_queue_NoDup.
  - intros f. rewrite elem_of_evictable_set. apply (wf_queue r Hwf).
  - apply (wf_sorted r Hwf).
  - intros f n Hn. destruct (wf_nodes r Hwf f n Hn) as [Hf Hne Hs _].
    split; [done|]. split; [|done]. unfold hsize.
    destruct (history_ n); [done|]. simpl. lia.
  - apply (wf_stamps_apart r Hwf).
Qed.

Lemma queue_lists_evictable_frames_in_order_witness :
  NoDup (evict_queue_ demo) ∧
  (∀ f, f ∈ evict_queue_ demo ↔ f ∈ evictable_set (node_store_ demo)).
Proof.
  destruct (queue_lists_evictable_frames_in_order 3 2 demo)
    as (H1 & H2 & _); [lia|apply demo_reachable|].
  split; [exact H1|exact H2].
Defined.

(** ** [SetEvictable] and [Remove] *)

Lemma node_lt_asym r p q :
  wf r → is_Some (node_store_ r !! p) → is_Some (node_store_ r !! q) →
  node_lt (k_ r) (node_store_ r) p q = true →
  node_lt (k_ r) (node_store_ r) q p = false.
Proof.
  intros Hwf [n Hn] [m Hm]. unfold node_lt.
  rewrite (deref_lookup _ _ _ Hn), (deref_lookup _ _ _ Hm).
  destruct (wf_node_bounds r p n Hwf Hn), (wf_node_bounds r q m Hwf Hm).
  by apply Comparator_asym.
Qed.

Lemma set_emplace_erase (lt : Z → Z → bool) f q :
  (∀ y, y ∈ q → lt y f = true → lt f y = false) →
  StronglySorted (λ a b, lt a b = true) q → f ∈ q →
  set_emplace lt f (set_erase f q) = (q, f).
Proof.
  induction q as [|y q IH]; intros Hasym Hs Hin; [by apply elem_of_nil in Hin|].
  apply StronglySorted_cons in Hs as [Hall Hs]. simpl.
  destruct (decide (y = f)) as [->|Hne].
  - destruct q as [|z q]; [done|]. simpl.
    apply Forall_cons in Hall as [Hz _]. by rewrite Hz.
  - apply elem_of_cons in Hin as [->|Hin]; [done|].
    simpl. eapply Forall_forall in Hall; [|done].
    rewrite (Hasym y) by (done || set_solver). rewrite Hall.
    rewrite IH; [done| |done|done].
    intros z Hz. apply Hasym. set_solver.
Qed.

(** X7.  Taking a frame out of the eviction queue and putting it back
    changes nothing: in every reachable state, for an evictable frame [f],
    [SetEvictable(f, false)] followed by [SetEvictable(f, true)] gives back
    the very same replacer state, so the frame returns to its old place in
    the eviction order. *)
Theorem SetEvictable_off_on_restores num_frames k f r :
  1 ≤ k → 0 ≤ num_frames < 2 ^ 64 → reachable num_frames k r →
  f ∈ evictable_set (node_store_ r) →
  (SetEvictable f false r).1 = Returned tt ∧
  SetEvictable f true (SetEvictable f false r).2 = (Returned tt, r).
Proof.
  intros Hk Hnf Hr (n & Hn & He)%elem_of_evictable_set.
  pose proof (wf_reachable _ _ _ Hk Hr) as Hwf.
  destruct (sized_reachable _ _ _ Hk Hnf Hr) as [H1 H2 H3].
  pose proof (evictable_set_size (node_store_ r)) as Hle.
  assert (f ∈ evictable_set (node_store_ r)) as Hin
    by (apply elem_of_evictable_set; eauto).
  pose proof (size_remove _ f Hin) as Hrm.
  assert (iter_ n = f) as Hit by by apply (wf_iter r Hwf).
  assert (SetEvictable f false r =
            (Returned tt,
             mkReplacer (<[f:=set_evictable_flag false n]> (node_store_ r))
                        (set_erase f (evict_queue_ r))
                        (current_timestamp_ r) (max_size_ r)
                        (size_t_wrap (evictable_size_ r - 1)) (k_ r))) as ->.
  { unfold SetEvictable. rewrite Hn, He. simpl. by rewrite Hit. }
  split; [done|]. cbn [fst snd].
  unfold SetEvictable. cbn [node_store_ evict_queue_ current_timestamp_
    max_size_ evictable_size_ k_].
  rewrite lookup_insert_eq. cbn [is_evictable_ set_evictable_flag Bool.eqb negb].
  rewrite insert_insert_eq.
  assert (set_evictable_flag true (set_evictable_flag false n) = n) as ->
    by (destruct n; simpl in *; by subst).
  rewrite (insert_id (node_store_ r) f n Hn).
  rewrite set_emplace_erase; cycle 1.
  - intros y Hy. apply (node_lt_asym r y f Hwf); [|by eexists].
    by apply (wf_queue_tracked r y Hwf).
  - apply (wf_sorted r Hwf).
  - apply (wf_queue r Hwf). by exists n.
  - assert (set_iter f n = n) as -> by (destruct n; simpl in *; by subst).
    rewrite (insert_id (node_store_ r) f n Hn).
    assert (size_t_wrap (size_t_wrap (evictable_size_ r - 1) + 1)
            = evictable_size_ r) as ->.
    { unfold size_t_wrap. rewrite (Z.mod_small (evictable_size_ r - 1)) by lia.
      rewrite Z.mod_small; lia. }
    by destruct r.
Qed.

Lemma SetEvictable_off_on_restores_witness :
  (SetEvictable 1 false demo).1 = Returned tt ∧
  SetEvictable 1 true (SetEvictable 1 false demo).2 = (Returned tt, demo).
Proof.
  apply (SetEvictable_off_on_restores 3 2 1 demo);
    [lia|lia|apply demo_reachable|].
  apply elem_of_evictable_set. eexists. split; vm_compute; reflexivity.
Defined.

(** X5.  What [SetEvictable] does, in every reachable state.  For a frame
    without a node it throws and changes nothing.  For a tracked frame it
    returns; the node's flag becomes the requested one and its history is
    kept; no other node changes; the frame is in the queue afterwards
    exactly when the flag was set to true, the other queue entries are the
    same; [Size()] goes up by one when the frame becomes evictable, down by
    one when it stops being evictable, and is unchanged when the flag
    already had the requested value; the clock does not move. *)
Theorem SetEvictable_effect num_frames k f b r :
  1 ≤ k → 0 ≤ num_frames < 2 ^ 64 → reachable num_frames k r →
  let r' := (SetEvictable f b r).2 in
  match node_store_ r !! f with
  | None => SetEvictable f b r = (Thrown, r)
  | Some n =>
      (SetEvictable f b r).1 = Returned tt ∧
      (∃ n', node_store_ r' !! f = Some n' ∧
         is_evictable_ n' = b ∧ history_ n' = history_ n) ∧
      (∀ g, g ≠ f → node_store_ r' !! g = node_store_ r !! g) ∧
      (∀ g, g ∈ evict_queue_ r' ↔
            if decide (g = f) then b = true else g ∈ evict_queue_ r) ∧
      Size r' = Size r + (if b then 1 else 0)
                       - (if is_evictable_ n then 1 else 0) ∧
      current_timestamp_ r' = current_timestamp_ r
  end.
Proof.
  intros Hk Hnf Hr r'.
  pose proof (wf_reachable _ _ _ Hk Hr) as Hwf.
  pose proof (sized_reachable _ _ _ Hk Hnf Hr) as Hs.
  pose proof (wf_SetEvictable f b r Hwf) as Hwf'.
  pose proof (sized_SetEvictable f b r Hs) as Hs'.
  fold r' in Hwf', Hs'.
  destruct (node_store_ r !! f) as [n|] eqn:Hn.
  2:{ unfold SetEvictable. by rewrite Hn. }
  assert (Hstore : (SetEvictable f b r).1 = Returned tt ∧
            ∃ n', node_store_ r' = <[f := n']> (node_store_ r) ∧
                  is_evictable_ n' = b ∧ history_ n' = history_ n ∧
                  current_timestamp_ r' = current_timestamp_ r).
  { subst r'. unfold SetEvictable. rewrite Hn.
    destruct (is_evictable_ n) eqn:He, b; simpl.
    - split; [done|]. exists n. by rewrite insert_id.
    - split; [done|]. by eexists.
    - destruct (set_emplace _ _ _) as [q' it]. simpl. split; [done|].
      eexists. rewrite insert_insert_eq. done.
    - split; [done|]. exists n. by rewrite insert_id. }
  destruct Hstore as (Ho & n' & Hst & Hfl & Hh & Hclk).
  assert (Hq : ∀ g, g ∈ evict_queue_ r' ↔
            if decide (g = f) then b = true else g ∈ evict_queue_ r).
  { intros g. rewrite (wf_queue r' Hwf' g). case_decide as Hg.
    - subst g. unfold evictable, tracked. rewrite Hst, lookup_insert_eq.
      split.
      + intros (m & [= <-] & Hm). congruence.
      + intros ->. by exists n'.
    - rewrite (wf_queue r Hwf g). unfold evictable, tracked.
      by rewrite Hst, lookup_insert_ne. }
  split_and!; [done| | |done| |done].
  - exists n'. by rewrite Hst, lookup_insert_eq.
  - intros g Hg. by rewrite Hst, lookup_insert_ne.
  - unfold Size. rewrite (sized_count r' Hs'), (sized_count r Hs), Hst.
    rewrite evictable_set_insert, Hfl.
    pose proof (elem_of_evictable_set (node_store_ r) f) as Hin.
    destruct (is_evictable_ n) eqn:He, b.
    + assert (f ∈ evictable_set (node_store_ r)) as Hf by (apply Hin; eauto).
      replace ({[f]} ∪ evictable_set (node_store_ r))
        with (evictable_set (node_store_ r)) by set_solver. lia.
    + assert (f ∈ evictable_set (node_store_ r)) as Hf by (apply Hin; eauto).
      pose proof (size_remove _ f Hf). lia.
    + assert (f ∉ evictable_set (node_store_ r)) as Hf.
      { intros (m & Hm & Hem)%Hin. congruence. }
      rewrite size_add by done. lia.
    + assert (f ∉ evictable_set (node_store_ r)) as Hf.
      { intros (m & Hm & Hem)%Hin. congruence. }
      replace (evictable_set (node_store_ r) ∖ {[f]})
        with (evictable_set (node_store_ r)) by set_solver. lia.
Qed.

Lemma SetEvictable_effect_witness :
  SetEvictable 7 true demo = (Thrown, demo).
Proof.
  apply (SetEvictable_effect 3 2 7 true demo); [lia|lia|apply demo_reachable].
Defined.

(** X6.  What [Remove] does, in every reachable state.  For a frame without a
    node it returns and changes nothing.  For a tracked frame that is not
    evictable it throws and changes nothing.  For an evictable frame it
    returns, the node leaves the node table and the queue, no other node or
    queue entry changes, and [Size()] goes down by one. *)
Theorem Remove_effect num_frames k f r :
  1 ≤ k → 0 ≤ num_frames < 2 ^ 64 → reachable num_frames k r →
  let r' := (Remove f r).2 in
  match node_store_ r !! f with
  | None => Remove f r = (Returned tt, r)
  | Some n =>
      if is_evictable_ n then
        (Remove f r).1 = Returned tt ∧
        node_store_ r' = delete f (node_store_ r) ∧
        (∀ g, g ∈ evict_queue_ r' ↔ g ∈ evict_queue_ r ∧ g ≠ f) ∧
        Size r' = Size r - 1 ∧
        current_timestamp_ r' = current_timestamp_ r
      else Remove f r = (Thrown, r)
  end.
Proof.
  intros Hk Hnf Hr r'.
  pose proof (wf_reachable _ _ _ Hk Hr) as Hwf.
  pose proof (sized_reachable _ _ _ Hk Hnf Hr) as Hs.
  pose proof (sized_Remove f r Hs) as Hs'. fold r' in Hs'.
  destruct (node_store_ r !! f) as [n|] eqn:Hn.
  2:{ unfold Remove. by rewrite Hn. }
  destruct (is_evictable_ n) eqn:He.
  2:{ unfold Remove. by rewrite Hn, He. }
  assert (Hst : (Remove f r).1 = Returned tt ∧
            node_store_ r' = delete f (node_store_ r) ∧
            evict_queue_ r' = set_erase f (evict_queue_ r) ∧
            current_timestamp_ r' = current_timestamp_ r).
  { subst r'. unfold Remove. rewrite Hn, He. simpl.
    by rewrite (wf_iter r Hwf f n). }
  destruct Hst as (Ho & Hst & Hq & Hclk).
  split_and!; [done|done| | |done].
  - intros g. rewrite Hq. apply elem_of_set_erase. by apply wf_queue_NoDup.
  - unfold Size. rewrite (sized_count r' Hs'), (sized_count r Hs), Hst.
    rewrite evictable_set_delete.
    assert (f ∈ evictable_set (node_store_ r)) as Hf
      by (apply elem_of_evictable_set; eauto).
    pose proof (size_remove _ f Hf). lia.
Qed.

Lemma Remove_effect_witness :
  Remove 7 demo = (Returned tt, demo).
Proof.
  apply (Remove_effect 3 2 7 demo); [lia|lia|apply demo_reachable].
Defined.

(** ** Eviction forgets *)

(** X8.  Eviction discards the access history.  In every reachable state in
    which [Evict] returns a frame, [Size()] goes down by one and the frame
    is no longer tracked; a following [RecordAccess] of that frame succeeds
    and starts over with a node that holds the new stamp alone and is
    evictable. *)
Theorem Evict_forgets_history num_frames k r f :
  1 ≤ k → 0 ≤ num_frames < 2 ^ 64 → reachable num_frames k r →
  current_timestamp_ r + 1 < 2 ^ 64 →
  (Evict r).1 = Some f →
  let r1 := (Evict r).2 in
  Size r1 = Size r - 1 ∧
  node_store_ r1 !! f = None ∧
  (RecordAccess f r1).1 = Returned tt ∧
  ∃ n, node_store_ (RecordAccess f r1).2 !! f = Some n ∧
       history_ n = [current_timestamp_ r + 1] ∧ is_evictable_ n = true.
Proof.
  intros Hk Hnf Hr Hclk HE r1.
  pose proof (wf_reachable _ _ _ Hk Hr) as Hwf.
  destruct (sized_reachable _ _ _ Hk Hnf Hr) as [H1 H2 H3].
  pose proof (evictable_set_size (node_store_ r)) as Hle.
  assert (∃ n, node_store_ r !! f = Some n ∧ is_evictable_ n = true ∧
            r1 = mkReplacer (delete f (node_store_ r)) (tail (evict_queue_ r))
                   (current_timestamp_ r) (max_size_ r)
                   (size_t_wrap (evictable_size_ r - 1)) (k_ r))
    as (n & Hn & He & Hr1).
  { subst r1. unfold Evict in *.
    destruct (evict_queue_ r) as [|p q] eqn:Hq; [done|].
    destruct (wf_head_evictable r p q Hwf Hq) as (n & [Hn He] & Hfid).
    rewrite Hfid in *. simpl in HE. injection HE as ->. by exists n. }
  assert (f ∈ evictable_set (node_store_ r)) as Hin
    by (apply elem_of_evictable_set; eauto).
  pose proof (size_remove _ f Hin) as Hrm.
  assert (size_t_wrap (current_timestamp_ r + 1) = current_timestamp_ r + 1)
    as Hts.
  { unfold size_t_wrap. apply Z.mod_small.
    pose proof (wf_clock r Hwf). lia. }
  rewrite Hr1. unfold Size. cbn [evictable_size_ node_store_].
  split_and!.
  - unfold size_t_wrap. rewrite Z.mod_small; lia.
  - apply lookup_delete_eq.
  - unfold RecordAccess. cbn [node_store_ max_size_].
    rewrite lookup_delete_eq, map_size_delete, Hn.
    destruct (Z.ltb_spec (Z.of_nat (Init.Nat.pred (size (node_store_ r))))
                (max_size_ r)) as [Hlt|Hge].
    + by destruct (set_emplace _ _ _).
    + assert (size (node_store_ r) ≠ 0%nat); [|lia].
      intros Hz%map_size_empty_inv. by rewrite Hz, lookup_empty in Hn.
  - unfold RecordAccess. cbn [node_store_ max_size_ current_timestamp_].
    rewrite lookup_delete_eq, map_size_delete, Hn, Hts.
    destruct (Z.ltb_spec (Z.of_nat (Init.Nat.pred (size (node_store_ r))))
                (max_size_ r)) as [Hlt|Hge].
    + destruct (set_emplace _ _ _) as [q' it]. cbn [snd node_store_].
      eexists. rewrite lookup_insert_eq. done.
    + assert (size (node_store_ r) ≠ 0%nat); [|lia].
      intros Hz%map_size_empty_inv. by rewrite Hz, lookup_empty in Hn.
Qed.

Lemma Evict_forgets_history_witness :
  Size (Evict demo).2 = Size demo - 1 ∧
  node_store_ (Evict demo).2 !! 3 = None ∧
  (RecordAccess 3 (Evict demo).2).1 = Returned tt.
Proof.
  destruct (Evict_forgets_history 3 2 demo 3) as (H1 & H2 & H3 & _);
    [lia|lia|apply demo_reachable|vm_compute; reflexivity|reflexivity|].
  split_and!; [exact H1|exact H2|exact H3].
Defined.

End LRUKLaws.

(** * Further laws of the buffer pool manager *)
Module BPMLaws.
Import LRUK LRUKFacts LRUKLaws BPM BPMFacts.
#[local] Open Scope Z_scope.

(** ** What the replacer calls of the pool leave alone *)

Lemma RecordAccess_other f g r :
  g ≠ f → node_store_ (RecordAccess f r).2 !! g = node_store_ r !! g.
Proof.
  intros Hg. unfold RecordAccess. destruct (node_store_ r !! f) as [n|].
  - destruct (is_evictable_ n).
    + destruct (set_emplace _ _ _) as [q' it]. simpl.
      by rewrite !lookup_insert_ne.
    + simpl. by rewrite lookup_insert_ne.
  - destruct (_ <? _); [|done].
    destruct (set_emplace _ _ _) as [q' it]. simpl.
    by rewrite !lookup_insert_ne.
Qed.

Lemma SetEvictable_other f b g r :
  g ≠ f → node_store_ (SetEvictable f b r).2 !! g = node_store_ r !! g.
Proof.
  intros Hg. unfold SetEvictable. destruct (node_store_ r !! f) as [n|]; [|done].
  destruct (negb _); [|done]. destruct b.
  - destruct (set_emplace _ _ _) as [q' it]. simpl.
    by rewrite !lookup_insert_ne.
  - simpl. by rewrite lookup_insert_ne.
Qed.

Lemma SetEvictable_flag f b r n n' :
  node_store_ r !! f = Some n →
  node_store_ (SetEvictable f b r).2 !! f = Some n' →
  is_evictable_ n' = b.
Proof.
  intros Hn Hn'.
  destruct (SetEvictable_tracked f b r) as (_ & _ & H); [by eexists|].
  rewrite Hn' in H. by injection H.
Qed.

(** After the two replacer calls that install or re-pin frame [f], a frame
    is evictable only if it was so before and is not [f]. *)
Lemma repin_evictable r f g n :
  is_Some (node_store_ (RecordAccess f r).2 !! f) →
  node_store_ (SetEvictable f false (RecordAccess f r).2).2 !! g = Some n →
  is_evictable_ n = true →
  g ≠ f ∧ ∃ n0, node_store_ r !! g = Some n0 ∧ is_evictable_ n0 = true.
Proof.
  intros [n1 Hn1] Hn He. destruct (decide (g = f)) as [->|Hg].
  - rewrite (SetEvictable_flag f false _ n1 n Hn1 Hn) in He. done.
  - split; [done|]. exists n.
    rewrite SetEvictable_other, RecordAccess_other in Hn by done. done.
Qed.

(** ** Obtaining a frame *)

Lemma list_back_elem_of (l : list Z) : l ≠ [] → list_back l ∈ l.
Proof.
  intros Hl. pose proof (app_removelast_last 0 Hl) as Happ.
  unfold list_back. rewrite Happ at 2. set_solver.
Qed.

Lemma page_at_FlushFrame f g b :
  page_at (FlushFrame f b).2 g =
    if decide (g = f) then set_is_dirty false (page_at b f) else page_at b g.
Proof.
  destruct (FlushFrame_spec f b) as [_ ->].
  destruct (is_dirty_ (page_at b f)) eqn:Hd.
  - rewrite page_at_with_disk, page_at_update.
    case_decide as H1; case_decide as H2; try done.
    + naive_solver.
    + subst g. rewrite page_at_outside in Hd by naive_solver. done.
  - case_decide; [|done]. subst g. destruct (page_at b f). simpl in *.
    by subst.
Qed.

Lemma disk_FlushFrame f b :
  disk_ (FlushFrame f b).2 =
    if is_dirty_ (page_at b f)
    then disk_write (data_ (page_at b f)) (page_id_ (page_at b f)) (disk_ b)
    else disk_ b.
Proof.
  destruct (FlushFrame_spec f b) as [_ ->].
  by destruct (is_dirty_ (page_at b f)).
Qed.

(** The two ways to obtain a frame, field by field. *)
Lemma acquire_frame_fields b :
  inv b →
  match acquire_frame (free_list_ b) b with
  | (Returned (Some f), b0) =>
      next_page_id_ b0 = next_page_id_ b ∧
      (∀ g, g ≠ f → page_at b0 g = page_at b g) ∧
      data_ (page_at b0 f) = data_ (page_at b f) ∧
      page_id_ (page_at b0 f) = page_id_ (page_at b f) ∧
      pin_count_ (page_at b0 f) = pin_count_ (page_at b f) ∧
      ((free_list_ b ≠ [] ∧ f = list_back (free_list_ b) ∧
        free_list_ b0 = pop_back (free_list_ b) ∧
        replacer_ b0 = replacer_ b ∧ page_table_ b0 = page_table_ b ∧
        disk_ b0 = disk_ b ∧ page_at b0 f = page_at b f)
       ∨
       (free_list_ b = [] ∧ free_list_ b0 = [] ∧
        (∃ n, node_store_ (replacer_ b) !! f = Some n ∧
              is_evictable_ n = true) ∧
        Evict (replacer_ b) = (Some f, replacer_ b0) ∧
        node_store_ (replacer_ b0) = delete f (node_store_ (replacer_ b)) ∧
        page_table_ b0 = delete (page_id_ (page_at b f)) (page_table_ b) ∧
        is_dirty_ (page_at b0 f) = false ∧
        disk_ b0 =
          if is_dirty_ (page_at b f)
          then disk_write (data_ (page_at b f)) (page_id_ (page_at b f))
                 (disk_ b)
          else disk_ b))
  | (Returned None, b0) =>
      b0 = b ∧ free_list_ b = [] ∧ (Evict (replacer_ b)).1 = None
  | (Thrown, _) => False
  end.
Proof.
  intros Hinv. unfold acquire_frame.
  case_bool_decide as Hfl; simpl.
  - unfold bind, replacer_Evict.
    pose proof (inv_replacer b Hinv) as Hwf.
    destruct (Evict_spec (replacer_ b) Hwf) as (Hmax & Hclk & Hev).
    destruct (Evict (replacer_ b)) as [[f|] r'] eqn:HE; simpl in *.
    + destruct Hev as [Htr Hst].
      assert (∃ n, node_store_ (replacer_ b) !! f = Some n ∧
                   is_evictable_ n = true) as Hevf.
      { unfold Evict in HE.
        destruct (evict_queue_ (replacer_ b)) as [|p q] eqn:Hq; [done|].
        destruct (wf_head_evictable _ p q Hwf Hq) as (n & [Hn He] & Hfid).
        rewrite Hfid in HE. injection HE as <- _. by exists n. }
      set (b1 := with_page_table _ (with_replacer r' b)).
      destruct (FlushFrame_frame f b1)
        as (Ho & Eps & Epg & Er & Efl & Ept & Enp & Eid & Epin & Edata).
      pose proof (page_at_FlushFrame f f b1) as Hpf.
      pose proof (disk_FlushFrame f b1) as Hdisk.
      assert (∀ g, g ≠ f → page_at (FlushFrame f b1).2 g = page_at b1 g) as Hpg.
      { intros g Hg. rewrite page_at_FlushFrame. by rewrite decide_False. }
      destruct (FlushFrame f b1) as [o b2]. simpl in *. subst o. simpl.
      split_and!; [done|done|by rewrite Edata|by rewrite Eid|by rewrite Epin|].
      right. rewrite Hfl in *.
      split_and!; [done|done|done|by rewrite Er|by rewrite Er|done| |done].
      rewrite Hpf. by rewrite decide_True.
    + destruct b. simpl in *. by subst r'.
  - unfold bind, modify, ret. simpl.
    split_and!; try done. left. by split_and!.
Qed.

(** ** [NewPage] and the miss path of [FetchPage], field by field *)

Lemma NewPage_fields b :
  inv b → current_timestamp_ (replacer_ b) + 1 < 2 ^ 64 →
  match acquire_frame (free_list_ b) b with
  | (Returned (Some f), b0) =>
      let b' := (NewPage b).2 in
      (NewPage b).1 = Returned (Some (f, next_page_id_ b)) ∧
      pool_size_ b' = pool_size_ b0 ∧
      page_table_ b' = map_emplace (next_page_id_ b) f (page_table_ b0) ∧
      free_list_ b' = free_list_ b0 ∧
      next_page_id_ b' = next_page_id_ b + 1 ∧
      disk_ b' = disk_ b0 ∧
      replacer_ b' = (SetEvictable f false (RecordAccess f (replacer_ b0)).2).2 ∧
      is_Some (node_store_ (RecordAccess f (replacer_ b0)).2 !! f) ∧
      page_at b' f =
        mkPage zero_page (next_page_id_ b) 1 (is_dirty_ (page_at b0 f)) ∧
      (∀ g, g ≠ f → page_at b' g = page_at b0 g)
  | (Returned None, _) => NewPage b = (Returned None, b)
  | (Thrown, _) => False
  end.
Proof.
  intros Hinv Hclk.
  pose proof (acquire_frame_spec b Hinv) as Hacq.
  pose proof (acquire_frame_fields b Hinv) as Hfld.
  destruct (NewPage b) as [o b'] eqn:E.
  rewrite NewPage_acquire in E. unfold bind at 1 2 in E.
  unfold gets at 1 in E.
  destruct (acquire_frame (free_list_ b) b) as [[[f|]|] b0]; [| |done].
  2:{ destruct Hfld as (-> & _). by injection E as <- <-. }
  destruct Hacq as [Hh Hc0]. destruct Hfld as (Hnp & _).
  unfold bind, AllocatePage, gets, modify, ret, replacer_call in E.
  simpl in E. rewrite ?update_page_replacer in E. simpl in E.
  destruct (install_spec b0 f (next_page_id_ b0) Hh) as (Ho1 & Ho2 & _ & _);
    [lia|].
  assert (is_Some (node_store_ (RecordAccess f (replacer_ b0)).2 !! f)) as Htr.
  { destruct (RecordAccess_new f (replacer_ b0)) as [_ Hd];
      [apply (held_untracked b0 f Hh)|apply (held_room b0 f Hh)|].
    apply Hd. by left. }
  destruct (RecordAccess f (replacer_ b0)) as [o1 r1]; simpl in *; subst o1.
  destruct (SetEvictable f false r1) as [o2 r2]; simpl in *; subst o2.
  simpl in E. injection E as <- <-.
  pose proof (held_in_pool b0 f Hh) as Hin. rewrite <- Hnp.
  split_and!; pool_simpl; try done.
  - by page_simpl.
  - intros g Hg. by page_simpl.
Qed.

Lemma FetchPage_miss_fields b page_id :
  inv b → current_timestamp_ (replacer_ b) + 1 < 2 ^ 64 →
  page_table_ b !! page_id = None →
  match acquire_frame (free_list_ b) b with
  | (Returned (Some f), b0) =>
      let b' := (FetchPage page_id b).2 in
      (FetchPage page_id b).1 = Returned (Some f) ∧
      pool_size_ b' = pool_size_ b0 ∧
      page_table_ b' = map_emplace page_id f (page_table_ b0) ∧
      free_list_ b' = free_list_ b0 ∧
      next_page_id_ b' = next_page_id_ b ∧
      disk_ b' = (disk_read page_id (disk_ b0)).2 ∧
      replacer_ b' = (SetEvictable f false (RecordAccess f (replacer_ b0)).2).2 ∧
      is_Some (node_store_ (RecordAccess f (replacer_ b0)).2 !! f) ∧
      page_at b' f =
        mkPage (default zero_page (disk_pages (disk_ b0) !! page_id)) page_id 0
               (is_dirty_ (page_at b0 f)) ∧
      (∀ g, g ≠ f → page_at b' g = page_at b0 g)
  | (Returned None, _) => FetchPage page_id b = (Returned None, b)
  | (Thrown, _) => False
  end.
Proof.
  intros Hinv Hclk Hmiss.
  pose proof (acquire_frame_spec b Hinv) as Hacq.
  pose proof (acquire_frame_fields b Hinv) as Hfld.
  destruct (FetchPage page_id b) as [o b'] eqn:E.
  rewrite FetchPage_acquire in E. unfold bind at 1 in E.
  unfold gets at 1 in E. rewrite Hmiss in E.
  unfold bind at 1 2 in E. unfold gets at 1 in E.
  destruct (acquire_frame (free_list_ b) b) as [[[f|]|] b0]; [| |done].
  2:{ destruct Hfld as (-> & _). by injection E as <- <-. }
  destruct Hacq as [Hh Hc0]. destruct Hfld as (Hnp & _).
  unfold bind, gets, modify, ret, replacer_call, disk_read in E. simpl in E.
  destruct (install_spec b0 f page_id Hh) as (Ho1 & Ho2 & _ & _); [lia|].
  assert (is_Some (node_store_ (RecordAccess f (replacer_ b0)).2 !! f)) as Htr.
  { destruct (RecordAccess_new f (replacer_ b0)) as [_ Hd];
      [apply (held_untracked b0 f Hh)|apply (held_room b0 f Hh)|].
    apply Hd. by left. }
  destruct (RecordAccess f (replacer_ b0)) as [o1 r1]; simpl in *; subst o1.
  destruct (SetEvictable f false r1) as [o2 r2]; simpl in *; subst o2.
  simpl in E. injection E as <- <-.
  pose proof (held_in_pool b0 f Hh) as Hin. rewrite <- Hnp.
  split_and!; pool_simpl; try done.
  - by page_simpl.
  - by page_simpl.
  - intros g Hg. by page_simpl.
Qed.

(** ** [UnpinPage] and [DeletePage], field by field *)

Lemma UnpinPage_run b page_id (is_dirty : bool) f :
  inv b → page_table_ b !! page_id = Some f →
  pin_count_ (page_at b f) ≠ 0 →
  UnpinPage page_id is_dirty b =
    (Returned true,
     (if is_dirty then update_page f (set_is_dirty true) else id)
       (with_replacer
          (if pin_count_ (page_at b f) - 1 =? 0
           then (SetEvictable f true (replacer_ b)).2 else replacer_ b)
          (update_page f (λ p, set_pin_count (pin_count_ p - 1) p) b))).
Proof.
  intros Hinv Hf Hpin.
  pose proof (inv_in_pool b page_id f Hinv Hf) as Hin.
  destruct (inv_resident b Hinv page_id f Hf) as [Htr _].
  unfold UnpinPage, bind, gets, modify, ret, replacer_call. simpl.
  rewrite Hf. apply Z.eqb_neq in Hpin. rewrite Hpin. simpl.
  rewrite page_at_update_eq by done. simpl.
  destruct (pin_count_ (page_at b f) - 1 =? 0).
  - rewrite update_page_replacer.
    destruct (SetEvictable_tracked f true (replacer_ b) Htr) as (Ho & _).
    destruct (SetEvictable f true (replacer_ b)) as [o r']; simpl in *.
    subst o. simpl. by destruct is_dirty.
  - assert (∀ b0, with_replacer (replacer_ b) (update_page f
              (λ p, set_pin_count (pin_count_ p - 1) p) b0)
              = update_page f (λ p, set_pin_count (pin_count_ p - 1) p)
                  (with_replacer (replacer_ b) b0)) as Hcomm.
    { intros b0. unfold update_page. by case_decide. }
    rewrite Hcomm.
    assert (with_replacer (replacer_ b) b = b) as -> by by destruct b.
    by destruct is_dirty.
Qed.

Lemma UnpinPage_fields b page_id is_dirty f :
  inv b → page_table_ b !! page_id = Some f →
  pin_count_ (page_at b f) ≠ 0 →
  let b' := (UnpinPage page_id is_dirty b).2 in
  let page := page_at b f in
  (UnpinPage page_id is_dirty b).1 = Returned true ∧
  pool_size_ b' = pool_size_ b ∧
  page_table_ b' = page_table_ b ∧
  free_list_ b' = free_list_ b ∧
  next_page_id_ b' = next_page_id_ b ∧
  disk_ b' = disk_ b ∧
  replacer_ b' =
    (if pin_count_ page - 1 =? 0
     then (SetEvictable f true (replacer_ b)).2 else replacer_ b) ∧
  page_at b' f =
    mkPage (data_ page) (page_id_ page) (pin_count_ page - 1)
           (is_dirty || is_dirty_ page) ∧
  (∀ g, g ≠ f → page_at b' g = page_at b g).
Proof.
  intros Hinv Hf Hpin b' page. subst b'.
  pose proof (inv_in_pool b page_id f Hinv Hf) as Hin.
  rewrite (UnpinPage_run b page_id is_dirty f Hinv Hf Hpin). cbn [fst snd].
  destruct is_dirty; cbn [id orb]; split_and!; pool_simpl; try done;
    try (intros g Hg; by page_simpl); by page_simpl.
Qed.

Lemma UnpinPage_refused b page_id is_dirty :
  (∀ f, page_table_ b !! page_id = Some f → pin_count_ (page_at b f) = 0) →
  UnpinPage page_id is_dirty b = (Returned false, b).
Proof.
  intros H. unfold UnpinPage, bind, gets, ret. simpl.
  destruct (page_table_ b !! page_id) as [f|]; [|done].
  by rewrite (H f eq_refl).
Qed.

Lemma DeletePage_absent b page_id :
  page_table_ b !! page_id = None → DeletePage page_id b = (Returned true, b).
Proof. intros H. unfold DeletePage, bind, gets, ret. simpl. by rewrite H. Qed.

Lemma DeletePage_pinned b page_id f :
  page_table_ b !! page_id = Some f → 0 < pin_count_ (page_at b f) →
  DeletePage page_id b =
    (Returned false, with_page_table (delete page_id (page_table_ b)) b).
Proof.
  intros Hf Hpin. unfold DeletePage, bind, gets, modify, ret. simpl.
  rewrite Hf. simpl. rewrite page_at_with_page_table.
  apply Z.ltb_lt in Hpin. by rewrite Hpin.
Qed.

Lemma DeletePage_stuck b page_id f n :
  page_table_ b !! page_id = Some f → pin_count_ (page_at b f) ≤ 0 →
  node_store_ (replacer_ b) !! f = Some n → is_evictable_ n = false →
  DeletePage page_id b =
    (Thrown, with_page_table (delete page_id (page_table_ b)) b).
Proof.
  intros Hf Hpin Hn He.
  unfold DeletePage, bind, gets, modify, ret, replacer_call. simpl.
  rewrite Hf. simpl. rewrite page_at_with_page_table.
  destruct (Z.ltb_spec 0 (pin_count_ (page_at b f))) as [|_]; [lia|].
  cbn [replacer_ with_page_table]. unfold Remove. rewrite Hn, He.
  by destruct b.
Qed.

Lemma DeletePage_run b page_id f n :
  page_table_ b !! page_id = Some f →
  pin_count_ (page_at b f) ≤ 0 →
  node_store_ (replacer_ b) !! f = Some n → is_evictable_ n = true →
  DeletePage page_id b =
    (Returned true,
     update_page f ResetMemory
       (update_page f (set_page_id INVALID_PAGE_ID)
          (FlushFrame f
             (with_free_list (f :: free_list_ b)
                (with_replacer (Remove f (replacer_ b)).2
                   (with_page_table (delete page_id (page_table_ b)) b)))).2)).
Proof.
  intros Hf Hpin Hn He.
  unfold DeletePage, bind at 1, gets at 1. rewrite Hf.
  unfold bind, gets, modify, ret, replacer_call, DeallocatePage. simpl.
  rewrite page_at_with_page_table.
  destruct (Z.ltb_spec 0 (pin_count_ (page_at b f))) as [|_]; [lia|].
  assert (Remove f (replacer_ b) =
            (Returned tt, (Remove f (replacer_ b)).2)) as HR.
  { unfold Remove. by rewrite Hn, He. }
  cbn [replacer_ with_page_table]. rewrite HR.
  cbn [free_list_ with_replacer with_page_table].
  set (b1 := with_free_list _ _).
  destruct (FlushFrame_frame f b1) as (Ho & _).
  destruct (FlushFrame f b1) as [o b2]; simpl in *; by subst o.
Qed.

Lemma DeletePage_fields b page_id f n :
  inv b → page_table_ b !! page_id = Some f →
  pin_count_ (page_at b f) ≤ 0 →
  node_store_ (replacer_ b) !! f = Some n → is_evictable_ n = true →
  let b' := (DeletePage page_id b).2 in
  let page := page_at b f in
  (DeletePage page_id b).1 = Returned true ∧
  pool_size_ b' = pool_size_ b ∧
  page_table_ b' = delete page_id (page_table_ b) ∧
  free_list_ b' = f :: free_list_ b ∧
  next_page_id_ b' = next_page_id_ b ∧
  replacer_ b' = (Remove f (replacer_ b)).2 ∧
  node_store_ (replacer_ b') = delete f (node_store_ (replacer_ b)) ∧
  disk_ b' =
    (if is_dirty_ page then disk_write (data_ page) page_id (disk_ b)
     else disk_ b) ∧
  page_at b' f = mkPage zero_page INVALID_PAGE_ID (pin_count_ page) false ∧
  (∀ g, g ≠ f → page_at b' g = page_at b g).
Proof.
  intros Hinv Hf Hpin Hn He b' page. subst b'.
  pose proof (inv_in_pool b page_id f Hinv Hf) as Hin.
  destruct (inv_resident b Hinv page_id f Hf) as [_ Hid].
  rewrite (DeletePage_run b page_id f n Hf Hpin Hn He). cbn [fst snd].
  assert (node_store_ (Remove f (replacer_ b)).2
            = delete f (node_store_ (replacer_ b))) as Hst.
  { unfold Remove. by rewrite Hn, He. }
  set (b1 := with_free_list _ _).
  pose proof (page_at_FlushFrame f f b1) as Hpf.
  rewrite decide_True in Hpf by done.
  assert (∀ g, g ≠ f → page_at (FlushFrame f b1).2 g = page_at b1 g) as Hpg.
  { intros g Hg. rewrite page_at_FlushFrame. by rewrite decide_False. }
  pose proof (disk_FlushFrame f b1) as Hdisk.
  destruct (FlushFrame_frame f b1)
    as (Ho & Eps & Epg & Er & Efl & Ept & Enp & _).
  assert (in_pool (FlushFrame f b1).2 f) as Hin2.
  { unfold in_pool in *. by rewrite Epg. }
  split_and!; pool_simpl; try done.
  - by rewrite Er.
  - rewrite Hdisk. subst b1 page. pool_simpl. by rewrite Hid.
  - page_simpl. rewrite Hpf. by subst b1.
  - intros g Hg. page_simpl. rewrite Hpg by done. by subst b1.
Qed.

(** ** Pins, eviction and the free list *)

Lemma map_emplace_keeps k v (m : gmap Z Z) k' v' :
  m !! k' = Some v' → map_emplace k v m !! k' = Some v'.
Proof.
  intros H. unfold map_emplace. destruct (m !! k) eqn:Hk; [done|].
  rewrite lookup_insert_ne; [done|]. intros ->. congruence.
Qed.

Lemma map_emplace_new k v (m : gmap Z Z) :
  m !! k = None → map_emplace k v m !! k = Some v.
Proof. intros H. unfold map_emplace. rewrite H. apply lookup_insert_eq. Qed.

Lemma page_at_create pool_size replacer_k f :
  page_at (BPM.create pool_size replacer_k) f = fresh_Page.
Proof.
  unfold page_at. case_decide; [|done]. simpl.
  destruct (decide (Z.to_nat f < pool_size)%nat) as [Hlt|Hge].
  - by apply lookup_total_replicate_2.
  - rewrite list_lookup_total_alt, lookup_ge_None_2; [done|].
    rewrite length_replicate. lia.
Qed.

Lemma pins_create pool_size replacer_k : pins (BPM.create pool_size replacer_k).
Proof.
  split.
  - intros f. by rewrite page_at_create.
  - intros f n Hn. simpl in Hn. by rewrite lookup_empty in Hn.
  - intros f _. by rewrite page_at_create.
Qed.

(** The frame just obtained is unpinned and clean, and the pool around it
    still has its pins in order. *)
Lemma acquire_frame_pins b :
  inv b → pins b →
  match acquire_frame (free_list_ b) b with
  | (Returned (Some f), b0) =>
      pins b0 ∧ pin_count_ (page_at b0 f) = 0 ∧ is_dirty_ (page_at b0 f) = false
  | _ => True
  end.
Proof.
  intros Hinv [P1 P2 P3].
  pose proof (acquire_frame_fields b Hinv) as Hfld.
  destruct (acquire_frame (free_list_ b) b) as [[[f|]|] b0]; [|done..].
  destruct Hfld as (Hnp & Hpg & Hdata & Hid & Hpin & Hcase).
  assert (Hpins : ∀ g, pin_count_ (page_at b0 g) = pin_count_ (page_at b g)).
  { intros g. destruct (decide (g = f)) as [->|Hg]; [done|by rewrite Hpg]. }
  assert (Hids : ∀ g, page_id_ (page_at b0 g) = page_id_ (page_at b g)).
  { intros g. destruct (decide (g = f)) as [->|Hg]; [done|by rewrite Hpg]. }
  destruct Hcase as [(Hne & Hf & Hfl & Hr & Hpt & Hd & Hpf)
                    |(Hnil & Hfl & (n & Hn & He) & HE & Hst & Hpt & Hcl & Hd)].
  - assert (f ∈ free_list_ b) as Hin by (subst f; by apply list_back_elem_of).
    assert (Hsub : ∀ g, g ∈ pop_back (free_list_ b) → g ∈ free_list_ b).
    { intros g Hg. rewrite (app_removelast_last 0 Hne).
      unfold pop_back in Hg. set_solver. }
    destruct (P3 f Hin) as [Hp0 Hc0].
    split; [|by rewrite Hpf]. split.
    + intros g. rewrite Hpins. apply P1.
    + intros g m. rewrite Hr, Hpt, Hpins, Hids. apply P2.
    + intros g Hg. rewrite Hfl in Hg. apply Hsub in Hg.
      destruct (decide (g = f)) as [->|Hgf]; [by rewrite Hpf|].
      rewrite Hpg by done. by apply P3.
  - destruct (P2 f n Hn He) as [Hp0 Hres].
    split; [|split; [by rewrite Hpin|done]]. split.
    + intros g. rewrite Hpins. apply P1.
    + intros g m. rewrite Hst, Hpt, Hpins, Hids.
      intros [Hgf Hm]%lookup_delete_Some Hem.
      destruct (P2 g m Hm Hem) as [Hg0 Hgres]. split; [done|].
      rewrite lookup_delete_ne; [done|]. intros Heq.
      rewrite Heq in Hres. congruence.
    + intros g Hg. rewrite Hfl in Hg. by apply elem_of_nil in Hg.
Qed.

Lemma pins_NewPage b :
  inv b → pins b → current_timestamp_ (replacer_ b) + 1 < 2 ^ 64 →
  pins (NewPage b).2.
Proof.
  intros Hinv Hp Hclk.
  pose proof (acquire_frame_spec b Hinv) as Hacq.
  pose proof (acquire_frame_pins b Hinv Hp) as Hap.
  pose proof (NewPage_fields b Hinv Hclk) as Hfld.
  destruct (acquire_frame (free_list_ b) b) as [[[f|]|] b0]; [| |done].
  2:{ by rewrite Hfld. }
  destruct Hacq as [Hh _]. destruct Hap as ([P1 P2 P3] & Hp0 & Hc0).
  destruct Hfld as (_ & _ & Hpt & Hfl & _ & _ & Hr & Htr & Hpf & Hpg).
  split.
  - intros g. destruct (decide (g = f)) as [->|Hg].
    + rewrite Hpf. simpl. lia.
    + rewrite Hpg by done. apply P1.
  - intros g n. rewrite Hr. intros Hn He.
    destruct (repin_evictable _ f g n Htr Hn He) as (Hg & n0 & Hn0 & He0).
    rewrite Hpg by done. destruct (P2 g n0 Hn0 He0) as [? ?].
    split; [done|]. rewrite Hpt. by apply map_emplace_keeps.
  - intros g. rewrite Hfl. intros Hg.
    assert (g ≠ f) as Hgf.
    { intros ->. by apply (held_not_free b0 f Hh). }
    rewrite Hpg by done. by apply P3.
Qed.

Lemma pins_FetchPage page_id b :
  inv b → pins b → current_timestamp_ (replacer_ b) + 1 < 2 ^ 64 →
  pins (FetchPage page_id b).2.
Proof.
  intros Hinv Hp Hclk.
  destruct (page_table_ b !! page_id) as [f|] eqn:Hf.
  - destruct (inv_resident b Hinv page_id f Hf) as [Htr _].
    rewrite (FetchPage_hit_run b page_id f Hf Htr). cbn [snd].
    destruct Hp as [P1 P2 P3].
    destruct (RecordAccess_tracked f (replacer_ b) Htr) as [_ Hd1].
    assert (is_Some (node_store_ (RecordAccess f (replacer_ b)).2 !! f)) as Htr1
      by by apply Hd1.
    split.
    + intros g. rewrite page_at_update. pool_simpl.
      case_decide; [|apply P1]. simpl. specialize (P1 f). lia.
    + intros g n. pool_simpl. intros Hn He.
      destruct (repin_evictable _ f g n Htr1 Hn He) as (Hg & n0 & Hn0 & He0).
      rewrite page_at_update_ne by done. pool_simpl. by apply (P2 g n0).
    + intros g. pool_simpl. intros Hg.
      assert (g ≠ f) as Hgf.
      { intros ->. by destruct (inv_tracked b Hinv f Htr). }
      rewrite page_at_update_ne by done. pool_simpl. by apply P3.
  - pose proof (acquire_frame_spec b Hinv) as Hacq.
    pose proof (acquire_frame_pins b Hinv Hp) as Hap.
    pose proof (FetchPage_miss_fields b page_id Hinv Hclk Hf) as Hfld.
    destruct (acquire_frame (free_list_ b) b) as [[[f|]|] b0]; [| |done].
    2:{ by rewrite Hfld. }
    destruct Hacq as [Hh _]. destruct Hap as ([P1 P2 P3] & Hp0 & Hc0).
    destruct Hfld as (_ & _ & Hpt & Hfl & _ & _ & Hr & Htr & Hpf & Hpg).
    split.
    + intros g. destruct (decide (g = f)) as [->|Hg].
      * rewrite Hpf. simpl. lia.
      * rewrite Hpg by done. apply P1.
    + intros g n. rewrite Hr. intros Hn He.
      destruct (repin_evictable _ f g n Htr Hn He) as (Hg & n0 & Hn0 & He0).
      rewrite Hpg by done. destruct (P2 g n0 Hn0 He0) as [? ?].
      split; [done|]. rewrite Hpt. by apply map_emplace_keeps.
    + intros g. rewrite Hfl. intros Hg.
      assert (g ≠ f) as Hgf.
      { intros ->. by apply (held_not_free b0 f Hh). }
      rewrite Hpg by done. by apply P3.
Qed.

Lemma pins_UnpinPage page_id is_dirty b :
  inv b → pins b → pins (UnpinPage page_id is_dirty b).2.
Proof.
  intros Hinv Hp.
  destruct (page_table_ b !! page_id) as [f|] eqn:Hf.
  2:{ rewrite UnpinPage_refused; [done|]. intros f. by rewrite Hf. }
  destruct (decide (pin_count_ (page_at b f) = 0)) as [Hz|Hnz].
  { rewrite UnpinPage_refused; [done|]. intros f'. rewrite Hf. by intros [= <-]. }
  destruct (inv_resident b Hinv page_id f Hf) as [Htr Hid].
  destruct (UnpinPage_fields b page_id is_dirty f Hinv Hf Hnz)
    as (_ & _ & Hpt & Hfl & _ & _ & Hr & Hpf & Hpg).
  destruct Hp as [P1 P2 P3]. split.
  - intros g. destruct (decide (g = f)) as [->|Hg].
    + rewrite Hpf. simpl. specialize (P1 f). lia.
    + rewrite Hpg by done. apply P1.
  - intros g n. rewrite Hr, Hpt. intros Hn He.
    destruct (decide (g = f)) as [->|Hg].
    + rewrite Hpf. simpl.
      destruct (Z.eqb_spec (pin_count_ (page_at b f) - 1) 0) as [Hz|Hz];
        [by rewrite Hid|].
      destruct (P2 f n Hn He) as [? _]. lia.
    + rewrite Hpg by done. apply (P2 g n); [|done].
      destruct (pin_count_ (page_at b f) - 1 =? 0); [|done].
      by rewrite SetEvictable_other in Hn.
  - intros g. rewrite Hfl. intros Hg.
    assert (g ≠ f) as Hgf.
    { intros ->. by destruct (inv_tracked b Hinv f Htr). }
    rewrite Hpg by done. by apply P3.
Qed.

Lemma pins_FlushFrame f b : pins b → pins (FlushFrame f b).2.
Proof.
  intros [P1 P2 P3].
  destruct (FlushFrame_frame f b)
    as (_ & _ & _ & Er & Efl & Ept & _ & Eid & Epin & _).
  split.
  - intros g. rewrite Epin. apply P1.
  - intros g n. rewrite Er, Ept, Epin, Eid. apply P2.
  - intros g. rewrite Efl, Epin. intros Hg. destruct (P3 g Hg) as [? Hc].
    split; [done|]. rewrite page_at_FlushFrame. by case_decide; [subst|].
Qed.

Lemma pins_FlushPage page_id b : pins b → pins (FlushPage page_id b).2.
Proof.
  intros Hp. unfold FlushPage, bind, gets, ret. simpl.
  destruct (page_table_ b !! page_id) as [f|]; [|done].
  pose proof (pins_FlushFrame f b Hp) as H.
  destruct (FlushFrame_frame f b) as (Ho & _).
  destruct (FlushFrame f b) as [o b']; simpl in *. by subst o.
Qed.

Lemma pins_FlushAllPages b : pins b → pins (FlushAllPages b).2.
Proof.
  intros Hp. unfold FlushAllPages, bind at 1, gets. simpl.
  generalize (map_to_list (page_table_ b)). intros l.
  revert b Hp. induction l as [|e l IH]; intros b Hp; [done|].
  simpl. unfold bind at 1.
  pose proof (pins_FlushFrame e.2 b Hp) as H.
  destruct (FlushFrame_frame e.2 b) as (Ho & _).
  destruct (FlushFrame e.2 b) as [o b']; simpl in *. subst o.
  by apply IH.
Qed.

Lemma pins_drop_entry b page_id f :
  pins b → page_table_ b !! page_id = Some f →
  (∀ n, node_store_ (replacer_ b) !! f = Some n → is_evictable_ n = false) →
  pins (with_page_table (delete page_id (page_table_ b)) b).
Proof.
  intros [P1 P2 P3] Hf Hne. split; pool_simpl; [done| |done].
  intros g n Hn He. destruct (P2 g n Hn He) as [Hp0 Hres].
  split; [done|]. rewrite lookup_delete_ne; [done|].
  intros Heq. rewrite page_at_with_page_table in Heq.
  rewrite <- Heq, Hf in Hres. injection Hres as ->.
  by rewrite (Hne n Hn) in He.
Qed.

Lemma pins_DeletePage page_id b :
  inv b → pins b → pins (DeletePage page_id b).2.
Proof.
  intros Hinv Hp.
  destruct (page_table_ b !! page_id) as [f|] eqn:Hf.
  2:{ by rewrite DeletePage_absent. }
  destruct (inv_resident b Hinv page_id f Hf) as [[n Hn] Hid].
  destruct (Z.ltb_spec 0 (pin_count_ (page_at b f))) as [Hpin|Hpin].
  { rewrite (DeletePage_pinned b page_id f Hf Hpin). cbn [snd].
    apply (pins_drop_entry b page_id f Hp Hf). intros m Hm.
    destruct (is_evictable_ m) eqn:Hem; [|done].
    destruct (pins_evictable b Hp f m Hm Hem). lia. }
  destruct (is_evictable_ n) eqn:He.
  2:{ rewrite (DeletePage_stuck b page_id f n Hf Hpin Hn He). cbn [snd].
      apply (pins_drop_entry b page_id f Hp Hf). intros m Hm. congruence. }
  destruct (DeletePage_fields b page_id f n Hinv Hf Hpin Hn He)
    as (_ & _ & Hpt & Hfl & _ & _ & Hst & _ & Hpf & Hpg).
  destruct Hp as [P1 P2 P3]. split.
  - intros g. destruct (decide (g = f)) as [->|Hg].
    + rewrite Hpf. simpl. apply P1.
    + rewrite Hpg by done. apply P1.
  - intros g m. rewrite Hst, Hpt.
    intros [Hgf Hm]%lookup_delete_Some Hem.
    rewrite Hpg by done. destruct (P2 g m Hm Hem) as [Hg0 Hres].
    split; [done|]. rewrite lookup_delete_ne; [done|].
    intros Heq. rewrite <- Heq, Hf in Hres. by injection Hres.
  - intros g. rewrite Hfl. intros [->|Hg]%elem_of_cons.
    + rewrite Hpf. simpl. split; [|done]. specialize (P1 f). lia.
    + assert (g ≠ f) as Hgf.
      { intros ->. destruct (inv_tracked b Hinv f); [by eexists|done]. }
      rewrite Hpg by done. by apply P3.
Qed.

Lemma pins_run c b :
  inv b → pins b → current_timestamp_ (replacer_ b) + 1 < 2 ^ 64 →
  pins (run c b).
Proof.
  intros Hinv Hp Hclk. destruct c; simpl.
  - by apply pins_NewPage.
  - by apply pins_FetchPage.
  - by apply pins_UnpinPage.
  - by apply pins_FlushPage.
  - by apply pins_FlushAllPages.
  - by apply pins_DeletePage.
Qed.

Lemma pins_reachable pool_size replacer_k b :
  1 ≤ replacer_k → BPM.reachable pool_size replacer_k b → inv b ∧ pins b.
Proof.
  intros Hk Hr. unfold BPM.reachable in Hr.
  assert (Hinit : inv (BPM.create pool_size replacer_k) ∧
                  pins (BPM.create pool_size replacer_k))
    by (split; [by apply inv_create|apply pins_create]).
  induction Hr as [|x y z Hxy Hyz IH]; [done|].
  apply IH. destruct Hinit as [Hi Hp]. destruct Hxy.
  split; [by apply inv_run|by apply pins_run].
Qed.

Lemma pool1_new_sound : inv pool1_new ∧ pins pool1_new.
Proof. apply (pins_reachable 1 2); [lia|apply pool1_new_reachable]. Qed.

Lemma pool1_dirty_reachable : BPM.reachable 1 2 pool1_dirty.
Proof.
  apply (reachable_run 1 2 (CallUnpinPage 0 true) pool1_new);
    [apply pool1_new_reachable|]. vm_compute. reflexivity.
Qed.

Lemma pool1_dirty_sound : inv pool1_dirty ∧ pins pool1_dirty.
Proof. apply (pins_reachable 1 2); [lia|apply pool1_dirty_reachable]. Qed.

(** X9.  Pins are respected.  In every state the pool can reach, no pin
    count is negative; every frame the replacer may evict is unpinned and
    holds the page the page table records for it; every free frame is
    unpinned and clean; and the frame of a pinned resident page is not in
    the eviction queue. *)
Theorem pinned_frames_are_never_evictable pool_size replacer_k b :
  1 ≤ replacer_k → BPM.reachable pool_size replacer_k b →
  (∀ f, 0 ≤ pin_count_ (page_at b f)) ∧
  (∀ f, f ∈ evictable_set (node_store_ (replacer_ b)) →
     pin_count_ (page_at b f) = 0 ∧
     page_table_ b !! page_id_ (page_at b f) = Some f) ∧
  (∀ f, f ∈ free_list_ b →
     pin_count_ (page_at b f) = 0 ∧ is_dirty_ (page_at b f) = false) ∧
  (∀ page_id f, page_table_ b !! page_id = Some f →
     0 < pin_count_ (page_at b f) → f ∉ evict_queue_ (replacer_ b)).
Proof.
  intros Hk Hr. destruct (pins_reachable _ _ _ Hk Hr) as [Hinv [P1 P2 P3]].
  split_and!; [done| |done|].
  - intros f (n & Hn & He)%elem_of_evictable_set. by apply (P2 f n).
  - intros page_id f Hf Hpin Hq.
    apply (wf_queue _ (inv_replacer b Hinv)) in Hq as (n & Hn & He).
    destruct (P2 f n Hn He). lia.
Qed.

Lemma pinned_frames_are_never_evictable_witness :
  (∀ f, 0 ≤ pin_count_ (page_at pool1_new f)) ∧
  (∀ page_id f, page_table_ pool1_new !! page_id = Some f →
     0 < pin_count_ (page_at pool1_new f) →
     f ∉ evict_queue_ (replacer_ pool1_new)).
Proof.
  destruct (pinned_frames_are_never_evictable 1 2 pool1_new)
    as (H1 & _ & _ & H4); [lia|apply pool1_new_reachable|].
  split; [exact H1|exact H4].
Defined.

(** ** Frames are never double-booked *)

Lemma page_table_injective b p p' f :
  inv b → page_table_ b !! p = Some f → page_table_ b !! p' = Some f → p = p'.
Proof.
  intros Hinv Hp Hp'.
  destruct (inv_resident b Hinv p f Hp) as [_ <-].
  by destruct (inv_resident b Hinv p' f Hp') as [_ <-].
Qed.

Lemma page_table_size b :
  inv b → (size (page_table_ b) ≤ size (node_store_ (replacer_ b)))%nat.
Proof.
  intros Hinv. rewrite <- (length_map_to_list (page_table_ b)).
  set (l := map_to_list (page_table_ b)).
  assert (NoDup l.*2) as Hnd.
  { apply NoDup_fmap_2_strong; [|apply NoDup_map_to_list].
    intros [p f] [p' f'] Hx Hy Heq. simpl in Heq. subst f'.
    apply elem_of_map_to_list in Hx, Hy.
    by rewrite (page_table_injective b p p' f Hinv Hx Hy). }
  rewrite <- (length_fmap snd l), <- (size_list_to_set (C:=gset Z)) by done.
  rewrite <- (size_dom (node_store_ (replacer_ b))).
  apply subseteq_size. intros f Hf. apply elem_of_list_to_set in Hf.
  apply list_elem_of_fmap in Hf as ([p f'] & -> & Hpf). simpl.
  apply elem_of_map_to_list in Hpf. apply elem_of_dom.
  by destruct (inv_resident b Hinv p f' Hpf).
Qed.

(** X10.  Frames are never double-booked.  In every state the pool can
    reach, the free frames and the resident pages together never exceed the
    pool; the free list has no duplicates and only frames of the pool; no
    free frame is in the page table; every page-table entry leads to a frame
    of the pool that records that page's id; and no frame holds two
    pages. *)
Theorem frames_are_never_double_booked pool_size replacer_k b :
  1 ≤ replacer_k → BPM.reachable pool_size replacer_k b →
  Z.of_nat (length (free_list_ b)) + Z.of_nat (size (page_table_ b))
    ≤ pool_size_ b ∧
  NoDup (free_list_ b) ∧
  (∀ f, f ∈ free_list_ b →
     0 ≤ f < pool_size_ b ∧ ∀ page_id, page_table_ b !! page_id ≠ Some f) ∧
  (∀ page_id f, page_table_ b !! page_id = Some f →
     0 ≤ f < pool_size_ b ∧ page_id_ (page_at b f) = page_id) ∧
  (∀ p p' f, page_table_ b !! p = Some f → page_table_ b !! p' = Some f →
     p = p').
Proof.
  intros Hk Hr. pose proof (inv_reachable _ _ _ Hk Hr) as Hinv.
  split_and!.
  - pose proof (page_table_size b Hinv) as Hsz.
    pose proof (tracked_bound (node_store_ (replacer_ b)) (free_list_ b)
                  (pool_size_ b)) as Hb.
    enough (Z.of_nat (size (node_store_ (replacer_ b)))
            + Z.of_nat (length (free_list_ b)) ≤ pool_size_ b) by lia.
    apply Hb.
    + rewrite <- (inv_pages b Hinv). lia.
    + apply (inv_free_NoDup b Hinv).
    + apply (inv_free_range b Hinv).
    + apply (inv_tracked b Hinv).
  - apply (inv_free_NoDup b Hinv).
  - intros f Hf. split; [by apply (inv_free_range b Hinv)|].
    intros page_id Hp. destruct (inv_resident b Hinv page_id f Hp) as [Htr _].
    by destruct (inv_tracked b Hinv f Htr).
  - intros page_id f Hp. destruct (inv_resident b Hinv page_id f Hp) as [Htr ?].
    by destruct (inv_tracked b Hinv f Htr).
  - intros p p' f. by apply page_table_injective.
Qed.

Lemma frames_are_never_double_booked_witness :
  Z.of_nat (length (free_list_ pool1_new)) + Z.of_nat (size (page_table_ pool1_new))
    ≤ pool_size_ pool1_new ∧
  NoDup (free_list_ pool1_new).
Proof.
  destruct (frames_are_never_double_booked 1 2 pool1_new)
    as (H1 & H2 & _); [lia|apply pool1_new_reachable|].
  split; [exact H1|exact H2].
Defined.

(** ** [NewPage] *)

Lemma Evict_None_queue r : (Evict r).1 = None → evict_queue_ r = [].
Proof. unfold Evict. by destruct (evict_queue_ r). Qed.

(** X11.  What [NewPage] does, in any pool state that satisfies the
    invariants.  It returns null only when no frame is free and none is
    evictable, and then changes nothing, not even the id counter.
    Otherwise it returns a frame together with the next page id, and bumps
    the counter by one; the frame is zeroed, clean, records the new id, has
    pin count 1 and is non-evictable; no other frame changes; the new id is
    resident in that frame (unless the id was resident already, which
    [emplace] leaves alone); and when a frame is free, it is the back of the
    free list that is taken, nothing is evicted and the disk is not
    touched. *)
Theorem NewPage_effect b :
  inv b → pins b → current_timestamp_ (replacer_ b) + 1 < 2 ^ 64 →
  let b' := (NewPage b).2 in
  match (NewPage b).1 with
  | Returned (Some (f, page_id)) =>
      page_id = next_page_id_ b ∧ next_page_id_ b' = page_id + 1 ∧
      page_at b' f = mkPage zero_page page_id 1 false ∧
      (is_evictable_ <$> node_store_ (replacer_ b') !! f) = Some false ∧
      (∀ g, g ≠ f → page_at b' g = page_at b g) ∧
      (page_table_ b !! page_id = None → page_table_ b' !! page_id = Some f) ∧
      (free_list_ b ≠ [] →
         f = list_back (free_list_ b) ∧
         free_list_ b' = pop_back (free_list_ b) ∧
         page_table_ b' = map_emplace page_id f (page_table_ b) ∧
         disk_ b' = disk_ b)
  | Returned None =>
      b' = b ∧ free_list_ b = [] ∧ evict_queue_ (replacer_ b) = []
  | Thrown => False
  end.
Proof.
  intros Hinv Hp Hclk b'. subst b'.
  pose proof (acquire_frame_fields b Hinv) as Hacq.
  pose proof (acquire_frame_pins b Hinv Hp) as Hap.
  pose proof (NewPage_fields b Hinv Hclk) as Hfld.
  destruct (acquire_frame (free_list_ b) b) as [[[f|]|] b0]; [| |done].
  2:{ rewrite Hfld. cbn [fst snd]. destruct Hacq as (_ & Hfl & HE).
      split_and!; [done|done|by apply Evict_None_queue]. }
  destruct Hfld as (Ho & _ & Hpt & Hfl & Hnp & Hd & Hr & Htr & Hpf & Hpg).
  destruct Hap as (_ & _ & Hc0).
  destruct Hacq as (_ & Hpg0 & _ & _ & _ & Hcase).
  rewrite Ho. split_and!; [done|done|by rewrite Hpf, Hc0| | | |].
  - rewrite Hr. by destruct (SetEvictable_tracked f false _ Htr) as (_ & _ & ?).
  - intros g Hg. rewrite Hpg by done. by apply Hpg0.
  - intros Hnone. rewrite Hpt. apply map_emplace_new.
    destruct Hcase as [(_ & _ & _ & _ & -> & _)|(_ & _ & _ & _ & _ & -> & _)];
      [done|]. apply lookup_delete_None. by right.
  - intros Hne.
    destruct Hcase as [(_ & Hf & Hfl0 & _ & Hpt0 & Hd0 & _)|(Hnil & _)];
      [|done].
    split_and!; [done|by rewrite Hfl|by rewrite Hpt, Hpt0|by rewrite Hd].
Qed.

Lemma NewPage_effect_witness :
  (NewPage pool1).1 = Returned (Some (0, 0)) ∧
  page_at (NewPage pool1).2 0 = mkPage zero_page 0 1 false ∧
  (NewPage pool1_new).1 = Returned None ∧
  (NewPage pool1_new).2 = pool1_new.
Proof.
  assert (inv pool1 ∧ pins pool1) as [Hi Hp]
    by (split; [by apply inv_create|apply pins_create]).
  assert (current_timestamp_ (replacer_ pool1) + 1 < 2 ^ 64) as Hc
    by (vm_compute; reflexivity).
  pose proof (NewPage_effect pool1 Hi Hp Hc) as H1. cbv zeta in H1.
  assert ((NewPage pool1).1 = Returned (Some (0, 0))) as E1
    by (vm_compute; reflexivity).
  rewrite E1 in H1. destruct H1 as (_ & _ & H1 & _).
  destruct pool1_new_sound as [Hi' Hp'].
  assert (current_timestamp_ (replacer_ pool1_new) + 1 < 2 ^ 64) as Hc'
    by (vm_compute; reflexivity).
  pose proof (NewPage_effect pool1_new Hi' Hp' Hc') as H2. cbv zeta in H2.
  assert ((NewPage pool1_new).1 = Returned None) as E2
    by (vm_compute; reflexivity).
  rewrite E2 in H2. destruct H2 as (H2 & _).
  split_and!; [exact E1|exact H1|exact E2|exact H2].
Defined.

(** ** Eviction *)

(** The frame obtained when the free list is empty and the replacer names
    victim [f]. *)
Lemma eviction_acquire b f :
  inv b → pins b → free_list_ b = [] → (Evict (replacer_ b)).1 = Some f →
  match acquire_frame (free_list_ b) b with
  | (Returned (Some f0), b0) =>
      f0 = f ∧
      page_table_ b !! page_id_ (page_at b f) = Some f ∧
      pin_count_ (page_at b f) = 0 ∧
      page_table_ b0 = delete (page_id_ (page_at b f)) (page_table_ b) ∧
      disk_pages (disk_ b0) =
        (if is_dirty_ (page_at b f)
         then <[page_id_ (page_at b f) := data_ (page_at b f)]>
                (disk_pages (disk_ b))
         else disk_pages (disk_ b))
  | _ => False
  end.
Proof.
  intros Hinv Hp Hnil HE.
  pose proof (acquire_frame_fields b Hinv) as Hacq.
  destruct (acquire_frame (free_list_ b) b) as [[[f0|]|] b0]; [| |done].
  2:{ destruct Hacq as (_ & _ & HE'). congruence. }
  destruct Hacq as (_ & _ & _ & _ & _ & Hcase).
  destruct Hcase as [(Hne & _)|(_ & _ & (n & Hn & He) & HE' & _ & Hpt0 & _ & Hd0)];
    [done|].
  rewrite HE' in HE. simpl in HE. injection HE as ->.
  destruct (pins_evictable b Hp f n Hn He) as [Hpin Hres].
  split_and!; [done|done|done|done|].
  rewrite Hd0. by destruct (is_dirty_ (page_at b f)).
Qed.

(** X12.  Eviction writes a dirty victim back.  In any pool state that
    satisfies the invariants, with no free frame and [f] the frame the
    replacer would evict: the victim is a resident, unpinned page; both
    [NewPage] and a [FetchPage] miss reuse frame [f]; the victim leaves the
    page table and the new page takes its place; and the disk receives the
    victim's bytes under the victim's page id exactly when the victim was
    dirty. *)
Theorem eviction_writes_back_dirty_victim b f :
  inv b → pins b → current_timestamp_ (replacer_ b) + 1 < 2 ^ 64 →
  free_list_ b = [] → (Evict (replacer_ b)).1 = Some f →
  let victim := page_at b f in
  let written :=
    if is_dirty_ victim
    then <[page_id_ victim := data_ victim]> (disk_pages (disk_ b))
    else disk_pages (disk_ b) in
  page_table_ b !! page_id_ victim = Some f ∧
  pin_count_ victim = 0 ∧
  ((NewPage b).1 = Returned (Some (f, next_page_id_ b)) ∧
   page_table_ (NewPage b).2 =
     map_emplace (next_page_id_ b) f
       (delete (page_id_ victim) (page_table_ b)) ∧
   disk_pages (disk_ (NewPage b).2) = written) ∧
  (∀ page_id, page_table_ b !! page_id = None →
     (FetchPage page_id b).1 = Returned (Some f) ∧
     page_table_ (FetchPage page_id b).2 =
       map_emplace page_id f (delete (page_id_ victim) (page_table_ b)) ∧
     disk_pages (disk_ (FetchPage page_id b).2) = written).
Proof.
  intros Hinv Hp Hclk Hnil HE victim written.
  pose proof (eviction_acquire b f Hinv Hp Hnil HE) as Hacq.
  pose proof (NewPage_fields b Hinv Hclk) as HN.
  assert (HF : ∀ page_id, page_table_ b !! page_id = None → _)
    by exact (λ page_id, FetchPage_miss_fields b page_id Hinv Hclk).
  destruct (acquire_frame (free_list_ b) b) as [[[f0|]|] b0]; [|done..].
  destruct Hacq as (-> & Hres & Hpin & Hpt0 & Hw).
  destruct HN as (HoN & _ & HptN & _ & _ & HdN & _).
  split_and!; [done|done|done|by rewrite HptN, Hpt0|by rewrite HdN|].
  intros page_id Hmiss.
  destruct (HF page_id Hmiss) as (Ho & _ & Hpt & _ & _ & Hd & _).
  split_and!; [done|by rewrite Hpt, Hpt0|by rewrite Hd].
Qed.

Lemma eviction_writes_back_dirty_victim_witness :
  (NewPage pool1_dirty).1 = Returned (Some (0, 1)) ∧
  disk_pages (disk_ (NewPage pool1_dirty).2) !! 0 = Some zero_page.
Proof.
  destruct pool1_dirty_sound as [Hi Hp].
  destruct (eviction_writes_back_dirty_victim pool1_dirty 0 Hi Hp)
    as (_ & _ & (H1 & _ & H2) & _);
    [vm_compute; reflexivity|vm_compute; reflexivity|vm_compute; reflexivity|].
  split; [exact H1|]. rewrite H2.
  assert (is_dirty_ (page_at pool1_dirty 0) = true) as -> by reflexivity.
  assert (page_id_ (page_at pool1_dirty 0) = 0) as -> by reflexivity.
  assert (data_ (page_at pool1_dirty 0) = zero_page) as ->
    by (vm_compute; reflexivity).
  apply lookup_insert_eq.
Defined.

(** ** [FetchPage] on a miss *)

(** The frame obtained for a page that is not resident: the page is still
    not resident, the disk's copy of it is as before, and the frame is
    clean. *)
Lemma miss_acquire b page_id :
  inv b → pins b → page_table_ b !! page_id = None →
  match acquire_frame (free_list_ b) b with
  | (Returned (Some f0), b0) =>
      page_table_ b0 !! page_id = None ∧
      disk_pages (disk_ b0) !! page_id = disk_pages (disk_ b) !! page_id ∧
      is_dirty_ (page_at b0 f0) = false ∧
      (∀ g, g ≠ f0 → page_at b0 g = page_at b g)
  | _ => True
  end.
Proof.
  intros Hinv Hp Hmiss.
  pose proof (acquire_frame_fields b Hinv) as Hacq.
  pose proof (acquire_frame_pins b Hinv Hp) as Hap.
  destruct (acquire_frame (free_list_ b) b) as [[[f|]|] b0]; [|done..].
  destruct Hap as (_ & _ & Hc0).
  destruct Hacq as (_ & Hpg0 & _ & _ & _ & Hcase).
  split_and!; [| |done|done].
  - destruct Hcase as [(_ & _ & _ & _ & -> & _)|(_ & _ & _ & _ & _ & -> & _)];
      [done|]. apply lookup_delete_None. by right.
  - destruct Hcase as [(_ & _ & _ & _ & _ & -> & _)
                      |(_ & _ & (n & Hn & He) & _ & _ & _ & _ & ->)]; [done|].
    destruct (is_dirty_ (page_at b f)); [|done]. simpl.
    rewrite lookup_insert_ne; [done|]. intros Heq.
    destruct (pins_evictable b Hp f n Hn He) as [_ Hres]. congruence.
Qed.

(** X13.  A miss reads the page from disk.  In any pool state that satisfies
    the invariants, when [FetchPage] of a page that is not resident returns
    a frame, the page is resident in that frame afterwards; the frame
    records the page id, is clean, and holds the bytes the disk stores for
    the page (zeroes if it stores none); the disk's copy of the page is
    unchanged and the last request issued is the read of that page; no
    frame other than the returned one changes and the id counter stays. *)
Theorem FetchPage_miss_reads_disk b page_id f :
  inv b → pins b → current_timestamp_ (replacer_ b) + 1 < 2 ^ 64 →
  page_table_ b !! page_id = None →
  (FetchPage page_id b).1 = Returned (Some f) →
  let b' := (FetchPage page_id b).2 in
  page_table_ b' !! page_id = Some f ∧
  page_id_ (page_at b' f) = page_id ∧
  is_dirty_ (page_at b' f) = false ∧
  data_ (page_at b' f) = default zero_page (disk_pages (disk_ b) !! page_id) ∧
  disk_pages (disk_ b') !! page_id = disk_pages (disk_ b) !! page_id ∧
  last (disk_log (disk_ b')) = Some (mkRequest false page_id) ∧
  (∀ g, g ≠ f → page_at b' g = page_at b g) ∧
  next_page_id_ b' = next_page_id_ b.
Proof.
  intros Hinv Hp Hclk Hmiss Hret b'. subst b'.
  pose proof (miss_acquire b page_id Hinv Hp Hmiss) as Hacq.
  pose proof (FetchPage_miss_fields b page_id Hinv Hclk Hmiss) as Hfld.
  destruct (acquire_frame (free_list_ b) b) as [[[f0|]|] b0]; [| |done].
  2:{ rewrite Hfld in Hret. done. }
  destruct Hfld as (Ho & _ & Hpt & _ & Hnp & Hd & _ & _ & Hpf & Hpg).
  rewrite Ho in Hret. injection Hret as ->.
  destruct Hacq as (Hpt0 & Hd0 & Hc0 & Hpg0).
  rewrite Hpf, Hd, Hpt. cbn [data_ page_id_ is_dirty_].
  split_and!; [by apply map_emplace_new|done|done|by rewrite Hd0|done| | |done].
  - unfold disk_read. simpl. by rewrite last_snoc.
  - intros g Hg. rewrite Hpg by done. by apply Hpg0.
Qed.

Lemma FetchPage_miss_reads_disk_witness :
  page_table_ (FetchPage 0 pool1).2 !! 0 = Some 0 ∧
  is_dirty_ (page_at (FetchPage 0 pool1).2 0) = false ∧
  data_ (page_at (FetchPage 0 pool1).2 0) = zero_page.
Proof.
  assert (inv pool1 ∧ pins pool1) as [Hi Hp]
    by (split; [by apply inv_create|apply pins_create]).
  destruct (FetchPage_miss_reads_disk pool1 0 0 Hi Hp)
    as (H1 & _ & H3 & H4 & _);
    [vm_compute; reflexivity|vm_compute; reflexivity|vm_compute; reflexivity|].
  split_and!; [exact H1|exact H3|exact H4].
Defined.

(** X14.  A page brought in by a miss cannot be released.  In any pool state
    that satisfies the invariants, right after [FetchPage] of a page that
    was not resident has returned a frame, [UnpinPage] of that page returns
    false and changes nothing (the pin count is 0), and [DeletePage] of that
    page throws out of the replacer ([Remove] of a non-evictable frame)
    after the page has already left the page table. *)
Theorem missed_page_cannot_be_released b page_id f :
  inv b → pins b → current_timestamp_ (replacer_ b) + 1 < 2 ^ 64 →
  page_table_ b !! page_id = None →
  (FetchPage page_id b).1 = Returned (Some f) →
  let b' := (FetchPage page_id b).2 in
  (∀ is_dirty, UnpinPage page_id is_dirty b' = (Returned false, b')) ∧
  (DeletePage page_id b').1 = Thrown ∧
  page_table_ (DeletePage page_id b').2 !! page_id = None ∧
  is_Some (node_store_ (replacer_ (DeletePage page_id b').2) !! f) ∧
  f ∉ free_list_ (DeletePage page_id b').2.
Proof.
  intros Hinv Hp Hclk Hmiss Hret b'.
  pose proof (inv_FetchPage page_id b Hinv Hclk) as Hinv'. fold b' in Hinv'.
  pose proof (acquire_frame_fields b Hinv) as Hacq.
  pose proof (FetchPage_miss_fields b page_id Hinv Hclk Hmiss) as Hfld.
  destruct (acquire_frame (free_list_ b) b) as [[[f0|]|] b0]; [| |done].
  2:{ rewrite Hfld in Hret. done. }
  cbv zeta in Hfld. fold b' in Hfld.
  destruct Hfld as (Ho & _ & Hpt & _ & _ & _ & Hr & Htr & Hpf & _).
  rewrite Ho in Hret. injection Hret as ->.
  destruct Hacq as (_ & _ & _ & _ & _ & Hcase).
  assert (page_table_ b0 !! page_id = None) as Hpt0.
  { destruct Hcase as [(_ & _ & _ & _ & -> & _)|(_ & _ & _ & _ & _ & -> & _)];
      [done|]. apply lookup_delete_None. by right. }
  assert (page_table_ b' !! page_id = Some f) as Hres
    by (rewrite Hpt; by apply map_emplace_new).
  assert (pin_count_ (page_at b' f) = 0) as Hpin by by rewrite Hpf.
  destruct (inv_resident b' Hinv' page_id f Hres) as [[n Hn] _].
  assert (is_evictable_ n = false) as He.
  { destruct (SetEvictable_tracked f false _ Htr) as (_ & _ & H).
    rewrite <- Hr, Hn in H. by injection H. }
  split_and!.
  - intros is_dirty. apply UnpinPage_refused. intros f'. rewrite Hres.
    by intros [= <-].
  - rewrite (DeletePage_stuck b' page_id f n); [done|done|lia|done|done].
  - rewrite (DeletePage_stuck b' page_id f n); [|done|lia|done|done].
    apply lookup_delete_eq.
  - rewrite (DeletePage_stuck b' page_id f n); [|done|lia|done|done].
    by exists n.
  - rewrite (DeletePage_stuck b' page_id f n); [|done|lia|done|done].
    cbn [snd]. pool_simpl.
    destruct (inv_tracked b' Hinv' f); [by exists n|done].
Qed.

Lemma missed_page_cannot_be_released_witness :
  UnpinPage 0 true (FetchPage 0 pool1).2 = (Returned false, (FetchPage 0 pool1).2) ∧
  (DeletePage 0 (FetchPage 0 pool1).2).1 = Thrown.
Proof.
  assert (inv pool1 ∧ pins pool1) as [Hi Hp]
    by (split; [by apply inv_create|apply pins_create]).
  destruct (missed_page_cannot_be_released pool1 0 0 Hi Hp)
    as (H1 & H2 & _);
    [vm_compute; reflexivity|vm_compute; reflexivity|vm_compute; reflexivity|].
  split; [exact (H1 true)|exact H2].
Defined.

(** ** Flushing *)

Lemma FlushPage_run b page_id :
  FlushPage page_id b =
    match page_table_ b !! page_id with
    | Some f => (Returned true, (FlushFrame f b).2)
    | None => (Returned false, b)
    end.
Proof.
  unfold FlushPage, bind, gets, ret. simpl.
  destruct (page_table_ b !! page_id) as [f|]; [|done].
  destruct (FlushFrame_spec f b) as [Ho _].
  destruct (FlushFrame f b) as [o b']. simpl in *. by subst o.
Qed.

(** The loop of [FlushAllPages] over a list of page-table entries. *)
Lemma flush_list_spec (l : list (Z * Z)) b :
  NoDup l.*1 →
  (∀ p f, (p, f) ∈ l → page_id_ (page_at b f) = p) →
  let res := foldr (λ entry rest, FlushFrame entry.2;; rest) (ret tt) l b in
  res.1 = Returned tt ∧
  pool_size_ res.2 = pool_size_ b ∧
  replacer_ res.2 = replacer_ b ∧
  free_list_ res.2 = free_list_ b ∧
  page_table_ res.2 = page_table_ b ∧
  next_page_id_ res.2 = next_page_id_ b ∧
  (∀ g, page_at res.2 g =
        if decide (g ∈ l.*2) then set_is_dirty false (page_at b g)
        else page_at b g) ∧
  (∀ p f, (p, f) ∈ l →
     disk_pages (disk_ res.2) !! p =
       if is_dirty_ (page_at b f) then Some (data_ (page_at b f))
       else disk_pages (disk_ b) !! p) ∧
  (∀ p, p ∉ l.*1 → disk_pages (disk_ res.2) !! p = disk_pages (disk_ b) !! p).
Proof.
  revert b. induction l as [|[p0 f0] l IH]; intros b Hnd Hid res.
  - subst res. cbn [foldr]. unfold ret. cbn [fst snd].
    split_and!; try done.
    intros p f Hin. by apply elem_of_nil in Hin.
  - apply NoDup_cons in Hnd as [Hp0 Hnd].
    destruct (FlushFrame_frame f0 b)
      as (Ho & Eps & _ & Er & Efl & Ept & Enp & Eid & _).
    pose proof (λ g, page_at_FlushFrame f0 g b) as Hpg.
    pose proof (disk_FlushFrame f0 b) as Hdisk.
    assert (page_id_ (page_at b f0) = p0) as Hid0 by (apply Hid; set_solver).
    rewrite Hid0 in Hdisk.
    assert (res = foldr (λ entry rest, FlushFrame entry.2;; rest) (ret tt) l
                    (FlushFrame f0 b).2) as Hres.
    { subst res. cbn [foldr]. unfold bind at 1. cbn [snd].
      destruct (FlushFrame f0 b) as [o b1]. simpl in Ho. by subst o. }
    rewrite Hres. clear Hres. clearbody res. clear res.
    set (b1 := (FlushFrame f0 b).2) in *.
    specialize (IH b1 Hnd).
    destruct IH as (IH1 & IH2 & IH3 & IH4 & IH5 & IH6 & IH7 & IH8 & IH9).
    { intros p f Hin. rewrite Eid. apply Hid. set_solver. }
    assert (Hother : ∀ p f, (p, f) ∈ l → f ≠ f0 ∧ p ≠ p0).
    { intros p f Hin.
      assert (p ≠ p0) as Hp.
      { intros ->. apply Hp0. apply list_elem_of_fmap. by exists (p0, f). }
      split; [|done]. intros ->. apply Hp.
      rewrite <- Hid0. symmetry. apply Hid. set_solver. }
    assert (Hd1 : ∀ p, p ≠ p0 →
              disk_pages (disk_ b1) !! p = disk_pages (disk_ b) !! p).
    { intros p Hp. rewrite Hdisk. destruct (is_dirty_ (page_at b f0)); [|done].
      simpl. by rewrite lookup_insert_ne. }
    split_and!; try congruence.
    + intros g. rewrite IH7, !Hpg.
      destruct (decide (g = f0)) as [->|Hg].
      * rewrite (decide_True (P:=f0 ∈ ((p0, f0) :: l).*2))
          by (rewrite fmap_cons; set_solver).
        by destruct (decide (f0 ∈ l.*2)).
      * destruct (decide (g ∈ l.*2)) as [Hin|Hout].
        -- rewrite decide_True by (rewrite fmap_cons; set_solver). done.
        -- rewrite decide_False; [done|]. rewrite fmap_cons. set_solver.
    + intros p f [[= -> ->]|Hin]%elem_of_cons.
      * rewrite IH9 by done. rewrite Hdisk.
        destruct (is_dirty_ (page_at b f0)); [|done].
        simpl. by rewrite lookup_insert_eq.
      * destruct (Hother p f Hin) as [Hf Hp].
        rewrite (IH8 p f Hin), (Hpg f), decide_False by done.
        by rewrite Hd1.
    + intros p Hp. rewrite IH9 by set_solver. apply Hd1. set_solver.
Qed.

(** X17.  What [FlushAllPages] does, in any pool state that satisfies the
    invariants: every resident frame ends up clean with its bytes, page id
    and pin count unchanged; for every resident page that was dirty the disk
    afterwards stores the frame's bytes under the page's id; the disk's copy
    of every other page is untouched; frames that hold no resident page are
    not touched; and the replacer, the free list, the page table and the id
    counter are unchanged. *)
Theorem FlushAllPages_effect b :
  inv b →
  let b' := (FlushAllPages b).2 in
  (FlushAllPages b).1 = Returned tt ∧
  replacer_ b' = replacer_ b ∧
  free_list_ b' = free_list_ b ∧
  page_table_ b' = page_table_ b ∧
  next_page_id_ b' = next_page_id_ b ∧
  (∀ page_id f, page_table_ b !! page_id = Some f →
     page_at b' f = set_is_dirty false (page_at b f) ∧
     disk_pages (disk_ b') !! page_id =
       if is_dirty_ (page_at b f) then Some (data_ (page_at b f))
       else disk_pages (disk_ b) !! page_id) ∧
  (∀ g, (∀ page_id, page_table_ b !! page_id ≠ Some g) →
     page_at b' g = page_at b g) ∧
  (∀ page_id, page_table_ b !! page_id = None →
     disk_pages (disk_ b') !! page_id = disk_pages (disk_ b) !! page_id).
Proof.
  intros Hinv b'. subst b'.
  assert (FlushAllPages b =
            foldr (λ entry rest, FlushFrame entry.2;; rest) (ret tt)
              (map_to_list (page_table_ b)) b) as -> by reflexivity.
  destruct (flush_list_spec (map_to_list (page_table_ b)) b)
    as (H1 & _ & H3 & H4 & H5 & H6 & H7 & H8 & H9).
  { apply NoDup_fst_map_to_list. }
  { intros p f Hin%elem_of_map_to_list.
    by destruct (inv_resident b Hinv p f Hin). }
  set (res := foldr (λ entry rest, FlushFrame entry.2;; rest) (ret tt)
                (map_to_list (page_table_ b)) b) in *.
  assert (Hmem : ∀ g, g ∈ (map_to_list (page_table_ b)).*2 ↔
            ∃ p, page_table_ b !! p = Some g).
  { intros g. rewrite list_elem_of_fmap. split.
    - intros ([p f] & -> & Hin). exists p. by apply elem_of_map_to_list.
    - intros [p Hp]. exists (p, g). split; [done|].
      by apply elem_of_map_to_list. }
  destruct res as [o b1]. cbn [fst snd] in *.
  split_and!; try done.
  - intros page_id f Hf. split.
    + rewrite H7, decide_True; [done|]. apply Hmem. by exists page_id.
    + apply H8. by apply elem_of_map_to_list.
  - intros g Hg. rewrite H7, decide_False; [done|].
    intros [p Hp]%Hmem. by apply (Hg p).
  - intros page_id Hnone. apply H9. intros Hin.
    apply list_elem_of_fmap in Hin as ([p f] & -> & Hin).
    apply elem_of_map_to_list in Hin. simpl in Hnone. congruence.
Qed.

Lemma FlushAllPages_effect_witness :
  page_at (FlushAllPages pool1_dirty).2 0
    = set_is_dirty false (page_at pool1_dirty 0) ∧
  disk_pages (disk_ (FlushAllPages pool1_dirty).2) !! 0 = Some zero_page.
Proof.
  destruct pool1_dirty_sound as [Hi _].
  destruct (FlushAllPages_effect pool1_dirty Hi) as (_ & _ & _ & _ & _ & H & _).
  destruct (H 0 0) as [H1 H2]; [vm_compute; reflexivity|].
  split; [exact H1|].
  rewrite H2.
  assert (is_dirty_ (page_at pool1_dirty 0) = true) as -> by reflexivity.
  vm_compute. reflexivity.
Defined.

(** ** [UnpinPage] and [DeletePage] *)

(** X15.  What [UnpinPage] does, in any pool state that satisfies the
    invariants.  For a page that is not resident, or whose pin count is 0,
    it returns false and changes nothing.  Otherwise it returns true and
    lowers the pin count by exactly one; the dirty flag is set when
    [is_dirty] is true and is never cleared; the frame becomes evictable
    exactly when the pin count reaches 0; the frame's bytes and page id, all
    other frames, the page table, the free list, the id counter and the disk
    are unchanged. *)
Theorem UnpinPage_effect b page_id is_dirty :
  inv b → pins b →
  let b' := (UnpinPage page_id is_dirty b).2 in
  match page_table_ b !! page_id with
  | None => UnpinPage page_id is_dirty b = (Returned false, b)
  | Some f =>
      let page := page_at b f in
      if decide (pin_count_ page = 0)
      then UnpinPage page_id is_dirty b = (Returned false, b)
      else
        (UnpinPage page_id is_dirty b).1 = Returned true ∧
        pin_count_ (page_at b' f) = pin_count_ page - 1 ∧
        is_dirty_ (page_at b' f) = is_dirty || is_dirty_ page ∧
        data_ (page_at b' f) = data_ page ∧
        page_id_ (page_at b' f) = page_id ∧
        (is_evictable_ <$> node_store_ (replacer_ b') !! f)
          = Some (pin_count_ page =? 1) ∧
        (∀ g, g ≠ f → page_at b' g = page_at b g) ∧
        page_table_ b' = page_table_ b ∧
        free_list_ b' = free_list_ b ∧
        next_page_id_ b' = next_page_id_ b ∧
        disk_ b' = disk_ b
  end.
Proof.
  intros Hinv Hp b'. subst b'.
  destruct (page_table_ b !! page_id) as [f|] eqn:Hf.
  2:{ apply UnpinPage_refused. intros f. by rewrite Hf. }
  cbv zeta. case_decide as Hpin.
  { apply UnpinPage_refused. intros f'. rewrite Hf. by intros [= <-]. }
  destruct (inv_resident b Hinv page_id f Hf) as [[n Hn] Hid].
  destruct (UnpinPage_fields b page_id is_dirty f Hinv Hf Hpin)
    as (Ho & _ & Hpt & Hfl & Hnp & Hd & Hr & Hpf & Hpg).
  rewrite Hpf. cbn [pin_count_ is_dirty_ data_ page_id_].
  split_and!; try done.
  rewrite Hr.
  destruct (Z.eqb_spec (pin_count_ (page_at b f) - 1) 0) as [Hz|Hnz].
  - destruct (SetEvictable_tracked f true (replacer_ b)) as (_ & _ & ->);
      [by eexists|].
    f_equal. symmetry. apply Z.eqb_eq. lia.
  - rewrite Hn. simpl. f_equal.
    destruct (is_evictable_ n) eqn:He.
    + destruct (pins_evictable b Hp f n Hn He). lia.
    + symmetry. apply Z.eqb_neq. lia.
Qed.

Lemma UnpinPage_effect_witness :
  (UnpinPage 0 true pool1_new).1 = Returned true ∧
  pin_count_ (page_at (UnpinPage 0 true pool1_new).2 0) = 0 ∧
  is_dirty_ (page_at (UnpinPage 0 true pool1_new).2 0) = true.
Proof.
  destruct pool1_new_sound as [Hi Hp].
  pose proof (UnpinPage_effect pool1_new 0 true Hi Hp) as H. cbv zeta in H.
  assert (page_table_ pool1_new !! 0 = Some 0) as E by reflexivity.
  rewrite E in H.
  assert (pin_count_ (page_at pool1_new 0) = 1) as E1 by reflexivity.
  rewrite decide_False in H by (rewrite E1; discriminate).
  destruct H as (H1 & H2 & H3 & _).
  split_and!; [exact H1|by rewrite H2, E1|by rewrite H3].
Defined.

(** X16.  What [DeletePage] does to a page nobody holds, in any pool state
    that satisfies the invariants.  For a page that is not resident it
    returns true and changes nothing.  For a resident page with pin count 0
    whose frame is evictable it returns true; the page leaves the page
    table; the frame is put at the front of the free list, is zeroed, clean
    and records no page; the replacer forgets the frame and keeps every
    other node; the frame's bytes are written to disk under the page's id
    exactly when the frame was dirty; no other frame changes and the id
    counter stays. *)
Theorem DeletePage_effect b page_id :
  inv b → pins b →
  let b' := (DeletePage page_id b).2 in
  match page_table_ b !! page_id with
  | None => DeletePage page_id b = (Returned true, b)
  | Some f =>
      let page := page_at b f in
      pin_count_ page = 0 →
      f ∈ evictable_set (node_store_ (replacer_ b)) →
      (DeletePage page_id b).1 = Returned true ∧
      page_table_ b' = delete page_id (page_table_ b) ∧
      free_list_ b' = f :: free_list_ b ∧
      page_at b' f = mkPage zero_page INVALID_PAGE_ID 0 false ∧
      node_store_ (replacer_ b') = delete f (node_store_ (replacer_ b)) ∧
      disk_pages (disk_ b') =
        (if is_dirty_ page then <[page_id := data_ page]> (disk_pages (disk_ b))
         else disk_pages (disk_ b)) ∧
      (∀ g, g ≠ f → page_at b' g = page_at b g) ∧
      next_page_id_ b' = next_page_id_ b
  end.
Proof.
  intros Hinv Hp b'. subst b'.
  destruct (page_table_ b !! page_id) as [f|] eqn:Hf.
  2:{ by apply DeletePage_absent. }
  cbv zeta. intros Hpin (n & Hn & He)%elem_of_evictable_set.
  destruct (DeletePage_fields b page_id f n Hinv Hf) as
    (Ho & _ & Hpt & Hfl & Hnp & _ & Hst & Hd & Hpf & Hpg); [lia|done|done|].
  rewrite Hpf, Hpin, Hd.
  split_and!; try done.
  by destruct (is_dirty_ (page_at b f)).
Qed.

Lemma DeletePage_effect_witness :
  (DeletePage 0 pool1_dirty).1 = Returned true ∧
  free_list_ (DeletePage 0 pool1_dirty).2 = [0] ∧
  page_at (DeletePage 0 pool1_dirty).2 0
    = mkPage zero_page INVALID_PAGE_ID 0 false.
Proof.
  destruct pool1_dirty_sound as [Hi Hp].
  pose proof (DeletePage_effect pool1_dirty 0 Hi Hp) as H. cbv zeta in H.
  assert (page_table_ pool1_dirty !! 0 = Some 0) as E by reflexivity.
  rewrite E in H.
  destruct H as (H1 & _ & H3 & H4 & _).
  - reflexivity.
  - apply elem_of_evictable_set. eexists. split; vm_compute; reflexivity.
  - split_and!; [exact H1|exact H3|exact H4].
Defined.

(** ** Pinned pages stay *)

Lemma acquire_keeps_pinned b page_id f :
  inv b → pins b → page_table_ b !! page_id = Some f →
  0 < pin_count_ (page_at b f) →
  match acquire_frame (free_list_ b) b with
  | (Returned (Some f0), b0) =>
      f0 ≠ f ∧ page_table_ b0 !! page_id = Some f ∧ page_at b0 f = page_at b f
  | _ => True
  end.
Proof.
  intros Hinv Hp Hf Hpin.
  pose proof (acquire_frame_fields b Hinv) as Hacq.
  pose proof (acquire_frame_pins b Hinv Hp) as Hap.
  destruct (acquire_frame (free_list_ b) b) as [[[f0|]|] b0]; [|done..].
  destruct Hap as (_ & Hp0 & _).
  destruct Hacq as (_ & Hpg & _ & _ & Hpin0 & Hcase).
  assert (f0 ≠ f) as Hne. { intros ->. lia. }
  split_and!; [done| |by apply Hpg].
  destruct Hcase as [(_ & _ & _ & _ & -> & _)
                    |(_ & _ & (n & Hn & He) & _ & _ & -> & _)]; [done|].
  rewrite lookup_delete_ne; [done|]. intros Heq.
  destruct (pins_evictable b Hp f0 n Hn He) as [_ Hres]. congruence.
Qed.

(** X18.  A pinned page stays where it is.  In any pool state that satisfies
    the invariants, with page [page_id] resident in frame [f] and pinned,
    every call other than [DeletePage(page_id)] leaves the page resident in
    the same frame with the same bytes, and every call other than
    [UnpinPage(page_id, _)] does not lower its pin count: no [NewPage] or
    [FetchPage] ever evicts it. *)
Theorem pinned_page_stays_resident b page_id f c :
  inv b → pins b → current_timestamp_ (replacer_ b) + 1 < 2 ^ 64 →
  page_table_ b !! page_id = Some f → 0 < pin_count_ (page_at b f) →
  c ≠ CallDeletePage page_id →
  let b' := run c b in
  page_table_ b' !! page_id = Some f ∧
  data_ (page_at b' f) = data_ (page_at b f) ∧
  page_id_ (page_at b' f) = page_id ∧
  ((∀ is_dirty, c ≠ CallUnpinPage page_id is_dirty) →
   pin_count_ (page_at b f) ≤ pin_count_ (page_at b' f)).
Proof.
  intros Hinv Hp Hclk Hf Hpin Hc b'. subst b'.
  destruct (inv_resident b Hinv page_id f Hf) as [Htr Hid].
  pose proof (inv_in_pool b page_id f Hinv Hf) as Hin.
  pose proof (acquire_keeps_pinned b page_id f Hinv Hp Hf Hpin) as Hacq.
  destruct c as [|p'|p' d|p'| |p']; simpl.
  - (* NewPage *)
    pose proof (NewPage_fields b Hinv Hclk) as Hfld.
    destruct (acquire_frame (free_list_ b) b) as [[[f0|]|] b0]; [| |done].
    2:{ rewrite Hfld. simpl. split_and!; [done|done|done|lia]. }
    destruct Hacq as (Hne & Hpt0 & Hpf0).
    destruct Hfld as (_ & _ & Hpt & _ & _ & _ & _ & _ & _ & Hpg).
    rewrite Hpt, (Hpg f), Hpf0 by done.
    split_and!; [by apply map_emplace_keeps|done|done|lia].
  - (* FetchPage *)
    destruct (page_table_ b !! p') as [f'|] eqn:Hf'.
    + destruct (inv_resident b Hinv p' f' Hf') as [Htr' _].
      rewrite (FetchPage_hit_run b p' f' Hf' Htr'). cbn [snd]. pool_simpl.
      rewrite page_at_update. pool_simpl.
      case_decide as Hd; [|split_and!; [done|done|done|lia]].
      destruct Hd as [-> _]. simpl. split_and!; [done|done|done|lia].
    + pose proof (FetchPage_miss_fields b p' Hinv Hclk Hf') as Hfld.
      destruct (acquire_frame (free_list_ b) b) as [[[f0|]|] b0]; [| |done].
      2:{ rewrite Hfld. simpl. split_and!; [done|done|done|lia]. }
      destruct Hacq as (Hne & Hpt0 & Hpf0).
      destruct Hfld as (_ & _ & Hpt & _ & _ & _ & _ & _ & _ & Hpg).
      rewrite Hpt, (Hpg f), Hpf0 by done.
      split_and!; [by apply map_emplace_keeps|done|done|lia].
  - (* UnpinPage *)
    destruct (page_table_ b !! p') as [f'|] eqn:Hf'.
    2:{ rewrite UnpinPage_refused; [|intros f0; by rewrite Hf'].
        simpl. split_and!; [done|done|done|lia]. }
    destruct (decide (pin_count_ (page_at b f') = 0)) as [Hz|Hnz].
    { rewrite UnpinPage_refused; [|intros f0; rewrite Hf'; by intros [= <-]].
      simpl. split_and!; [done|done|done|lia]. }
    destruct (UnpinPage_fields b p' d f' Hinv Hf' Hnz)
      as (_ & _ & Hpt & _ & _ & _ & _ & Hpf & Hpg).
    rewrite Hpt. destruct (decide (f' = f)) as [->|Hne].
    + rewrite Hpf. simpl. split_and!; [done|done|done|].
      intros Hnot. exfalso. apply (Hnot d). f_equal.
      by apply (page_table_injective b p' page_id f).
    + rewrite Hpg by done. split_and!; [done|done|done|lia].
  - (* FlushPage *)
    rewrite FlushPage_run. destruct (page_table_ b !! p') as [f'|].
    2:{ simpl. split_and!; [done|done|done|lia]. }
    cbn [snd].
    destruct (FlushFrame_frame f' b)
      as (_ & _ & _ & _ & _ & -> & _ & Eid & Epin & Edata).
    rewrite Eid, Epin, Edata. split_and!; [done|done|done|lia].
  - (* FlushAllPages *)
    assert (FlushAllPages b =
              foldr (λ entry rest, FlushFrame entry.2;; rest) (ret tt)
                (map_to_list (page_table_ b)) b) as -> by reflexivity.
    destruct (flush_list_spec (map_to_list (page_table_ b)) b)
      as (_ & _ & _ & _ & -> & _ & H7 & _).
    { apply NoDup_fst_map_to_list. }
    { intros p0 f0 Hin0%elem_of_map_to_list.
      by destruct (inv_resident b Hinv p0 f0 Hin0). }
    rewrite H7. case_decide; simpl; split_and!; try done; lia.
  - (* DeletePage of another page *)
    assert (p' ≠ page_id) as Hne by congruence.
    destruct (page_table_ b !! p') as [f'|] eqn:Hf'.
    2:{ rewrite DeletePage_absent by done. simpl.
        split_and!; [done|done|done|lia]. }
    assert (f' ≠ f) as Hnf.
    { intros ->. apply Hne. by apply (page_table_injective b p' page_id f). }
    destruct (inv_resident b Hinv p' f' Hf') as [[n Hn] _].
    destruct (Z.ltb_spec 0 (pin_count_ (page_at b f'))) as [Hpin'|Hpin'].
    { rewrite (DeletePage_pinned b p' f' Hf' Hpin'). cbn [snd]. pool_simpl.
      rewrite lookup_delete_ne by done. split_and!; [done|done|done|lia]. }
    destruct (is_evictable_ n) eqn:He.
    2:{ rewrite (DeletePage_stuck b p' f' n Hf' Hpin' Hn He). cbn [snd].
        pool_simpl. rewrite lookup_delete_ne by done.
        split_and!; [done|done|done|lia]. }
    destruct (DeletePage_fields b p' f' n Hinv Hf' Hpin' Hn He)
      as (_ & _ & Hpt & _ & _ & _ & _ & _ & _ & Hpg).
    rewrite Hpt, Hpg by done. rewrite lookup_delete_ne by done.
    split_and!; [done|done|done|lia].
Qed.

Lemma pinned_page_stays_resident_witness :
  page_table_ (run CallNewPage pool1_new) !! 0 = Some 0 ∧
  data_ (page_at (run CallNewPage pool1_new) 0) = data_ (page_at pool1_new 0).
Proof.
  destruct pool1_new_sound as [Hi Hp].
  destruct (pinned_page_stays_resident pool1_new 0 0 CallNewPage Hi Hp)
    as (H1 & H2 & _);
    [vm_compute; reflexivity|reflexivity|vm_compute; reflexivity|discriminate|].
  split; [exact H1|exact H2].
Defined.

(** ** Bytes that leave the pool come back *)

(** X19.  A dirty page that leaves the pool is read back with its bytes.  In
    any pool state that satisfies the invariants, let page [page_id] be
    resident, unpinned, evictable and dirty in frame [f].  If [DeletePage]
    removes it, or if the free list is empty, [f] is the replacer's victim
    and [NewPage] (handing out another id) evicts it, then the page is no
    longer resident, and a [FetchPage] of it that returns a frame returns
    one that holds exactly the bytes frame [f] held; after [DeletePage] that
    [FetchPage] always returns a frame. *)
Theorem dirty_page_reads_back b page_id f :
  inv b → pins b → current_timestamp_ (replacer_ b) + 1 < 2 ^ 64 →
  page_table_ b !! page_id = Some f →
  pin_count_ (page_at b f) = 0 →
  f ∈ evictable_set (node_store_ (replacer_ b)) →
  is_dirty_ (page_at b f) = true →
  (let b1 := (DeletePage page_id b).2 in
   page_table_ b1 !! page_id = None ∧
   ∃ f', (FetchPage page_id b1).1 = Returned (Some f') ∧
         data_ (page_at (FetchPage page_id b1).2 f') = data_ (page_at b f)) ∧
  (let b1 := (NewPage b).2 in
   free_list_ b = [] → (Evict (replacer_ b)).1 = Some f →
   page_id ≠ next_page_id_ b →
   current_timestamp_ (replacer_ b1) + 1 < 2 ^ 64 →
   page_table_ b1 !! page_id = None ∧
   ∀ f', (FetchPage page_id b1).1 = Returned (Some f') →
         data_ (page_at (FetchPage page_id b1).2 f') = data_ (page_at b f)).
Proof.
  intros Hinv Hp Hclk Hf Hpin Hev Hdirty.
  destruct (inv_resident b Hinv page_id f Hf) as [_ Hid].
  assert (Hread : ∀ b1 f',
            inv b1 → pins b1 → current_timestamp_ (replacer_ b1) + 1 < 2 ^ 64 →
            page_table_ b1 !! page_id = None →
            disk_pages (disk_ b1) !! page_id = Some (data_ (page_at b f)) →
            (FetchPage page_id b1).1 = Returned (Some f') →
            data_ (page_at (FetchPage page_id b1).2 f') = data_ (page_at b f)).
  { intros b1 f' Hinv1 Hp1 Hclk1 Hmiss Hdisk Hret.
    pose proof (miss_acquire b1 page_id Hinv1 Hp1 Hmiss) as Hacq.
    pose proof (FetchPage_miss_fields b1 page_id Hinv1 Hclk1 Hmiss) as Hfld.
    destruct (acquire_frame (free_list_ b1) b1) as [[[f0|]|] b0]; [| |done].
    2:{ rewrite Hfld in Hret. done. }
    destruct Hfld as (Ho & _ & _ & _ & _ & _ & _ & _ & Hpf & _).
    rewrite Ho in Hret. injection Hret as ->.
    destruct Hacq as (_ & Hd0 & _). rewrite Hpf. simpl.
    by rewrite Hd0, Hdisk. }
  split.
  - intros b1.
    pose proof (inv_DeletePage page_id b Hinv) as Hinv1.
    pose proof (pins_DeletePage page_id b Hinv Hp) as Hp1.
    fold b1 in Hinv1, Hp1.
    apply elem_of_evictable_set in Hev as (n & Hn & He).
    destruct (DeletePage_fields b page_id f n Hinv Hf) as
      (_ & _ & Hpt & Hfl & _ & Hr & _ & Hd & _); [lia|done|done|].
    fold b1 in Hpt, Hfl, Hr, Hd.
    assert (page_table_ b1 !! page_id = None) as Hmiss
      by (rewrite Hpt; apply lookup_delete_eq).
    assert (current_timestamp_ (replacer_ b1) + 1 < 2 ^ 64) as Hclk1.
    { rewrite Hr. unfold Remove. rewrite Hn, He. done. }
    assert (disk_pages (disk_ b1) !! page_id = Some (data_ (page_at b f)))
      as Hdisk.
    { rewrite Hd, Hdirty. simpl. apply lookup_insert_eq. }
    split; [done|].
    pose proof (acquire_frame_fields b1 Hinv1) as Hacq.
    pose proof (FetchPage_miss_fields b1 page_id Hinv1 Hclk1 Hmiss) as Hfld.
    destruct (FetchPage page_id b1).1 as [[f'|]|] eqn:Hret.
    + exists f'. split; [done|]. by apply Hread.
    + exfalso.
      destruct (acquire_frame (free_list_ b1) b1) as [[[f0|]|] b0]; [| |done].
      * destruct Hfld as (Ho & _). congruence.
      * destruct Hacq as (_ & Hnil & _). rewrite Hfl in Hnil. done.
    + exfalso.
      destruct (acquire_frame (free_list_ b1) b1) as [[[f0|]|] b0]; [| |done].
      * destruct Hfld as (Ho & _). congruence.
      * rewrite Hfld in Hret. done.
  - intros b1 Hnil HE Hnew Hclk1.
    pose proof (inv_NewPage b Hinv Hclk) as Hinv1.
    pose proof (pins_NewPage b Hinv Hp Hclk) as Hp1.
    fold b1 in Hinv1, Hp1.
    pose proof (eviction_acquire b f Hinv Hp Hnil HE) as Hacq.
    pose proof (NewPage_fields b Hinv Hclk) as HN.
    destruct (acquire_frame (free_list_ b) b) as [[[f0|]|] b0]; [|done..].
    destruct Hacq as (-> & _ & _ & Hpt0 & Hw).
    destruct HN as (_ & _ & Hpt & _ & _ & Hd & _).
    fold b1 in Hpt, Hd. rewrite Hid in Hpt0, Hw. rewrite Hdirty in Hw.
    assert (page_table_ b1 !! page_id = None) as Hmiss.
    { rewrite Hpt, Hpt0. unfold map_emplace.
      destruct (delete page_id (page_table_ b) !! next_page_id_ b);
        [apply lookup_delete_eq|].
      rewrite lookup_insert_ne by done. apply lookup_delete_eq. }
    split; [done|]. intros f' Hret.
    apply Hread; try done. by rewrite Hd, Hw, lookup_insert_eq.
Qed.

Lemma dirty_page_reads_back_witness :
  page_table_ (DeletePage 0 pool1_dirty).2 !! 0 = None ∧
  ∃ f', (FetchPage 0 (DeletePage 0 pool1_dirty).2).1 = Returned (Some f') ∧
        data_ (page_at (FetchPage 0 (DeletePage 0 pool1_dirty).2).2 f')
          = data_ (page_at pool1_dirty 0).
Proof.
  destruct pool1_dirty_sound as [Hi Hp].
  destruct (dirty_page_reads_back pool1_dirty 0 0 Hi Hp) as [H _].
  - vm_compute. reflexivity.
  - reflexivity.
  - reflexivity.
  - apply elem_of_evictable_set. eexists. split; vm_compute; reflexivity.
  - reflexivity.
  - exact H.
Defined.

(** A pool of two frames: pages 0 and 1 are created and unpinned, page 0
    dirty; the next [NewPage] evicts page 0 and writes it back; fetching
    page 0 again evicts page 1 and reads page 0 from disk. *)
Example scenario_evict_and_read_back :
  let b := run_all [CallNewPage; CallNewPage; CallUnpinPage 0 true;
                    CallUnpinPage 1 false] (BPM.create 2 2) in
  let b1 := (NewPage b).2 in
  (NewPage b).1 = Returned (Some (1, 2)) ∧
  page_table_ b1 !! 0 = None ∧
  disk_log (disk_ b1) = [mkRequest true 0] ∧
  (FetchPage 0 b1).1 = Returned (Some 0) ∧
  page_table_ (FetchPage 0 b1).2 !! 1 = None ∧
  disk_log (disk_ (FetchPage 0 b1).2) = [mkRequest true 0; mkRequest false 0].
Proof. vm_compute. done. Qed.

End BPMLaws.
